(** * Coordination detection (X/src/07_detect_coordination.py)

    A shallow embedding of the five passes of [main] and of its helper
    functions, followed by the properties of the pipeline.

    Conventions of the embedding.
    - A Python [str] is a [string] (its UTF-8 bytes); [<] on [str] and SQLite's
      BINARY collation are both the lexicographic order on those bytes, which
      is [String.le].
    - A Python [int] is a [Z]; a [len] is a [nat].
    - A [Counter], a [set] and the two SQLite tables (unique primary key,
      additive upsert) are [gmap]s and [gset]s; a [dict] whose iteration order
      is observed ([item_users], [sig_counts]) is an association list in
      insertion order.
    - Pass 2 is modelled by the lines [(signal, value, user)] that it
      writes to each bucket file; [main] turns them into the text of the
      file, and pass 3a reads that text back line by line with
      [strip().split("\t")].
    - [main] gives an [Outcome]: the files written, and whether the run
      returned or was ended by an exception. *)

From stdpp Require Import base tactics option list sorting gmap strings.
From Stdlib Require Import ZArith Lia Ascii.

#[local] Open Scope Z_scope.

(** ** Configuration: the module-level constants *)

Record Config := {
  WINDOW_SECS : Z;
  MIN_OCC : Z;
  MIN_ITEM_FREQ : Z;
  MAX_USERS_PER_ITEM : nat;
  MAX_EDGES_FOR_GRAPH : Z;
  MAX_BIP_EDGES : Z;
  (** the literal [2] of [len(signals_met) >= 2] *)
  MIN_SIGNAL_KINDS : nat;
  (** the literal [50] bounding [top_edges] *)
  TOP_EDGES_K : nat;
  (** [batch_size = 5000] of pass 3b *)
  batch_size : Z
}.

Definition default_config : Config := {|
  WINDOW_SECS := 3600;
  MIN_OCC := 2;
  MIN_ITEM_FREQ := 5;
  MAX_USERS_PER_ITEM := 200;
  MAX_EDGES_FOR_GRAPH := 2000000;
  MAX_BIP_EDGES := 3000000;
  MIN_SIGNAL_KINDS := 2;
  TOP_EDGES_K := 50;
  batch_size := 5000
|}.

(** ** Input records

    One JSON object per line of [comments.jsonl]; only the keys read by this
    script are kept.  [None] is an absent key or a JSON [null]. *)

Record Record_ := {
  published_at : option string;
  author_id : option string;
  urls : list string;
  domains : list string;
  hashtags : list string;
  mentions : list string;
  retweeted_tweet_id : option string;
  quoted_tweet_id : option string;
  conversation_id : option string;
  video_id : option string;
  in_reply_to_status_id_str : option string
}.

(** Python truthiness of an optional string: [None] and [""] are false. *)
Definition truthy (o : option string) : bool :=
  match o with
  | Some s => negb (String.eqb s "")
  | None => false
  end.

(** [x or y] on optional strings. *)
Definition py_or (x y : option string) : option string :=
  if truthy x then x else y.

Abbreviation Item := (string * string)%type.

(** A line [signal\tvalue\tuser] of a bucket file. *)
Abbreviation Line := (string * string * string)%type.

(** The four variables of the first loop over [item_users.items()]:
    [(top_item, top_item_users, top_signal, top_signal_users)]. *)
Abbreviation TopState := (option string * nat * option string * nat)%type.

Record BucketStats := {
  active_users : nat;
  num_coord_edges_created : nat;
  top_signal : string;
  top_item : string
}.

Record EdgeRow := {
  user_a : string;
  user_b : string;
  num_signals : nat;
  total_occurrences : Z;
  (** [",".join(sorted(signals_met))] *)
  signals : string;
  (** the dict given to [json.dumps] *)
  signal_counts : list (string * Z)
}.

#[global] Instance EdgeRow_inhabited : Inhabited EdgeRow :=
  populate {| user_a := ""; user_b := ""; num_signals := 0;
              total_occurrences := 0; signals := ""; signal_counts := [] |}.

(** A [top_edges] entry [(score, edge_seq, row)]. *)
Abbreviation HeapEntry := (Z * Z * EdgeRow)%type.

(** An edge of an undirected [nx.Graph] with its attributes,
    [(u, v, weight, signals)]. *)
Abbreviation GEdge := (string * string * Z * string)%type.

(** A row [(user_a, user_b, signal, cnt)] of [pair_signal]. *)
Abbreviation PairRow := (string * string * string * Z)%type.

Record Pass4Out := {
  rows_written : list EdgeRow;
  edges_written : Z;
  top_edges : list HeapEntry;
  edge_seq : Z;
  G : list GEdge
}.

Record Pass4State := {
  current : option (string * string);
  sig_counts : list (string * Z);
  total_occ : Z;
  out : Pass4Out
}.

Record ClusterRow := {
  cluster_id : nat;
  cluster_size : nat;
  (** [",".join(comp[:20])] *)
  users_sample : string;
  (** the pairs [(s, c)] that the cell renders as ["s:c"], comma-joined *)
  top_signals : list (string * Z)
}.

Record TopClusterRow := {
  tc_cluster_id : nat;
  tc_size : nat;
  tc_top_signals : list (string * Z);
  tc_top_users : string;
  tc_top_items : string
}.

Record TopEdgeRow := {
  te_user_a : string;
  te_user_b : string;
  te_signals : string;
  te_signal_counts : list (string * Z);
  te_total_occurrences : Z
}.

Record TimeWindowRow := {
  (** epoch seconds, which the cell renders with [isoformat()] *)
  bucket_start : Z;
  bucket_end : Z;
  tw_active_users : nat;
  tw_num_coord_edges_created : nat;
  tw_top_signal : string;
  tw_top_item : string
}.

(** The files of one run: [None] is a file that the run does not write,
    [Some rows] a file written with its header line and [rows]. *)
Record Outputs := {
  OUT_EDGES : option (list EdgeRow);
  OUT_CLUSTERS : option (list ClusterRow);
  OUT_GRAPH : option (list GEdge);
  OUT_BIP : option (list GEdge);
  OUT_TOP_CLUSTERS : option (list TopClusterRow);
  OUT_TOP_EDGES : option (list TopEdgeRow);
  OUT_TIME_WINDOWS : option (list TimeWindowRow)
}.

Definition no_outputs : Outputs :=
  {| OUT_EDGES := None; OUT_CLUSTERS := None; OUT_GRAPH := None;
     OUT_BIP := None; OUT_TOP_CLUSTERS := None; OUT_TOP_EDGES := None;
     OUT_TIME_WINDOWS := None |}.

(** How a run ends: [Returned] when [main] returns, [Raised] when an
    exception that nothing catches ends it; in both cases with the files
    written until then. *)
Inductive Outcome :=
  | Returned (res : Outputs)
  | Raised (res : Outputs).

Definition written (r : Outcome) : Outputs :=
  match r with
  | Returned res => res
  | Raised res => res
  end.

(** [TMP_DIR] as a run finds it: the text of the bucket files that an
    earlier run left, by bucket, and the tables of its store
    [coordination.db] when there is one. *)
Record TmpDir := {
  tmp_buckets : gmap Z string;
  tmp_store :
    option (gmap (string * string * string) Z * gmap (string * string) Z)
}.

(** ** [parse_ts] *)

(** [ts.replace("Z", "+00:00")] *)
Fixpoint replace_Z (s : string) : string :=
  match s with
  | EmptyString => EmptyString
  | String c s' =>
      if Ascii.eqb c "Z"%char then "+00:00" +:+ replace_Z s'
      else String c (replace_Z s')
  end.

Section Pipeline.

(** [datetime.fromisoformat(s)] followed by
    [int(dt.replace(tzinfo=timezone.utc).timestamp())]: the standard library's
    parser, [None] where it raises [ValueError]. *)
Variable fromisoformat_utc : string → option Z.

(** [nx.connected_components(G)], each component as [list(comp)]: networkx
    yields the components in the order in which the graph lists the first
    of their nodes, each as a set of [str]; [list] lists a set in the order
    of the hashes of its members, which Python draws anew for every
    process. *)
Variable connected_components :
  list (string * string * Z * string) → list (list string).

Variable cfg : Config.

Definition parse_ts (ts : option string) : option Z :=
  match ts with
  | None => None
  | Some s =>
      if String.eqb s "" then None
      else fromisoformat_utc (replace_Z s)
  end.

(** ** [add_items], [extract_items] *)

Definition add_items (items : list Item) (signal : string)
    (values : list string) : list Item :=
  foldl (λ items v, if String.eqb v "" then items else items ++ [(signal, v)])
        items values.

Definition add_opt (items : list Item) (signal : string)
    (o : option string) : list Item :=
  match o with
  | Some v => if truthy o then items ++ [(signal, v)] else items
  | None => items
  end.

Definition extract_items (r : Record_) : list Item :=
  let items := [] in
  let items := add_items items "A_URL" (urls r) in
  let items := add_items items "A_DOM" (domains r) in
  let items := add_items items "B_TAG" (hashtags r) in
  let items := add_items items "C_MENT" (mentions r) in
  let items := add_opt items "D_RETWEET" (retweeted_tweet_id r) in
  let items := add_opt items "D_QUOTE" (quoted_tweet_id r) in
  let items := add_opt items "E_CONV"
                 (py_or (conversation_id r) (video_id r)) in
  let items := add_opt items "E_REPLY" (in_reply_to_status_id_str r) in
  items.

(** ** [to_bip_item] *)

Definition to_bip_item (signal value : string) : option string :=
  if String.eqb value "" then None
  else if String.eqb signal "A_DOM" then Some ("DOM:" +:+ value)
  else if String.eqb signal "D_RETWEET" then Some ("RT:" +:+ value)
  else if String.eqb signal "E_CONV" then Some ("CONV:" +:+ value)
  else if String.eqb signal "C_MENT" then Some ("MENT:@" +:+ value)
  else if String.eqb signal "B_TAG" then Some ("TAG:#" +:+ value)
  else None.

(** ** Pass 1: global item counts and the keep-set *)

(** [counter[key] += n] on a [Counter] or a [defaultdict(int)], and the
    additive upsert of the two tables. *)
Definition counter_add `{Countable K} (k : K) (n : Z) (m : gmap K Z)
    : gmap K Z :=
  <[k := default 0 (m !! k) + n]> m.

Definition pass1_record (item_counts : gmap Item Z) (r : Record_)
    : gmap Item Z :=
  match parse_ts (published_at r) with
  | None => item_counts
  | Some _ =>
      foldl (λ c key, counter_add key 1 c) item_counts (extract_items r)
  end.

Definition pass1 (records : list Record_) : gmap Item Z :=
  foldl pass1_record ∅ records.

Definition kept_items_of (item_counts : gmap Item Z) : gset Item :=
  dom (filter (λ kc, MIN_ITEM_FREQ cfg ≤ kc.2) item_counts).

(** ** Pass 2: bucket files

    [TMP_DIR] is removed and recreated before the first record is read, so
    the bucket files start from the empty directory.  A file is keyed by the
    integer [bucket] of its name [bucket_<bucket>.tsv]. *)

Definition pass2_record (kept_items : gset Item)
    (files : gmap Z (list Line)) (r : Record_) : gmap Z (list Line) :=
  match parse_ts (published_at r) with
  | None => files
  | Some ts =>
      match author_id r with
      | None => files
      | Some user =>
          if negb (truthy (Some user)) then files
          else
            let bucket := ts `div` WINDOW_SECS cfg in
            let items := extract_items r in
            match items with
            | [] => files
            | _ =>
                (* [open(path, "a")] creates the file even when nothing is
                   written to it *)
                <[bucket := default [] (files !! bucket) ++
                    ((λ key : Item, (key.1, key.2, user)) <$>
                       filter (λ key, key ∈ kept_items) items)]> files
            end
      end
  end.

Definition pass2 (kept_items : gset Item) (records : list Record_)
    : gmap Z (list Line) :=
  foldl (pass2_record kept_items) ∅ records.

(** ** The bucket files as text

    Pass 2 writes each line as [f"{signal}\t{value}\t{user}\n"] and pass 3a
    reads a file back with [for line in fb] and
    [line.strip().split("\t")].  A [string] holds the UTF-8 bytes of a
    [str], so a character of [str.isspace] is one, two or three bytes. *)

Definition TAB : ascii := "009"%char.
Definition LF : ascii := "010"%char.
Definition CR : ascii := "013"%char.

(** The white space of one byte: U+0009 to U+000D and U+001C to U+0020. *)
Definition space1 (a : ascii) : bool :=
  let n := N_of_ascii a in
  ((9 <=? n) && (n <=? 13) || (28 <=? n) && (n <=? 32))%N.

(** The white space of two bytes: U+0085 and U+00A0. *)
Definition space2 (a b : ascii) : bool :=
  let n := N_of_ascii b in
  ((N_of_ascii a =? 194) && ((n =? 133) || (n =? 160)))%N.

(** The white space of three bytes: U+1680, U+2000 to U+200A, U+2028,
    U+2029, U+202F, U+205F and U+3000. *)
Definition space3 (a b c : ascii) : bool :=
  let x := N_of_ascii a in
  let y := N_of_ascii b in
  let z := N_of_ascii c in
  ((x =? 225) && (y =? 154) && (z =? 128) ||
   (x =? 226) && (y =? 128) &&
     ((128 <=? z) && (z <=? 138) || (z =? 168) || (z =? 169) ||
      (z =? 175)) ||
   (x =? 226) && (y =? 129) && (z =? 159) ||
   (x =? 227) && (y =? 128) && (z =? 128))%N.

(** [s.lstrip()] *)
Fixpoint lstrip (s : string) : string :=
  match s with
  | EmptyString => s
  | String a s1 =>
      if space1 a then lstrip s1
      else
        match s1 with
        | EmptyString => s
        | String b s2 =>
            if space2 a b then lstrip s2
            else
              match s2 with
              | EmptyString => s
              | String c s3 => if space3 a b c then lstrip s3 else s
              end
        end
  end.

(** Whether [s] holds nothing but white space. *)
Fixpoint all_space (s : string) : bool :=
  match s with
  | EmptyString => true
  | String a s1 =>
      if space1 a then all_space s1
      else
        match s1 with
        | EmptyString => false
        | String b s2 =>
            if space2 a b then all_space s2
            else
              match s2 with
              | EmptyString => false
              | String c s3 => space3 a b c && all_space s3
              end
        end
  end.

(** [s.rstrip()]: the bytes before the white space that ends [s]. *)
Fixpoint rstrip (s : string) : string :=
  match s with
  | EmptyString => s
  | String a s' => if all_space s then "" else String a (rstrip s')
  end.

(** [s.strip()] *)
Definition strip (s : string) : string := rstrip (lstrip s).

(** [s.split(sep)] for a separator of one character. *)
Fixpoint split_at (sep : ascii) (s : string) : list string :=
  match s with
  | EmptyString => [""]
  | String c s' =>
      if Ascii.eqb c sep then "" :: split_at sep s'
      else
        match split_at sep s' with
        | f :: fs => String c f :: fs
        | [] => [String c ""]
        end
  end.

(** [for line in fb] on a file opened for reading in text mode: a line ends
    at ["\n"], ["\r"] or ["\r\n"].  The line break itself is left out of the
    line here, since [strip] removes it. *)
Fixpoint readlines (s : string) : list string :=
  match s with
  | EmptyString => []
  | String c s' =>
      if Ascii.eqb c LF then "" :: readlines s'
      else if Ascii.eqb c CR then
        "" :: readlines
                (match s' with
                 | String c' s'' => if Ascii.eqb c' LF then s'' else s'
                 | EmptyString => s'
                 end)
      else
        match readlines s' with
        | l :: ls => String c l :: ls
        | [] => [String c ""]
        end
  end.

(** [fb.write(f"{signal}\t{value}\t{user}\n")] *)
Definition bucket_line (l : Line) : string :=
  l.1.1 +:+ String TAB (l.1.2 +:+ String TAB (l.2 +:+ String LF "")).

(** The text of a bucket file after the writes of [lines]. *)
Definition bucket_text (lines : list Line) : string :=
  foldr (λ l text, bucket_line l +:+ text) "" lines.

(** [signal, value, user = line.strip().split("\t")]: [None] is the
    [ValueError] of an unpacking that does not find three fields. *)
Definition parse_line (line : string) : option Line :=
  match split_at TAB (strip line) with
  | [signal; value; user] => Some (signal, value, user)
  | _ => None
  end.

(** The lines that pass 3a reads from one bucket file. *)
Definition read_bucket (text : string) : option (list Line) :=
  mapM parse_line (readlines text).

(** The lines read from every bucket file of [TMP_DIR]; [None] when the
    reading of one of them raises. *)
Definition read_buckets (dir : gmap Z string)
    : option (gmap Z (list Line)) :=
  if decide (map_Forall (λ _ text, is_Some (read_bucket text)) dir)
  then Some (omap read_bucket dir)
  else None.

(** [shutil.rmtree(TMP_DIR)] and [os.makedirs(TMP_DIR)]: the directory is
    there and empty, the store of an earlier run gone with it. *)
Definition rmtree_makedirs (tmp : TmpDir) : TmpDir :=
  {| tmp_buckets := ∅; tmp_store := None |}.

(** [open(path, "a")] and the writes of pass 2, on the directory [dir]: a
    file that is there keeps its text, and the lines go after it. *)
Definition append_buckets (dir : gmap Z string)
    (files : gmap Z (list Line)) : gmap Z string :=
  union_with (λ old new, Some (old +:+ new)) dir (bucket_text <$> files).

(** Whether pass 2 reaches [bucket = ts // WINDOW_SECS] for some record. *)
Definition pass2_divides (records : list Record_) : bool :=
  existsb (λ r, bool_decide (is_Some (parse_ts (published_at r))) &&
                truthy (author_id r)) records.

(** ** Pass 3a: per-bucket aggregation *)

(** [item_users[(signal, value)].add(user)] on the [defaultdict(set)]: a new
    key goes to the end, a known key keeps its place. *)
Fixpoint item_users_add (key : Item) (user : string)
    (iu : list (Item * gset string)) : list (Item * gset string) :=
  match iu with
  | [] => [(key, {[user]})]
  | (k, us) :: rest =>
      if decide (k = key) then (k, {[user]} ∪ us) :: rest
      else (k, us) :: item_users_add key user rest
  end.

Definition item_users_of (lines : list Line) : list (Item * gset string) :=
  foldl (λ iu (l : Line), item_users_add (l.1.1, l.1.2) l.2 iu) [] lines.

Definition bucket_users_of (lines : list Line) : gset string :=
  foldl (λ bu (l : Line), {[l.2]} ∪ bu) ∅ lines.

(** One iteration of the first loop over [item_users.items()]. *)
Definition top_step (st : TopState) (e : Item * gset string) : TopState :=
  let '(top_item, top_item_users, top_signal, top_signal_users) := st in
  let ucount := size e.2 in
  let '(top_item, top_item_users) :=
    if (top_item_users <? ucount)%nat
    then (Some (e.1.1 +:+ ":" +:+ e.1.2), ucount)
    else (top_item, top_item_users) in
  let '(top_signal, top_signal_users) :=
    if (top_signal_users <? ucount)%nat
    then (Some e.1.1, ucount)
    else (top_signal, top_signal_users) in
  (top_item, top_item_users, top_signal, top_signal_users).

Definition top_of (iu : list (Item * gset string)) : TopState :=
  foldl top_step (None, 0%nat, None, 0%nat) iu.

(** [sorted(users)] *)
Definition sorted (users : gset string) : list string :=
  merge_sort String.le (elements users).

(** The pairs of the double loop [for i in range(n): for j in range(i+1, n)]. *)
Definition index_pairs (users : list string) (signal : string)
    : list (string * string * string) :=
  let n := length users in
  i ← seq 0 n;
  j ← seq (i + 1) (n - (i + 1));
  [(users !!! i, users !!! j, signal)].

(** The keys [(a, b, signal)] that one entry of [item_users] increments in
    [bucket_counts], in the order of the increments. *)
Definition item_increments (e : Item * gset string)
    : list (string * string * string) :=
  if (size e.2 <? 2)%nat then []
  else if (MAX_USERS_PER_ITEM cfg <? size e.2)%nat then []
  else index_pairs (sorted e.2) e.1.1.

Definition bucket_counts_of (iu : list (Item * gset string))
    : gmap (string * string * string) Z :=
  foldl (λ bc k, counter_add k 1 bc) ∅ (iu ≫= item_increments).

(** [executemany] of the additive upsert. *)
Definition upsert_all `{Countable K} (db : gmap K Z) (rows : list (K * Z))
    : gmap K Z :=
  foldl (λ db (kc : K * Z), counter_add kc.1 kc.2 db) db rows.

Definition num_edges_created_of (iu : list (Item * gset string)) : nat :=
  foldl (λ acc (e : Item * gset string),
           let n := size e.2 in
           if (2 <=? n)%nat && (n <=? MAX_USERS_PER_ITEM cfg)%nat
           then (acc + (n * (n - 1)) `div` 2)%nat else acc)
        0%nat iu.

Definition bucket_stats_of (lines : list Line) : BucketStats :=
  let iu := item_users_of lines in
  let '(top_item, _, top_signal, _) := top_of iu in
  {| active_users := size (bucket_users_of lines);
     num_coord_edges_created := num_edges_created_of iu;
     top_signal := default "" top_signal;
     top_item := default "" top_item |}.

Definition pass3a_bucket
    (st : gmap (string * string * string) Z * gmap Z BucketStats)
    (f : Z * list Line)
    : gmap (string * string * string) Z * gmap Z BucketStats :=
  let bucket_counts := bucket_counts_of (item_users_of f.2) in
  (upsert_all st.1 (map_to_list bucket_counts),
   <[f.1 := bucket_stats_of f.2]> st.2).

(** [glob.glob] lists the bucket files in an order that the pipeline does
    not rely on; the model takes the order of [map_to_list]. *)
Definition pass3a (files : gmap Z (list Line))
    : gmap (string * string * string) Z * gmap Z BucketStats :=
  foldl pass3a_bucket (∅, ∅) (map_to_list files).

(** ** Pass 3b: user-item counts *)

(** The triples [(user, item_id, 1)] appended to [batch] for one record. *)
Definition pass3b_entries (kept_items : gset Item) (r : Record_)
    : list (string * string * Z) :=
  match parse_ts (published_at r) with
  | None => []
  | Some _ =>
      match author_id r with
      | None => []
      | Some user =>
          if negb (truthy (Some user)) then []
          else
            key ← extract_items r;
            if decide (key ∈ kept_items) then
              match to_bip_item key.1 key.2 with
              | Some item_id =>
                  if String.eqb item_id "" then [] else [(user, item_id, 1)]
              | None => []
              end
            else []
      end
  end.

(** [batch.append(...)] and the flush at [batch_size]. *)
Definition pass3b_append
    (st : list (string * string * Z) * gmap (string * string) Z)
    (e : string * string * Z)
    : list (string * string * Z) * gmap (string * string) Z :=
  let batch := st.1 ++ [e] in
  if batch_size cfg <=? Z.of_nat (length batch)
  then ([], upsert_all st.2 batch)
  else (batch, st.2).

Definition pass3b (kept_items : gset Item) (records : list Record_)
    : gmap (string * string) Z :=
  let st := foldl (λ st r, foldl pass3b_append st
                             (pass3b_entries kept_items r))
                  ([], ∅) records in
  match st.1 with
  | [] => st.2
  | _ => upsert_all st.2 st.1
  end.

(** ** Pass 4: reduction of [pair_signal] to edges *)

(** [sep.join(l)] *)
Fixpoint join (sep : string) (l : list string) : string :=
  match l with
  | [] => ""
  | [x] => x
  | x :: l' => x +:+ sep +:+ join sep l'
  end.

(** [d[k] = d.get(k, 0) + n] on an insertion-ordered dict. *)
Fixpoint dict_add (k : string) (n : Z) (d : list (string * Z))
    : list (string * Z) :=
  match d with
  | [] => [(k, n)]
  | (k', c) :: d' =>
      if decide (k' = k) then (k', c + n) :: d'
      else (k', c) :: dict_add k n d'
  end.

(** *** [heapq] on the entries [(score, edge_seq, row)]

    Tuples compare lexicographically; [edge_seq] differs between any two
    entries, so the rows themselves are never compared. *)

Definition entry_lt (x y : HeapEntry) : bool :=
  (x.1.1 <? y.1.1) || ((x.1.1 =? y.1.1) && (x.1.2 <? y.1.2)).

Fixpoint siftdown_loop (fuel : nat) (heap : list HeapEntry)
    (newitem : HeapEntry) (startpos pos : nat) : list HeapEntry * nat :=
  match fuel with
  | O => (heap, pos)
  | S fuel =>
      if (startpos <? pos)%nat then
        let parentpos := ((pos - 1) `div` 2)%nat in
        let parent := heap !!! parentpos in
        if entry_lt newitem parent
        then siftdown_loop fuel (<[pos := parent]> heap) newitem
                           startpos parentpos
        else (heap, pos)
      else (heap, pos)
  end.

Definition siftdown (heap : list HeapEntry) (startpos pos : nat)
    : list HeapEntry :=
  let newitem := heap !!! pos in
  let '(heap, pos) := siftdown_loop (S pos) heap newitem startpos pos in
  <[pos := newitem]> heap.

Fixpoint siftup_loop (fuel : nat) (heap : list HeapEntry) (endpos pos : nat)
    : list HeapEntry * nat :=
  match fuel with
  | O => (heap, pos)
  | S fuel =>
      let childpos := (2 * pos + 1)%nat in
      if (childpos <? endpos)%nat then
        let rightpos := (childpos + 1)%nat in
        let childpos :=
          if (rightpos <? endpos)%nat &&
             negb (entry_lt (heap !!! childpos) (heap !!! rightpos))
          then rightpos else childpos in
        siftup_loop fuel (<[pos := heap !!! childpos]> heap) endpos childpos
      else (heap, pos)
  end.

Definition siftup (heap : list HeapEntry) (pos : nat) : list HeapEntry :=
  let endpos := length heap in
  let startpos := pos in
  let newitem := heap !!! pos in
  let '(heap, pos) := siftup_loop endpos heap endpos pos in
  siftdown (<[pos := newitem]> heap) startpos pos.

Definition heappush (heap : list HeapEntry) (item : HeapEntry)
    : list HeapEntry :=
  let heap := heap ++ [item] in
  siftdown heap 0 (length heap - 1).

(** The heap after [heappushpop(heap, item)]; the popped entry is unused. *)
Definition heappushpop (heap : list HeapEntry) (item : HeapEntry)
    : list HeapEntry :=
  match heap with
  | [] => heap
  | top :: _ =>
      if entry_lt top item then siftup (<[0%nat := item]> heap) 0 else heap
  end.

(** *** The graph [G]

    An edge of the undirected [nx.Graph] with its two attributes,
    [(u, v, weight, signals)], in the order of the first [add_edge]. *)

Definition same_edge (u v : string) (e : GEdge) : bool :=
  bool_decide ((e.1.1.1 = u ∧ e.1.1.2 = v) ∨ (e.1.1.1 = v ∧ e.1.1.2 = u)).

Fixpoint add_edge (g : list GEdge) (u v : string) (weight : Z)
    (sigs : string) : list GEdge :=
  match g with
  | [] => [(u, v, weight, sigs)]
  | e :: g' =>
      if same_edge u v e then (e.1.1.1, e.1.1.2, weight, sigs) :: g'
      else e :: add_edge g' u v weight sigs
  end.

Definition add_node (nodes : list string) (u : string) : list string :=
  if decide (u ∈ nodes) then nodes else nodes ++ [u].

Definition nodes_of (g : list GEdge) : list string :=
  foldl (λ ns (e : GEdge), add_node (add_node ns e.1.1.1) e.1.1.2) [] g.

Definition number_of_nodes (g : list GEdge) : nat := length (nodes_of g).

(** *** The streaming loop *)

Definition signals_met_of (sig_counts : list (string * Z)) : list string :=
  (filter (λ sc : string * Z, MIN_OCC cfg ≤ sc.2) sig_counts).*1.

(** The body of [if len(signals_met) >= 2:], for the pair [cur]. *)
Definition write_edge (cur : string * string) (signals_met : list string)
    (sig_counts : list (string * Z)) (total_occ : Z) (o : Pass4Out)
    : Pass4Out :=
  let row := {| user_a := cur.1; user_b := cur.2;
                num_signals := length signals_met;
                total_occurrences := total_occ;
                signals := join "," (merge_sort String.le signals_met);
                signal_counts := sig_counts |} in
  let edges_written := edges_written o + 1 in
  let score := total_occ in
  let edge_seq := edge_seq o + 1 in
  let entry := (score, edge_seq, row) in
  let top_edges :=
    if (length (top_edges o) <? TOP_EDGES_K cfg)%nat
    then heappush (top_edges o) entry
    else heappushpop (top_edges o) entry in
  {| rows_written := rows_written o ++ [row];
     edges_written := edges_written;
     top_edges := top_edges;
     edge_seq := edge_seq;
     G := if edges_written <=? MAX_EDGES_FOR_GRAPH cfg
          then add_edge (G o) cur.1 cur.2 total_occ
                        (join "," (merge_sort String.le signals_met))
          else G o |}.

(** The significance test, written twice in the source: on a key change and
    after the loop. *)
Definition decide_edge (cur : string * string)
    (sig_counts : list (string * Z)) (total_occ : Z) (o : Pass4Out)
    : Pass4Out :=
  let signals_met := signals_met_of sig_counts in
  if (MIN_SIGNAL_KINDS cfg <=? length signals_met)%nat
  then write_edge cur signals_met sig_counts total_occ o
  else o.

Definition pass4_row (st : Pass4State) (r : PairRow) : Pass4State :=
  let '(user_a, user_b, signal, cnt) := r in
  let key := (user_a, user_b) in
  let cur := default key (current st) in
  let st :=
    if decide (key ≠ cur)
    then {| current := Some key; sig_counts := []; total_occ := 0;
            out := decide_edge cur (sig_counts st) (total_occ st) (out st) |}
    else {| current := Some cur; sig_counts := sig_counts st;
            total_occ := total_occ st; out := out st |} in
  {| current := current st;
     sig_counts := dict_add signal cnt (sig_counts st);
     total_occ := total_occ st + cnt;
     out := out st |}.

Definition pass4_init : Pass4State :=
  {| current := None; sig_counts := []; total_occ := 0;
     out := {| rows_written := []; edges_written := 0; top_edges := [];
               edge_seq := 0; G := [] |} |}.

Definition pass4 (rows : list PairRow) : Pass4Out :=
  let st := foldl pass4_row pass4_init rows in
  match current st with
  | None => out st
  | Some cur => decide_edge cur (sig_counts st) (total_occ st) (out st)
  end.

(** [SELECT user_a, user_b, signal, cnt FROM pair_signal
     ORDER BY user_a, user_b]. *)
Definition pair_le (p q : string * string) : Prop :=
  String.le p.1 q.1 ∧ (p.1 = q.1 → String.le p.2 q.2).

Definition row_key (r : PairRow) : string * string := (r.1.1.1, r.1.1.2).

Definition row_le (r1 r2 : PairRow) : Prop :=
  pair_le (row_key r1) (row_key r2).

#[global] Instance pair_le_dec p q : Decision (pair_le p q).
Proof. unfold pair_le. apply _. Defined.

#[global] Instance row_le_dec r1 r2 : Decision (row_le r1 r2).
Proof. unfold row_le. apply _. Defined.

(** SQL leaves the order of the rows of one pair open; the model takes the
    one of the merge sort of the table's rows. *)
Definition select_pair_signal (db : gmap (string * string * string) Z)
    : list PairRow :=
  merge_sort row_le (map_to_list db).

(** ** Clusters *)

(** [sorted(l, key=key, reverse=True)]: descending, equal keys in their
    original order. *)
Fixpoint insert_desc {A} (key : A → Z) (x : A) (l : list A) : list A :=
  match l with
  | [] => [x]
  | y :: l' =>
      if key y <? key x then x :: y :: l' else y :: insert_desc key x l'
  end.

Definition sorted_desc {A} (key : A → Z) (l : list A) : list A :=
  foldl (λ acc x, insert_desc key x acc) [] l.

(** [Counter.most_common(n)] *)
Definition most_common (n : nat) (c : list (string * Z))
    : list (string * Z) :=
  take n (sorted_desc snd c).

(** [s.split(",")] *)
Fixpoint split_go (cur : string) (s : string) : list string :=
  match s with
  | EmptyString => [String.rev cur]
  | String c s' =>
      if Ascii.eqb c ","%char then String.rev cur :: split_go "" s'
      else split_go (String c cur) s'
  end.

Definition split_comma (s : string) : list string := split_go "" s.

(** The edges at [u], as [(v, weight, signals)] for [v in G.neighbors(u)]. *)
Definition neighbors (g : list GEdge) (u : string)
    : list (string * Z * string) :=
  e ← g;
  if decide (e.1.1.1 = u) then [(e.1.1.2, e.1.2, e.2)]
  else if decide (e.1.1.2 = u) then [(e.1.1.1, e.1.2, e.2)]
  else [].

Definition cluster_sig_counter (g : list GEdge) (comp : list string)
    : list (string * Z) :=
  foldl (λ c s, dict_add s 1 c) []
    (u ← comp;
     n ← neighbors g u;
     filter (λ s, s ≠ "") (split_comma n.2)).

Definition cluster_of (g : list GEdge) (ic : nat * list string)
    : ClusterRow :=
  {| cluster_id := ic.1;
     cluster_size := length ic.2;
     users_sample := join "," (take 20 ic.2);
     top_signals := most_common 5 (cluster_sig_counter g ic.2) |}.

(** [enumerate(l)] *)
Definition enumerate {A} (l : list A) : list (nat * A) := imap pair l.

Definition clusters_of (o : Pass4Out) : list ClusterRow :=
  if (0 <? number_of_nodes (G o))%nat &&
     (edges_written o <=? MAX_EDGES_FOR_GRAPH cfg)
  then sorted_desc (λ c, Z.of_nat (cluster_size c))
         (cluster_of (G o) <$> enumerate (connected_components (G o)))
  else [].

(** ** Pass 5: the bipartite graph [B] *)

Definition select_user_item (db : gmap (string * string) Z)
    : list (string * string * Z) :=
  if MAX_BIP_EDGES cfg <? Z.of_nat (size db)
  then
    (* [LIMIT ?]: SQLite reads a negative limit as no limit *)
    if MAX_BIP_EDGES cfg <? 0 then sorted_desc snd (map_to_list db)
    else take (Z.to_nat (MAX_BIP_EDGES cfg))
              (sorted_desc snd (map_to_list db))
  else map_to_list db.

Definition bipartite_of (db : gmap (string * string) Z) : list GEdge :=
  foldl (λ b (r : string * string * Z), add_edge b r.1.1 r.1.2 r.2 "")
        [] (select_user_item db).

(** ** Reports *)

(** [str(item).startswith(p)] *)
Fixpoint startswith (p s : string) : bool :=
  match p, s with
  | EmptyString, _ => true
  | String a p', String b s' => Ascii.eqb a b && startswith p' s'
  | String _ _, EmptyString => false
  end.

Definition is_bip_item (item : string) : bool :=
  startswith "DOM:" item || startswith "RT:" item ||
  startswith "CONV:" item || startswith "MENT:@" item ||
  startswith "TAG:#" item.

(** [G.degree(weight="weight")] at [u]; a self-loop counts twice. *)
Definition degree (g : list GEdge) (u : string) : Z :=
  foldl (λ d (e : GEdge),
           d + (if decide (e.1.1.1 = u) then e.1.2 else 0)
             + (if decide (e.1.1.2 = u) then e.1.2 else 0))
        0 g.

Definition top_cluster_of (g b : list GEdge) (clusters : list ClusterRow)
    (ic : nat * list string) : TopClusterRow :=
  let comp := ic.2 in
  let item_counts :=
    foldl (λ c (n : string * Z * string), dict_add n.1.1 n.1.2 c) []
      (u ← comp;
       filter (λ n : string * Z * string, is_bip_item n.1.1)
              (if decide (u ∈ nodes_of b) then neighbors b u else [])) in
  {| tc_cluster_id := ic.1;
     tc_size := length comp;
     (* [cluster_signals.get(idx, "")]: the last cluster with that id *)
     tc_top_signals :=
       default [] (top_signals <$>
                     last (filter (λ c, cluster_id c = ic.1) clusters));
     tc_top_users := join "," (take 10 (sorted_desc (degree g) comp));
     tc_top_items := join "," ((most_common 10 item_counts).*1) |}.

Definition top_edge_of (e : HeapEntry) : TopEdgeRow :=
  let row := e.2 in
  {| te_user_a := user_a row; te_user_b := user_b row;
     te_signals := signals row; te_signal_counts := signal_counts row;
     te_total_occurrences := total_occurrences row |}.

(** [datetime.fromtimestamp(ts, tz=timezone.utc)] for an [int]: the
    datetime, kept as its epoch seconds, from 0001-01-01T00:00:00 to
    9999-12-31T23:59:59; [None] where it raises ([ValueError] for a year out
    of range, [OverflowError] or [OSError] further out). *)
Definition MIN_TIMESTAMP : Z := -62135596800.
Definition MAX_TIMESTAMP : Z := 253402300799.

Definition fromtimestamp_utc (ts : Z) : option Z :=
  if (MIN_TIMESTAMP <=? ts) && (ts <=? MAX_TIMESTAMP) then Some ts
  else None.

(** The row of one bucket; [None] when one of the two [fromtimestamp]
    raises. *)
Definition time_window_of (bs : Z * BucketStats) : option TimeWindowRow :=
  let start_ts := bs.1 * WINDOW_SECS cfg in
  let end_ts := start_ts + WINDOW_SECS cfg in
  match fromtimestamp_utc start_ts, fromtimestamp_utc end_ts with
  | Some bucket_start, Some bucket_end =>
      Some {| bucket_start := bucket_start; bucket_end := bucket_end;
              tw_active_users := active_users bs.2;
              tw_num_coord_edges_created := num_coord_edges_created bs.2;
              tw_top_signal := top_signal bs.2;
              tw_top_item := top_item bs.2 |}
  | _, _ => None
  end.

(** A loop of [writer.writerow(f(x))]: the rows written, and whether the
    loop came to its end; it stops at the first [x] where [f] raises. *)
Fixpoint write_rows {A B} (f : A → option B) (l : list A)
    : list B * bool :=
  match l with
  | [] => ([], true)
  | x :: l' =>
      match f x with
      | None => ([], false)
      | Some row => let r := write_rows f l' in (row :: r.1, r.2)
      end
  end.

(** ** [main] *)

(** The files written from pass 4 on.  The time-window report comes last:
    when a row of it raises, the file holds the rows before that one. *)
Definition reports (o : Pass4Out) (user_item : gmap (string * string) Z)
    (bucket_stats : gmap Z BucketStats) : Outcome :=
  let clusters := clusters_of o in
  let b := bipartite_of user_item in
  let time_windows :=
    write_rows
      (λ k, time_window_of (k, default
              {| active_users := 0; num_coord_edges_created := 0;
                 top_signal := ""; top_item := "" |}
              (bucket_stats !! k)))
      (merge_sort Z.le (map_to_list bucket_stats).*1) in
  let res :=
    {| OUT_EDGES := Some (rows_written o);
       OUT_CLUSTERS := Some clusters;
       OUT_GRAPH :=
         if (0 <? number_of_nodes (G o))%nat &&
            (edges_written o <=? MAX_EDGES_FOR_GRAPH cfg)
         then Some (G o) else None;
       OUT_BIP := if (0 <? number_of_nodes b)%nat then Some b else None;
       OUT_TOP_CLUSTERS :=
         if (0 <? number_of_nodes (G o))%nat
         then Some (sorted_desc (λ r, Z.of_nat (tc_size r))
                      (top_cluster_of (G o) b clusters <$>
                         enumerate (connected_components (G o))))
         else None;
       OUT_TOP_EDGES :=
         Some (top_edge_of <$> sorted_desc (λ e : HeapEntry, e.1.1)
                                 (top_edges o));
       OUT_TIME_WINDOWS := Some time_windows.1 |} in
  if time_windows.2 then Returned res else Raised res.

(** A run that finds [TMP_DIR] as [tmp].  Before pass 4 no output file is
    opened, so a run that raises there has written none. *)
Definition main (tmp : TmpDir) (records : list Record_) : Outcome :=
  let kept_items := kept_items_of (pass1 records) in
  let tmp := rmtree_makedirs tmp in
  if bool_decide (WINDOW_SECS cfg = 0) && pass2_divides records
  then Raised no_outputs (* [ZeroDivisionError] in pass 2 *)
  else
    let dir :=
      append_buckets (tmp_buckets tmp) (pass2 kept_items records) in
    match read_buckets dir with
    | None => Raised no_outputs (* [ValueError] in pass 3a *)
    | Some files =>
        let '(pair_signal, bucket_stats) := pass3a files in
        let user_item := pass3b kept_items records in
        let o := pass4 (select_pair_signal pair_signal) in
        reports o user_item bucket_stats
    end.

End Pipeline.

(** * Vocabulary of the properties *)

Definition count_of `{Countable K} (m : gmap K Z) (k : K) : Z :=
  default 0 (m !! k).

(** [l.count(k)] *)
Definition occurrences `{EqDecision K} (k : K) (l : list K) : Z :=
  Z.of_nat (length (filter (λ x, x = k) l)).

Definition sum_Z {A} (f : A → Z) (l : list A) : Z :=
  foldr (λ x acc, f x + acc) 0 l.

(** The events of the input: the records with a parseable timestamp and a
    user identifier. *)
Definition is_event (fromisoformat_utc : string → option Z) (r : Record_)
    : bool :=
  bool_decide (is_Some (parse_ts fromisoformat_utc (published_at r))) &&
  truthy (author_id r).

(** What one record adds to the count of [key] in pass 1. *)
Definition pass1_weight (fromisoformat_utc : string → option Z)
    (key : Item) (r : Record_) : Z :=
  match parse_ts fromisoformat_utc (published_at r) with
  | None => 0
  | Some _ => occurrences key (extract_items r)
  end.

(** ** Sample inputs

    A parser table standing for [datetime.fromisoformat] on the three
    timestamps of the samples, a component function for graphs with one
    component, and records with the keys that the samples set. *)

Definition sample_fromisoformat (s : string) : option Z :=
  if String.eqb s "1970-01-01T00:00:00+00:00" then Some 0
  else if String.eqb s "1970-01-01T01:00:00+00:00" then Some 3600
  else if String.eqb s "9999-12-31T23:30:00+00:00" then Some 253402299000
  else None.

(** [TMP_DIR] before a first run, and as a run may find it after another:
    a bucket file with a line of that run, and its store. *)
Definition empty_tmp : TmpDir := {| tmp_buckets := ∅; tmp_store := None |}.

Definition leftover_tmp : TmpDir :=
  {| tmp_buckets :=
       {[0 := bucket_text [("A_DOM", "old.example", "Z")]]};
     tmp_store := Some ({[("Y", "Z", "A_DOM") := 7]}, ∅) |}.

Definition sample_components (g : list GEdge) : list (list string) :=
  match nodes_of g with
  | [] => []
  | ns => [ns]
  end.

Definition sample_record (ts user : option string)
    (doms tags : list string) : Record_ :=
  {| published_at := ts; author_id := user; urls := [];
     domains := doms; hashtags := tags; mentions := [];
     retweeted_tweet_id := None; quoted_tweet_id := None;
     conversation_id := None; video_id := None;
     in_reply_to_status_id_str := None |}.

Definition t0 : option string := Some "1970-01-01T00:00:00Z".

(** One event that lists the hashtag [x] twice. *)
Definition repeated_tag : list Record_ :=
  [sample_record t0 (Some "u1") [] ["x"; "x"]].

(** A record with a timestamp and a hashtag but no [author_id]. *)
Definition userless : Record_ := sample_record t0 None [] ["x"].

(** Four posts of the hashtag [x] by two users. *)
Definition four_posts : list Record_ :=
  [sample_record t0 (Some "u1") [] ["x"];
   sample_record t0 (Some "u2") [] ["x"];
   sample_record t0 (Some "u1") [] ["x"];
   sample_record t0 (Some "u2") [] ["x"]].

(** The reading of the frequency count as a number of events: the events
    that contain [key], each counted once. *)
Definition events_containing (fromisoformat_utc : string → option Z)
    (key : Item) (records : list Record_) : Z :=
  Z.of_nat (length (filter (λ r, key ∈ extract_items r)
                      (filter (λ r, is_event fromisoformat_utc r) records))).

Definition counts_events_once (fromisoformat_utc : string → option Z)
    (records : list Record_) : Prop :=
  ∀ key, count_of (pass1 fromisoformat_utc records) key =
         events_containing fromisoformat_utc key records.

(** The five signal kinds that [to_bip_item] maps to an item id. *)
Definition bip_signals : list string :=
  ["A_DOM"; "D_RETWEET"; "E_CONV"; "C_MENT"; "B_TAG"].

(** ** Buckets *)

(** The distinct users of an item in a bucket file. *)
Definition users_of (lines : list Line) (key : Item) : gset string :=
  list_to_set (filter (λ l : Line, (l.1.1, l.1.2) = key) lines).*2.

(** The distinct users of a signal kind in a bucket file: the union of the
    user sets of all its items. *)
Definition signal_users (lines : list Line) (signal : string)
    : gset string :=
  list_to_set (filter (λ l : Line, l.1.1 = signal) lines).*2.

(** The value of a key of the [item_users] dict. *)
Fixpoint iu_get (key : Item) (iu : list (Item * gset string))
    : option (gset string) :=
  match iu with
  | [] => None
  | (k, us) :: rest => if decide (k = key) then Some us else iu_get key rest
  end.

(** The pairs of a list, each element with the later ones. *)
Fixpoint pairs_from (l : list string) (signal : string)
    : list (string * string * string) :=
  match l with
  | [] => []
  | a :: t => ((λ b, (a, b, signal)) <$> t) ++ pairs_from t signal
  end.

(** [f"{signal}:{value}"] *)
Definition item_label (e : Item * gset string) : string :=
  e.1.1 +:+ ":" +:+ e.1.2.

(** [e] is the first entry of [iu] with the greatest number of users. *)
Definition first_widest (iu : list (Item * gset string))
    (e : Item * gset string) : Prop :=
  ∃ pre post,
    iu = pre ++ e :: post ∧
    Forall (λ x, (size x.2 < size e.2)%nat) pre ∧
    Forall (λ x, (size x.2 ≤ size e.2)%nat) post.

(** The reading of [top_signal] as the kind with the most distinct users
    over all its items. *)
Definition top_signal_is_widest_kind (cfg : Config) (lines : list Line)
    : Prop :=
  ∀ signal,
    (size (signal_users lines signal) ≤
     size (signal_users lines (top_signal (bucket_stats_of cfg lines))))%nat.

(** A hashtag of three users, and two domains of two users each that cover
    four users together. *)
Definition split_domains : list Line :=
  [("B_TAG", "x", "a"); ("B_TAG", "x", "b"); ("B_TAG", "x", "c");
   ("A_DOM", "d1", "a"); ("A_DOM", "d1", "b");
   ("A_DOM", "d2", "c"); ("A_DOM", "d2", "d")].

Fixpoint tally (n : nat) : string :=
  match n with
  | O => ""
  | S n => String "i" (tally n)
  end.

(** A hashtag posted by [n] users [u], [ui], [uii], ..., after a domain of
    two of them. *)
Definition viral (n : nat) : list Line :=
  [("A_DOM", "example.com", "u"); ("A_DOM", "example.com", "ui")] ++
  ((λ i, ("B_TAG", "viral", "u" +:+ tally i)) <$> seq 0 n).

(** Three users post a domain in one window, and two of them a hashtag. *)
Definition one_window : list Line :=
  [("A_DOM", "example.com", "A"); ("B_TAG", "x", "A");
   ("A_DOM", "example.com", "B"); ("B_TAG", "x", "B");
   ("A_DOM", "example.com", "C")].

(** ** The reduction *)

Definition edge_key (e : EdgeRow) : string * string := (user_a e, user_b e).

(** The rows of [pair_signal] of one user pair. *)
Definition rows_of_pair (p : string * string) (rows : list PairRow)
    : list PairRow :=
  filter (λ r, row_key r = p) rows.

(** The sum of the counts of all signal kinds of a pair. *)
Definition pair_total (rows : list PairRow) (p : string * string) : Z :=
  sum_Z snd (rows_of_pair p rows).

(** The accumulated count of one signal kind of a pair. *)
Definition kind_count (g : list PairRow) (s : string) : Z :=
  sum_Z snd (filter (λ r : PairRow, r.1.2 = s) g).

Definition kinds_seen (g : list PairRow) : list string :=
  (λ r : PairRow, r.1.2) <$> g.

(** The distinct signal kinds of a pair whose accumulated count reaches
    [MIN_OCC]. *)
Definition met_kinds (cfg : Config) (rows : list PairRow)
    (p : string * string) : gset string :=
  list_to_set
    (filter (λ s, MIN_OCC cfg ≤ kind_count (rows_of_pair p rows) s)
            (kinds_seen (rows_of_pair p rows))).

Fixpoint dict_get (k : string) (d : list (string * Z)) : option Z :=
  match d with
  | [] => None
  | (k', c) :: d' => if decide (k' = k) then Some c else dict_get k d'
  end.

(** [sig_counts] after the rows [g] of one pair. *)
Definition group_dict (g : list PairRow) : list (string * Z) :=
  foldl (λ d (r : PairRow), dict_add r.1.2 r.2 d) [] g.

(** The key of the last row read. *)
Definition last_key (rows : list PairRow) : option (string * string) :=
  row_key <$> last rows.

(** A scan of four rows: the pair [(A, B)] has two kinds at or above
    [MIN_OCC = 2] and a third kind below it. *)
Definition sample_scan : list PairRow :=
  [("A", "B", "A_DOM", 2); ("A", "B", "B_TAG", 3); ("A", "B", "C_MENT", 1);
   ("A", "C", "A_DOM", 5)].

(** What holds of the state of the loop of pass 4 after the rows [rows] of
    a sorted scan. *)
Definition pass4_inv (cfg : Config) (rows : list PairRow) (st : Pass4State)
    : Prop :=
  current st = last_key rows ∧
  (∀ k, last_key rows = Some k →
        sig_counts st = group_dict (rows_of_pair k rows) ∧
        total_occ st = pair_total rows k ∧
        ∀ e, e ∈ rows_written (out st) → edge_key e ≠ k) ∧
  (last_key rows = None →
   sig_counts st = [] ∧ total_occ st = 0 ∧ rows_written (out st) = []) ∧
  NoDup (edge_key <$> rows_written (out st)) ∧
  (∀ e, e ∈ rows_written (out st) →
        edge_key e ∈ row_key <$> rows ∧
        total_occurrences e = pair_total rows (edge_key e) ∧
        num_signals e = size (met_kinds cfg rows (edge_key e)) ∧
        (MIN_SIGNAL_KINDS cfg ≤ num_signals e)%nat) ∧
  (∀ p, p ∈ row_key <$> rows → Some p ≠ last_key rows →
        (MIN_SIGNAL_KINDS cfg ≤ size (met_kinds cfg rows p))%nat →
        ∃ e, e ∈ rows_written (out st) ∧ edge_key e = p).

(** The thresholds of [default_config] raised to three occurrences and
    three signal kinds. *)
Definition strict_config : Config :=
  {| WINDOW_SECS := 3600; MIN_OCC := 3; MIN_ITEM_FREQ := 5;
     MAX_USERS_PER_ITEM := 200; MAX_EDGES_FOR_GRAPH := 2000000;
     MAX_BIP_EDGES := 3000000; MIN_SIGNAL_KINDS := 3; TOP_EDGES_K := 50;
     batch_size := 5000 |}.

(** [default_config] with a minimum of one occurrence per signal and no
    frequency filter. *)
Definition lenient_config : Config :=
  {| WINDOW_SECS := 3600; MIN_OCC := 1; MIN_ITEM_FREQ := 1;
     MAX_USERS_PER_ITEM := 200; MAX_EDGES_FOR_GRAPH := 2000000;
     MAX_BIP_EDGES := 3000000; MIN_SIGNAL_KINDS := 2; TOP_EDGES_K := 50;
     batch_size := 5000 |}.

(** Three users post the same domain in one window, and two of them the
    same hashtag. *)
Definition three_users : list Record_ :=
  [sample_record t0 (Some "A") ["example.com"] ["x"];
   sample_record t0 (Some "B") ["example.com"] ["x"];
   sample_record t0 (Some "C") ["example.com"] []].

(** Two users share a domain in one window and a hashtag in the next. *)
Definition two_windows : list Record_ :=
  [sample_record t0 (Some "A") ["example.com"] [];
   sample_record t0 (Some "B") ["example.com"] [];
   sample_record (Some "1970-01-01T01:00:00Z") (Some "A") [] ["x"];
   sample_record (Some "1970-01-01T01:00:00Z") (Some "B") [] ["x"]].

(** ** Reports *)

(** The five report files are written and hold no data row. *)
Definition all_reports_empty (res : Outputs) : Prop :=
  OUT_EDGES res = Some [] ∧ OUT_CLUSTERS res = Some [] ∧
  OUT_TOP_EDGES res = Some [] ∧ OUT_TOP_CLUSTERS res = Some [] ∧
  OUT_TIME_WINDOWS res = Some [].

(** The reading of the empty outcomes as runs that return and write all
    five reports without rows. *)
Definition empty_outcome_writes_empty_reports
    (fromisoformat_utc : string → option Z)
    (connected_components : list GEdge → list (list string))
    (cfg : Config) (tmp : TmpDir) (records : list Record_) : Prop :=
  let run := main fromisoformat_utc connected_components cfg tmp records in
  kept_items_of cfg (pass1 fromisoformat_utc records) = ∅ ∨
  OUT_EDGES (written run) = Some [] ∨
  OUT_CLUSTERS (written run) = Some [] →
  ∃ res, run = Returned res ∧ all_reports_empty res.

(** The bucket of the last hour of the year 9999, for a window of an
    hour. *)
Definition last_bucket : Z := 70389527.

(** One post of the hashtag [x] in the last hour of the year 9999. *)
Definition last_hour : list Record_ :=
  [sample_record (Some "9999-12-31T23:30:00Z") (Some "u1") [] ["x"]].

(** Two users post a hashtag that holds a tab. *)
Definition tab_in_tag : list Record_ :=
  [sample_record t0 (Some "u1") [] [String "a" (String TAB "b")];
   sample_record t0 (Some "u2") [] [String "a" (String TAB "b")]].

(** ** Bucket files as text *)

(** [c not in s] *)
Fixpoint free_of (c : ascii) (s : string) : bool :=
  match s with
  | EmptyString => true
  | String a s' => negb (Ascii.eqb a c) && free_of c s'
  end.

(** A field without tab or line break. *)
Definition field_ok (s : string) : Prop :=
  free_of TAB s = true ∧ free_of LF s = true ∧ free_of CR s = true.

(** A line whose value and user hold no tab or line break, and whose user
    does not end in white space. *)
Definition clean_line (l : Line) : Prop :=
  field_ok l.1.2 ∧ field_ok l.2 ∧ rstrip l.2 = l.2.

Definition clean_files (files : gmap Z (list Line)) : Prop :=
  map_Forall (λ _ lines, Forall clean_line lines) files.

(** Both ends of the window of the bucket [b] are timestamps that
    [datetime] has: they lie in the years 1 to 9999. *)
Definition window_in_range (cfg : Config) (b : Z) : Prop :=
  MIN_TIMESTAMP ≤ b * WINDOW_SECS cfg ≤ MAX_TIMESTAMP ∧
  MIN_TIMESTAMP ≤ b * WINDOW_SECS cfg + WINDOW_SECS cfg ≤ MAX_TIMESTAMP.

(** The row of the time-window report for a bucket whose window is in
    range. *)
Definition window_row (cfg : Config) (bs : Z * BucketStats)
    : TimeWindowRow :=
  {| bucket_start := bs.1 * WINDOW_SECS cfg;
     bucket_end := bs.1 * WINDOW_SECS cfg + WINDOW_SECS cfg;
     tw_active_users := active_users bs.2;
     tw_num_coord_edges_created := num_coord_edges_created bs.2;
     tw_top_signal := top_signal bs.2;
     tw_top_item := top_item bs.2 |}.

(** ** Two runs on the same input

    [list(comp)] lists the members of a component, a set of [str], in the
    order of their hashes, which Python draws anew for every process: two
    runs see the same components in the same order, each with its members
    in an order of its own. *)
Definition same_components
    (cc1 cc2 : list GEdge → list (list string)) : Prop :=
  ∀ g, Forall2 (≡ₚ) (cc1 g) (cc2 g).

(** The reading of idempotence: two such runs write the same files. *)
Definition runs_are_identical (fromisoformat_utc : string → option Z)
    (cfg : Config) (records : list Record_) : Prop :=
  ∀ cc1 cc2 tmp1 tmp2, same_components cc1 cc2 →
    main fromisoformat_utc cc1 cfg tmp1 records =
    main fromisoformat_utc cc2 cfg tmp2 records.

(** Whether the run returned. *)
Definition returned (r : Outcome) : bool :=
  match r with
  | Returned _ => true
  | Raised _ => false
  end.

(** The component function of the samples with the members of each
    component listed backwards. *)
Definition sample_components_rev (g : list GEdge) : list (list string) :=
  reverse <$> sample_components g.

(** The cells of the cluster table and of the top-clusters report that do
    not follow the order of the members. *)
Definition cluster_shape (c : ClusterRow) : nat * nat :=
  (cluster_id c, cluster_size c).

Definition top_cluster_shape (c : TopClusterRow) : nat * nat :=
  (tc_cluster_id c, tc_size c).

Definition cluster_shapes (res : Outputs) : option (list (nat * nat)) :=
  match OUT_CLUSTERS res with
  | Some rows => Some (cluster_shape <$> rows)
  | None => None
  end.

Definition top_cluster_shapes (res : Outputs)
    : option (list (nat * nat)) :=
  match OUT_TOP_CLUSTERS res with
  | Some rows => Some (top_cluster_shape <$> rows)
  | None => None
  end.

(** ** Items *)

(** The eight signal kinds of [extract_items]. *)
Definition signal_kinds : list string :=
  ["A_URL"; "A_DOM"; "B_TAG"; "C_MENT";
   "D_RETWEET"; "D_QUOTE"; "E_CONV"; "E_REPLY"].

(** The truthy value of an optional string. *)
Definition truthy_value (o : option string) (v : string) : Prop :=
  o = Some v ∧ v ≠ "".

(** ** Bucket lines *)

(** The record [r] is an event of the bucket [b] that writes [line]. *)
Definition writes_line (fromisoformat_utc : string → option Z)
    (cfg : Config) (kept_items : gset Item)
    (r : Record_) (b : Z) (line : Line) : Prop :=
  ∃ ts, parse_ts fromisoformat_utc (published_at r) = Some ts ∧
        ts `div` WINDOW_SECS cfg = b ∧
        author_id r = Some line.2 ∧ line.2 ≠ "" ∧
        (line.1.1, line.1.2) ∈ extract_items r ∧
        (line.1.1, line.1.2) ∈ kept_items.

(** The entries of [item_users] of kind [s] that hold both users [a] and
    [b] and are within the cap. *)
Definition shared_items (cfg : Config) (iu : list (Item * gset string))
    (a b s : string) : list (Item * gset string) :=
  filter (λ e, e.1.1 = s ∧ a ∈ e.2 ∧ b ∈ e.2 ∧
               (size e.2 ≤ MAX_USERS_PER_ITEM cfg)%nat) iu.

(** ** The user-item table *)

(** The number of kept items of the record [r] that [to_bip_item] maps to
    [item_id], when [r] is an event of [user]; [0] otherwise. *)
Definition bip_occurrences (fromisoformat_utc : string → option Z)
    (kept_items : gset Item) (user item_id : string) (r : Record_) : Z :=
  if is_event fromisoformat_utc r && bool_decide (author_id r = Some user)
  then Z.of_nat (length (filter
                           (λ key : Item,
                              key ∈ kept_items ∧
                              to_bip_item key.1 key.2 = Some item_id)
                           (extract_items r)))
  else 0.

(** ** Joined signal kinds *)

(** The string has no comma. *)
Fixpoint comma_free (s : string) : Prop :=
  match s with
  | EmptyString => True
  | String c s' => c ≠ ","%char ∧ comma_free s'
  end.

(** ** The coordination graph *)

(** The edge that [G.add_edge] makes of a row of the edge table. *)
Definition graph_edge_of (e : EdgeRow) : GEdge :=
  (user_a e, user_b e, total_occurrences e, signals e).

(** The row that pass 4 writes for the pair [cur]. *)
Definition edge_row (cfg : Config) (cur : string * string)
    (sig_counts : list (string * Z)) (total_occ : Z) : EdgeRow :=
  {| user_a := cur.1; user_b := cur.2;
     num_signals := length (signals_met_of cfg sig_counts);
     total_occurrences := total_occ;
     signals :=
       join "," (merge_sort String.le (signals_met_of cfg sig_counts));
     signal_counts := sig_counts |}.

(** The rows of a scan have [user_a < user_b]. *)
Definition canonical_rows (rows : list PairRow) : Prop :=
  Forall (λ r : PairRow, String.ltb r.1.1.1 r.1.1.2 = true) rows.

(** [G] holds the edges of the first [MAX_EDGES_FOR_GRAPH] rows of the
    edge table, and [edges_written] counts the rows. *)
Definition graph_inv (cfg : Config) (o : Pass4Out) : Prop :=
  edges_written o = Z.of_nat (length (rows_written o)) ∧
  G o = graph_edge_of <$>
          take (Z.to_nat (MAX_EDGES_FOR_GRAPH cfg)) (rows_written o).


(** ** The heap of [top_edges] *)

(** [x <= y] on heap entries: not [y < x]. *)
Definition entry_le (x y : HeapEntry) : Prop := entry_lt y x = false.

(** The parent of a position of the heap. *)
Definition parent (j : nat) : nat := ((j - 1) `div` 2)%nat.

(** The heap order of [heapq]: no entry is less than its parent. *)
Definition heap_ok (h : list HeapEntry) : Prop :=
  ∀ j, (0 < j < length h)%nat → entry_le (h !!! parent j) (h !!! j).

(** What [_siftdown] needs of a heap with a hole at [pos] for [x]. *)
Definition siftdown_inv (h : list HeapEntry) (pos : nat) (x : HeapEntry)
    : Prop :=
  (pos < length h)%nat ∧
  (∀ j, (0 < j < length h)%nat → j ≠ pos →
        entry_le (h !!! parent j) (h !!! j)) ∧
  (∀ j, (0 < j < length h)%nat → parent j = pos → entry_le x (h !!! j)) ∧
  (∀ j, (0 < j < length h)%nat → parent j = pos → (0 < pos)%nat →
        entry_le (h !!! parent pos) (h !!! j)).

(** What the loop of [_siftup] keeps of a heap with a hole at [pos]. *)
Definition siftup_inv (h : list HeapEntry) (pos : nat) : Prop :=
  (pos < length h)%nat ∧
  (∀ j, (0 < j < length h)%nat → parent j ≠ pos → j ≠ pos →
        entry_le (h !!! parent j) (h !!! j)) ∧
  (∀ j, (0 < j < length h)%nat → parent j = pos → (0 < pos)%nat →
        entry_le (h !!! parent pos) (h !!! j)).


(** The entries that pass 4 offers to [top_edges], one for each row of the
    edge table: the [total_occurrences] of the row, its number from 1, and
    the row. *)
Definition entries_of (rows : list EdgeRow) : list HeapEntry :=
  imap (λ i e, (total_occurrences e, Z.of_nat (S i), e)) rows.

(** [top_edges] while pass 4 runs: a heap of the greatest [TOP_EDGES_K]
    entries offered so far. *)
Definition top_inv (cfg : Config) (o : Pass4Out) : Prop :=
  edge_seq o = Z.of_nat (length (rows_written o)) ∧
  heap_ok (top_edges o) ∧
  length (top_edges o) =
    (TOP_EDGES_K cfg `min` length (rows_written o))%nat ∧
  ∃ dropped,
    top_edges o ++ dropped ≡ₚ entries_of (rows_written o) ∧
    ∀ d k, d ∈ dropped → k ∈ top_edges o → entry_lt d k = true.

(** ** The files of the graph *)

(** [edges_written] counts the rows of the edge table, and [G] has no edge
    only when there is no row or the ceiling lets none in. *)
Definition nodes_inv (cfg : Config) (o : Pass4Out) : Prop :=
  edges_written o = Z.of_nat (length (rows_written o)) ∧
  (G o = [] ↔ rows_written o = [] ∨ MAX_EDGES_FOR_GRAPH cfg < 1).

(** A [user_item] table of one row. *)
Definition sample_user_item : gmap (string * string) Z :=
  {[("u1", "TAG:#x") := 2]}.

(** ** Clusters *)

(** The signal kinds on an edge: the pieces of its [signals] attribute
    between the commas that are not empty. *)
Definition edge_signals (sigs : string) : list string :=
  filter (λ s, s ≠ "") (split_comma sigs).

(** A list of nodes that no edge of the graph leaves: a component, or
    several. *)
Definition closed_in (g : list GEdge) (comp : list string) : Prop :=
  ∀ e, e ∈ g → e.1.1.1 ∈ comp ↔ e.1.1.2 ∈ comp.

Definition no_self_loop (g : list GEdge) : Prop :=
  ∀ e : GEdge, e ∈ g → e.1.1.1 ≠ e.1.1.2.

(** A graph of three users with two edges. *)
Definition sample_graph : list GEdge :=
  [("A", "B", 2, "A_DOM,B_TAG"); ("B", "C", 3, "A_DOM,C_MENT")].
(** * Properties *)

(** ** Counters *)

Lemma count_of_counter_add `{Countable K} (m : gmap K Z) (k k' : K) n :
  count_of (counter_add k n m) k' =
  count_of m k' + (if decide (k = k') then n else 0).
Proof.
  unfold count_of, counter_add. destruct (decide (k = k')) as [->|Hne].
  - rewrite lookup_insert_eq. simpl. reflexivity.
  - rewrite lookup_insert_ne by done. lia.
Qed.

Lemma count_of_incr_all `{Countable K} (l : list K) (m : gmap K Z) k :
  count_of (foldl (λ c key, counter_add key 1 c) m l) k =
  count_of m k + occurrences k l.
Proof.
  revert m. induction l as [|x l IH]; intros m; simpl.
  - unfold occurrences. simpl. lia.
  - rewrite IH, count_of_counter_add. unfold occurrences.
    rewrite filter_cons. destruct (decide (x = k)); simpl length; lia.
Qed.

Lemma count_of_upsert_all `{Countable K} (rows : list (K * Z))
    (db : gmap K Z) k :
  count_of (upsert_all db rows) k =
  count_of db k + sum_Z snd (filter (λ r, r.1 = k) rows).
Proof.
  unfold upsert_all. revert db.
  induction rows as [|[k' c] rows IH]; intros db; simpl.
  - lia.
  - rewrite IH, count_of_counter_add, filter_cons. simpl.
    destruct (decide (k' = k)); simpl; lia.
Qed.

Lemma dom_counter_add `{Countable K} (m : gmap K Z) (k : K) n :
  dom (counter_add k n m) = {[k]} ∪ dom m.
Proof. unfold counter_add. apply dom_insert_L. Qed.

Lemma dom_upsert_all `{Countable K} (rows : list (K * Z)) (db : gmap K Z) :
  dom (upsert_all db rows) = dom db ∪ list_to_set rows.*1.
Proof.
  unfold upsert_all. revert db.
  induction rows as [|[k c] rows IH]; intros db; simpl.
  - by rewrite (right_id_L ∅ (∪)).
  - rewrite IH, dom_counter_add.
    by rewrite (comm_L (∪) {[k]}), (assoc_L (∪)).
Qed.

Lemma upsert_all_app `{Countable K} (db : gmap K Z) (r1 r2 : list (K * Z)) :
  upsert_all db (r1 ++ r2) = upsert_all (upsert_all db r1) r2.
Proof. unfold upsert_all. apply foldl_app. Qed.

(** ** Pass 1 *)

Lemma sum_Z_snoc {A} (f : A → Z) (l : list A) x :
  sum_Z f (l ++ [x]) = sum_Z f l + f x.
Proof. induction l as [|y l IH]; simpl; [lia|]. rewrite IH. lia. Qed.

Section Pass1.

Variable fromisoformat_utc : string → option Z.

Lemma pass1_count_from (records : list Record_) (m : gmap Item Z) key :
  count_of (foldl (pass1_record fromisoformat_utc) m records) key =
  count_of m key + sum_Z (pass1_weight fromisoformat_utc key) records.
Proof.
  revert m. induction records as [|r records IH]; intros m; simpl.
  - lia.
  - rewrite IH. unfold pass1_record, pass1_weight.
    destruct (parse_ts _ _); [rewrite count_of_incr_all|]; lia.
Qed.

Lemma pass1_count (records : list Record_) key :
  count_of (pass1 fromisoformat_utc records) key =
  sum_Z (pass1_weight fromisoformat_utc key) records.
Proof.
  unfold pass1. rewrite pass1_count_from. unfold count_of.
  rewrite lookup_empty. simpl. lia.
Qed.

(** A record without a parseable timestamp leaves the counts as they are. *)
Lemma pass1_record_no_ts (m : gmap Item Z) r :
  parse_ts fromisoformat_utc (published_at r) = None →
  pass1_record fromisoformat_utc m r = m.
Proof. unfold pass1_record. intros ->. reflexivity. Qed.

End Pass1.

Section Events.

Variable fromisoformat_utc : string → option Z.

Lemma is_event_ts r :
  is_event fromisoformat_utc r = true →
  is_Some (parse_ts fromisoformat_utc (published_at r)).
Proof.
  unfold is_event. intros [Hts _]%andb_prop.
  by apply bool_decide_eq_true in Hts.
Qed.

Lemma occurrences_NoDup (key : Item) (l : list Item) :
  NoDup l → occurrences key l = if decide (key ∈ l) then 1 else 0.
Proof.
  unfold occurrences. induction 1 as [|x l Hx Hl IH].
  - destruct (decide (key ∈ [])) as [Hin|_]; [|done].
    by apply not_elem_of_nil in Hin.
  - rewrite filter_cons.
    destruct (decide (x = key)) as [->|Hne]; simpl length.
    + destruct (decide (key ∈ l)) as [?|_]; [done|].
      destruct (decide (key ∈ key :: l)) as [_|Hn]; [lia|].
      destruct Hn. apply list_elem_of_here.
    + rewrite IH. destruct (decide (key ∈ l)) as [Hin|Hin];
        destruct (decide (key ∈ x :: l)) as [Hin'|Hin']; try done.
      * destruct Hin'. by apply list_elem_of_further.
      * apply elem_of_cons in Hin' as [->|?]; done.
Qed.

Lemma sum_weights_events (records : list Record_) key :
  (∀ r, r ∈ records →
        is_Some (parse_ts fromisoformat_utc (published_at r)) →
        truthy (author_id r) = true) →
  sum_Z (pass1_weight fromisoformat_utc key) records =
  sum_Z (λ r, occurrences key (extract_items r))
        (filter (λ r, is_event fromisoformat_utc r) records).
Proof.
  induction records as [|r records IH]; intros Hu; [done|].
  rewrite filter_cons. simpl sum_Z at 1. rewrite IH.
  2:{ intros r' Hr'. apply Hu. by apply list_elem_of_further. }
  assert (He : is_event fromisoformat_utc r =
               bool_decide (is_Some (parse_ts fromisoformat_utc
                                       (published_at r)))).
  { unfold is_event. case_bool_decide as Hts; [|done].
    by rewrite (Hu r) by (apply list_elem_of_here || done). }
  unfold pass1_weight. rewrite He.
  destruct (parse_ts fromisoformat_utc (published_at r)) as [ts|].
  - rewrite bool_decide_eq_true_2 by by eexists.
    rewrite decide_True by done. reflexivity.
  - rewrite bool_decide_eq_false_2 by (intros [? ?]; done).
    rewrite decide_False by (intros []). lia.
Qed.

Lemma sum_occurrences_once (records : list Record_) key :
  (∀ r, r ∈ records → NoDup (extract_items r)) →
  sum_Z (λ r, occurrences key (extract_items r)) records =
  Z.of_nat (length (filter (λ r, key ∈ extract_items r) records)).
Proof.
  induction records as [|r records IH]; intros Hnd; [done|].
  rewrite filter_cons. simpl sum_Z. rewrite IH.
  2:{ intros r' Hr'. apply Hnd. by apply list_elem_of_further. }
  rewrite occurrences_NoDup by (apply Hnd, list_elem_of_here).
  destruct (decide (key ∈ extract_items r)); simpl length; lia.
Qed.

(** C4, as the code has it: when every record with a parseable timestamp
    also has a user identifier, the count of an item after pass 1 is the
    number of its occurrences in the item lists of the events, an event
    counting once for each time it lists the item; it is the number of
    events containing the item when no event lists an item twice. *)
Theorem pass1_counts_occurrences (records : list Record_) (key : Item) :
  (∀ r, r ∈ records →
        is_Some (parse_ts fromisoformat_utc (published_at r)) →
        truthy (author_id r) = true) →
  count_of (pass1 fromisoformat_utc records) key =
    sum_Z (λ r, occurrences key (extract_items r))
          (filter (λ r, is_event fromisoformat_utc r) records) ∧
  ((∀ r, r ∈ records → NoDup (extract_items r)) →
   count_of (pass1 fromisoformat_utc records) key =
     events_containing fromisoformat_utc key records).
Proof.
  intros Hu. rewrite pass1_count, sum_weights_events by done.
  split; [done|]. intros Hnd. unfold events_containing.
  apply sum_occurrences_once.
  intros r [_ Hr]%list_elem_of_filter. by apply Hnd.
Qed.

End Events.

(** C4, as the spec states it, fails on an event that lists a hashtag
    twice: the event is counted twice. *)
Lemma repeated_tag_counted_twice :
  ¬ counts_events_once sample_fromisoformat repeated_tag.
Proof.
  intros H. specialize (H ("B_TAG", "x")). vm_compute in H. discriminate.
Qed.

Lemma pass1_counts_occurrences_witness :
  count_of (pass1 sample_fromisoformat four_posts) ("B_TAG", "x") = 4 ∧
  events_containing sample_fromisoformat ("B_TAG", "x") four_posts = 4.
Proof.
  assert (Hu : ∀ r, r ∈ four_posts →
            is_Some (parse_ts sample_fromisoformat (published_at r)) →
            truthy (author_id r) = true).
  { intros r Hr _. unfold four_posts in Hr.
    repeat (apply elem_of_cons in Hr as [->|Hr]; [reflexivity|]).
    by apply not_elem_of_nil in Hr. }
  assert (Hnd : ∀ r, r ∈ four_posts → NoDup (extract_items r)).
  { intros r Hr. unfold four_posts in Hr.
    repeat (apply elem_of_cons in Hr as [->|Hr];
            [vm_compute; apply NoDup_singleton|]).
    by apply not_elem_of_nil in Hr. }
  destruct (pass1_counts_occurrences sample_fromisoformat four_posts
              ("B_TAG", "x") Hu) as [_ Hc].
  split; [rewrite (Hc Hnd)|]; vm_compute; reflexivity.
Defined.

(** ** Records without a timestamp or without a user *)

Section Dropped.

Variable fromisoformat_utc : string → option Z.
Variable cfg : Config.

(** Passes 2 and 3b skip a record without a parseable timestamp. *)
Lemma pass2_record_no_ts kept files r :
  parse_ts fromisoformat_utc (published_at r) = None →
  pass2_record fromisoformat_utc cfg kept files r = files.
Proof. unfold pass2_record. intros ->. reflexivity. Qed.

Lemma pass3b_entries_no_ts kept r :
  parse_ts fromisoformat_utc (published_at r) = None →
  pass3b_entries fromisoformat_utc kept r = [].
Proof. unfold pass3b_entries. intros ->. reflexivity. Qed.

(** Passes 2 and 3b skip a record without a user identifier. *)
Lemma pass2_record_no_user kept files r :
  truthy (author_id r) = false →
  pass2_record fromisoformat_utc cfg kept files r = files.
Proof.
  unfold pass2_record. intros Hu.
  destruct (parse_ts _ _); [|done].
  destruct (author_id r); [|done]. by rewrite Hu.
Qed.

Lemma pass3b_entries_no_user kept r :
  truthy (author_id r) = false →
  pass3b_entries fromisoformat_utc kept r = [].
Proof.
  unfold pass3b_entries. intros Hu.
  destruct (parse_ts _ _); [|done].
  destruct (author_id r); [|done]. by rewrite Hu.
Qed.

(** Pass 1 counts the items of a record with a parseable timestamp,
    whatever its [author_id]. *)
Lemma pass1_counts_any_author (records : list Record_) r key :
  is_Some (parse_ts fromisoformat_utc (published_at r)) →
  key ∈ extract_items r →
  count_of (pass1 fromisoformat_utc (records ++ [r])) key =
    count_of (pass1 fromisoformat_utc records) key +
    occurrences key (extract_items r) ∧
  0 < occurrences key (extract_items r).
Proof.
  intros [ts Hts] Hin. rewrite !pass1_count, sum_Z_snoc.
  unfold pass1_weight at 2. rewrite Hts. split; [done|].
  unfold occurrences.
  assert (Hf : key ∈ filter (λ x, x = key) (extract_items r))
    by by apply list_elem_of_filter.
  destruct (filter (λ x, x = key) (extract_items r));
    [by apply elem_of_nil in Hf|simpl; lia].
Qed.

End Dropped.

(** C6 on a record with a timestamp and a hashtag but no user identifier:
    pass 1 has no test of [author_id] and counts the hashtag, and that count
    lifts the hashtag of four other posts into the keep-set, so that their
    lines reach the bucket file. *)
Theorem userless_record_is_counted :
  truthy (author_id userless) = false ∧
  count_of (pass1 sample_fromisoformat [userless]) ("B_TAG", "x") = 1 ∧
  pass2 sample_fromisoformat default_config
    (kept_items_of default_config (pass1 sample_fromisoformat four_posts))
    four_posts !! 0 = Some [] ∧
  pass2 sample_fromisoformat default_config
    (kept_items_of default_config
       (pass1 sample_fromisoformat (four_posts ++ [userless])))
    (four_posts ++ [userless]) !! 0 =
  Some [("B_TAG", "x", "u1"); ("B_TAG", "x", "u2");
        ("B_TAG", "x", "u1"); ("B_TAG", "x", "u2")].
Proof. repeat split; vm_compute; reflexivity. Qed.

(** ** Pass 3b *)

Section Pass3b.

Variable fromisoformat_utc : string → option Z.
Variable cfg : Config.

Lemma to_bip_item_Some signal value item_id :
  to_bip_item signal value = Some item_id →
  signal ∈ bip_signals ∧ value ≠ "".
Proof.
  unfold to_bip_item, bip_signals.
  destruct (String.eqb_spec value "") as [->|Hv]; [done|].
  repeat (match goal with
          | |- context [String.eqb signal ?s] =>
              destruct (String.eqb_spec signal s) as [->|?]
          end; [intros _; split; [|done]; set_solver by idtac|]).
  done.
Qed.

Lemma pass3b_entries_spec kept r user item_id cnt :
  (user, item_id, cnt) ∈ pass3b_entries fromisoformat_utc kept r →
  ∃ signal value,
    (signal, value) ∈ kept ∧ to_bip_item signal value = Some item_id.
Proof.
  unfold pass3b_entries.
  destruct (parse_ts _ _); [|by intros ?%elem_of_nil].
  destruct (author_id r) as [u|]; [|by intros ?%elem_of_nil].
  destruct (negb _); [by intros ?%elem_of_nil|].
  intros ([signal value] & Hin & _)%list_elem_of_bind. simpl in Hin.
  destruct (decide _) as [Hk|]; [|by apply elem_of_nil in Hin].
  destruct (to_bip_item signal value) as [i|] eqn:Hb;
    [|by apply elem_of_nil in Hin].
  destruct (String.eqb i ""); [by apply elem_of_nil in Hin|].
  apply list_elem_of_singleton in Hin. simplify_eq. eauto.
Qed.

(** The flushes of [batch] do not change what reaches the table. *)
Lemma pass3b_append_all (es : list (string * string * Z)) st :
  let st' := foldl (pass3b_append cfg) st es in
  upsert_all st'.2 st'.1 = upsert_all st.2 (st.1 ++ es).
Proof.
  revert st. induction es as [|e es IH]; intros st; simpl.
  - by rewrite app_nil_r.
  - rewrite IH. unfold pass3b_append.
    destruct (_ <=? _); simpl.
    + by rewrite <- upsert_all_app, <- app_assoc.
    + by rewrite <- app_assoc.
Qed.

Lemma pass3b_unbatched kept (records : list Record_) :
  pass3b fromisoformat_utc cfg kept records =
  upsert_all ∅ (records ≫= pass3b_entries fromisoformat_utc kept).
Proof.
  unfold pass3b.
  set (step := λ st r, foldl (pass3b_append cfg) st
                         (pass3b_entries fromisoformat_utc kept r)).
  assert (Hgen : ∀ rs st,
            let st' := foldl step st rs in
            upsert_all st'.2 st'.1 =
            upsert_all st.2
              (st.1 ++ (rs ≫= pass3b_entries fromisoformat_utc kept))).
  { induction rs as [|r rs IH]; intros st; simpl.
    - by rewrite app_nil_r.
    - rewrite IH.
      pose proof (pass3b_append_all
                    (pass3b_entries fromisoformat_utc kept r) st) as Ha.
      simpl in Ha. fold (step st r) in Ha.
      by rewrite upsert_all_app, Ha, <- upsert_all_app, <- app_assoc. }
  specialize (Hgen records ([], ∅)). simpl in Hgen. rewrite <- Hgen.
  by destruct (foldl step ([], ∅) records).1.
Qed.

(** C10: every key of [user_item] holds an item id that [to_bip_item] made
    from a kept item of kind domain, retweet target, conversation, mention
    or hashtag; no URL, quote-target or reply-target item is recorded. *)
Theorem user_item_kinds kept (records : list Record_) user item_id cnt :
  pass3b fromisoformat_utc cfg kept records !! (user, item_id) = Some cnt →
  ∃ signal value,
    signal ∈ bip_signals ∧ (signal, value) ∈ kept ∧
    to_bip_item signal value = Some item_id ∧
    signal ≠ "A_URL" ∧ signal ≠ "D_QUOTE" ∧ signal ≠ "E_REPLY".
Proof.
  intros Hl. assert (Hd : (user, item_id) ∈
    dom (pass3b fromisoformat_utc cfg kept records)).
  { apply elem_of_dom. by eexists. }
  rewrite pass3b_unbatched, dom_upsert_all, dom_empty_L in Hd.
  rewrite (left_id_L ∅ (∪)), elem_of_list_to_set in Hd.
  apply list_elem_of_fmap in Hd as ([[u i] c] & Heq & Hin).
  simpl in Heq. simplify_eq.
  apply list_elem_of_bind in Hin as (r & Hin & _).
  apply pass3b_entries_spec in Hin as (signal & value & Hk & Hb).
  destruct (to_bip_item_Some _ _ _ Hb) as [Hs _].
  exists signal, value. repeat split; try done;
    intros ->; unfold bip_signals in Hs;
    repeat (apply elem_of_cons in Hs as [?|Hs]; [done|]);
    by apply elem_of_nil in Hs.
Qed.

Lemma elem_of_insert_desc {A} (key : A → Z) (x y : A) (l : list A) :
  x ∈ insert_desc key y l ↔ x = y ∨ x ∈ l.
Proof.
  induction l as [|z l IH]; simpl.
  - rewrite list_elem_of_singleton, elem_of_nil. tauto.
  - destruct (key z <? key y); rewrite !elem_of_cons; [done|].
    rewrite IH. tauto.
Qed.

Lemma elem_of_sorted_desc {A} (key : A → Z) (x : A) (l : list A) :
  x ∈ sorted_desc key l ↔ x ∈ l.
Proof.
  unfold sorted_desc.
  assert (Hgen : ∀ acc, x ∈ foldl (λ acc y, insert_desc key y acc) acc l ↔
                        x ∈ acc ∨ x ∈ l).
  { induction l as [|y l IH]; intros acc; simpl.
    - rewrite elem_of_nil. tauto.
    - rewrite IH, elem_of_insert_desc, elem_of_cons. tauto. }
  rewrite Hgen, elem_of_nil. tauto.
Qed.

(** The rows read for the bipartite graph are rows of [user_item]. *)
Lemma select_user_item_rows (db : gmap (string * string) Z) r :
  r ∈ select_user_item cfg db → db !! r.1 = Some r.2.
Proof.
  unfold select_user_item. destruct r as [k c]. simpl.
  destruct (_ <? _); [destruct (_ <? _)|].
  - intros Hin%elem_of_sorted_desc. by apply elem_of_map_to_list.
  - intros Hin%subseteq_take%elem_of_sorted_desc.
    by apply elem_of_map_to_list.
  - apply elem_of_map_to_list.
Qed.

End Pass3b.

Lemma user_item_kinds_witness :
  ∃ signal value,
    signal ∈ bip_signals ∧
    (signal, value) ∈ ({[("B_TAG", "x")]} : gset Item) ∧
    to_bip_item signal value = Some "TAG:#x" ∧
    signal ≠ "A_URL" ∧ signal ≠ "D_QUOTE" ∧ signal ≠ "E_REPLY".
Proof.
  apply (user_item_kinds sample_fromisoformat default_config
           {[("B_TAG", "x")]} four_posts "u1" "TAG:#x" 2).
  vm_compute. reflexivity.
Defined.

(** ** Pass 3a: the pairs of an item *)

Lemma String_le_ne_ltb (a b : string) :
  String.le a b → a ≠ b → String.ltb a b = true.
Proof.
  unfold String.le, String.leb, String.ltb. intros Hle Hne.
  destruct (String.compare a b) eqn:Hc; [|done|done].
  by apply String.compare_eq_iff in Hc.
Qed.

Lemma sorted_Permutation (users : gset string) :
  sorted users ≡ₚ elements users.
Proof. apply merge_sort_Permutation. Qed.

Lemma sorted_length (users : gset string) :
  length (sorted users) = size users.
Proof. by rewrite sorted_Permutation. Qed.

Lemma sorted_NoDup (users : gset string) : NoDup (sorted users).
Proof. rewrite sorted_Permutation. apply NoDup_elements. Qed.

Lemma sorted_StronglySorted (users : gset string) :
  StronglySorted String.le (sorted users).
Proof. apply StronglySorted_merge_sort; apply _. Qed.

Lemma elem_of_sorted (users : gset string) u :
  u ∈ sorted users ↔ u ∈ users.
Proof. by rewrite sorted_Permutation, elem_of_elements. Qed.

Section IndexPairs.

Variable signal : string.

(** The inner loop at [i], over the indices of a suffix [t]. *)
Lemma inner_loop (h : string → string * string * string)
    (t pre : list string) :
  (seq (length pre) (length t) ≫= λ j, [h ((pre ++ t) !!! j)]) = h <$> t.
Proof.
  revert pre. induction t as [|b t IH]; intros pre; [done|].
  simpl seq. rewrite fmap_cons. rewrite <- (IH (pre ++ [b])).
  rewrite length_app, Nat.add_1_r. rewrite bind_cons.
  rewrite list_lookup_total_middle by done. simpl.
  by rewrite <- app_assoc.
Qed.

Lemma outer_loop (t pre : list string) :
  (seq (length pre) (length t) ≫= λ i,
     seq (i + 1) (length (pre ++ t) - (i + 1)) ≫= λ j,
       [((pre ++ t) !!! i, (pre ++ t) !!! j, signal)]) =
  pairs_from t signal.
Proof.
  revert pre. induction t as [|a t IH]; intros pre; [done|].
  simpl seq. simpl pairs_from. rewrite <- (IH (pre ++ [a])).
  rewrite <- (inner_loop (λ b, (a, b, signal)) t (pre ++ [a])).
  replace (pre ++ a :: t) with ((pre ++ [a]) ++ t)
    by by rewrite <- app_assoc.
  rewrite (length_app pre [a]). simpl length. rewrite bind_cons.
  rewrite !Nat.add_1_r. f_equal.
  replace (length ((pre ++ [a]) ++ t) - S (length pre))%nat
    with (length t) by (rewrite !length_app; simpl; lia).
  replace (((pre ++ [a]) ++ t) !!! length pre) with a; [done|].
  rewrite <- app_assoc. simpl. by rewrite list_lookup_total_middle.
Qed.

Lemma index_pairs_pairs_from (l : list string) :
  index_pairs l signal = pairs_from l signal.
Proof. unfold index_pairs. apply (outer_loop l []). Qed.

Lemma pairs_from_length (l : list string) :
  (2 * length (pairs_from l signal) = length l * (length l - 1))%nat.
Proof.
  induction l as [|a t IH]; [done|].
  simpl pairs_from. rewrite length_app, length_fmap. simpl length. nia.
Qed.

Lemma elem_of_pairs_from (l : list string) a b s :
  (a, b, s) ∈ pairs_from l signal →
  s = signal ∧ ∃ l1 l2 l3, l = l1 ++ a :: l2 ++ b :: l3.
Proof.
  induction l as [|x t IH]; simpl; [by intros ?%elem_of_nil|].
  intros [Hin|Hin]%elem_of_app.
  - apply list_elem_of_fmap in Hin as (y & Heq & Hy). simplify_eq.
    split; [done|]. apply list_elem_of_split in Hy as (l2 & l3 & ->).
    by exists [], l2, l3.
  - destruct (IH Hin) as (-> & l1 & l2 & l3 & ->).
    split; [done|]. by exists (x :: l1), l2, l3.
Qed.

Lemma pairs_from_NoDup (l : list string) :
  NoDup l → NoDup (pairs_from l signal).
Proof.
  induction 1 as [|x t Hx Ht IH]; simpl; [constructor|].
  apply NoDup_app. split; [|split; [|done]].
  - apply NoDup_fmap_2; [|done]. intros ?? ?. by simplify_eq.
  - intros [[a b] s] Hin1 Hin2.
    apply list_elem_of_fmap in Hin1 as (y & Heq & _). simplify_eq.
    apply elem_of_pairs_from in Hin2 as (_ & l1 & l2 & l3 & ->).
    apply Hx. rewrite elem_of_app, elem_of_cons. auto.
Qed.

End IndexPairs.

(** ** Pass 3a: the [item_users] dict *)

Lemma iu_get_add key u (iu : list (Item * gset string)) k :
  iu_get k (item_users_add key u iu) =
  if decide (k = key) then Some ({[u]} ∪ default ∅ (iu_get key iu))
  else iu_get k iu.
Proof.
  induction iu as [|[k' us] iu IH]; simpl.
  - destruct (decide (key = k)) as [->|?].
    + rewrite decide_True by done. by rewrite (right_id_L ∅ (∪)).
    + by rewrite decide_False by done.
  - destruct (decide (k' = key)) as [->|Hne]; simpl.
    + destruct (decide (key = k)) as [->|?].
      * by rewrite decide_True by done.
      * by rewrite decide_False by done.
    + destruct (decide (k' = k)) as [->|?].
      * by rewrite decide_False by done.
      * apply IH.
Qed.

Lemma item_users_add_keys key u (iu : list (Item * gset string)) :
  (item_users_add key u iu).*1 =
  if decide (key ∈ iu.*1) then iu.*1 else iu.*1 ++ [key].
Proof.
  induction iu as [|[k' us] iu IH].
  - destruct (decide (key ∈ ([] : list (Item * gset string)).*1))
      as [Hin|_]; [|done].
    by apply elem_of_nil in Hin.
  - cbn [item_users_add]. rewrite fmap_cons.
    destruct (decide (k' = key)) as [->|Hne].
    + destruct (decide (key ∈ (key, us).1 :: iu.*1)) as [_|Hn]; [done|].
      destruct Hn. apply list_elem_of_here.
    + rewrite fmap_cons, IH.
      destruct (decide (key ∈ iu.*1)) as [Hin|Hin];
        destruct (decide (key ∈ (k', us).1 :: iu.*1)) as [Hin'|Hin'];
        try done.
      * destruct Hin'. by apply list_elem_of_further.
      * apply elem_of_cons in Hin' as [?|?]; done.
Qed.

Lemma item_users_of_snoc (lines : list Line) (l : Line) :
  item_users_of (lines ++ [l]) =
  item_users_add (l.1.1, l.1.2) l.2 (item_users_of lines).
Proof. unfold item_users_of. by rewrite foldl_app. Qed.

Lemma item_users_of_keys_NoDup (lines : list Line) :
  NoDup (item_users_of lines).*1.
Proof.
  induction lines as [|l lines IH] using rev_ind; [constructor|].
  rewrite item_users_of_snoc, item_users_add_keys.
  destruct (decide _) as [|Hn]; [done|].
  apply NoDup_app. split; [done|]. split; [|apply NoDup_singleton].
  intros k Hk ->%list_elem_of_singleton. done.
Qed.

Lemma iu_get_Some_elem (iu : list (Item * gset string)) k us :
  iu_get k iu = Some us → (k, us) ∈ iu.
Proof.
  induction iu as [|[k' us'] iu IH]; simpl; [done|].
  destruct (decide (k' = k)) as [->|?].
  - intros [= ->]. apply list_elem_of_here.
  - intros H. by apply list_elem_of_further, IH.
Qed.

Lemma elem_iu_get (iu : list (Item * gset string)) k us :
  NoDup iu.*1 → (k, us) ∈ iu → iu_get k iu = Some us.
Proof.
  induction iu as [|[k' us'] iu IH]; simpl.
  - by intros _ ?%elem_of_nil.
  - intros [Hk Hnd]%NoDup_cons [Heq|Hin]%elem_of_cons.
    + simplify_eq. by rewrite decide_True by done.
    + destruct (decide (k' = k)) as [->|?]; [|by apply IH].
      destruct Hk. apply list_elem_of_fmap. by exists (k, us).
Qed.

Lemma users_of_snoc (lines : list Line) (l : Line) k :
  users_of (lines ++ [l]) k =
  users_of lines k ∪ (if decide ((l.1.1, l.1.2) = k) then {[l.2]} else ∅).
Proof.
  unfold users_of. rewrite filter_app, fmap_app, list_to_set_app_L.
  f_equal. rewrite filter_cons, filter_nil.
  destruct (decide _); simpl; [|done]. by rewrite (right_id_L ∅ (∪)).
Qed.

Lemma iu_get_item_users_of (lines : list Line) k :
  match iu_get k (item_users_of lines) with
  | None => users_of lines k = ∅
  | Some us => us = users_of lines k ∧ us ≠ ∅
  end.
Proof.
  induction lines as [|l lines IH] using rev_ind; [done|].
  rewrite item_users_of_snoc, iu_get_add, users_of_snoc.
  destruct (decide (k = (l.1.1, l.1.2))) as [->|Hne].
  - rewrite decide_True by done.
    destruct (iu_get _ (item_users_of lines)) as [us|]; simpl.
    + destruct IH as [-> _]. split; [apply (comm_L (∪))|].
      intros H. apply (f_equal (λ X, bool_decide (l.2 ∈ X))) in H.
      rewrite bool_decide_eq_true_2 in H
        by (apply elem_of_union_l, elem_of_singleton; done).
      rewrite bool_decide_eq_false_2 in H by apply not_elem_of_empty.
      done.
    + rewrite IH. split; [apply (comm_L (∪))|].
      rewrite (right_id_L ∅ (∪)). intros H.
      apply (f_equal (λ X, bool_decide (l.2 ∈ X))) in H.
      rewrite bool_decide_eq_true_2 in H by by apply elem_of_singleton.
      rewrite bool_decide_eq_false_2 in H by apply not_elem_of_empty.
      done.
  - rewrite decide_False by done. rewrite (right_id_L ∅ (∪)). apply IH.
Qed.

(** The entries of [item_users] are the items of the bucket file, each with
    the set of its users. *)
Lemma elem_of_item_users_of (lines : list Line) k us :
  (k, us) ∈ item_users_of lines ↔ us = users_of lines k ∧ us ≠ ∅.
Proof.
  pose proof (iu_get_item_users_of lines k) as Hg. split.
  - intros Hin.
    apply elem_iu_get in Hin; [|apply item_users_of_keys_NoDup].
    by rewrite Hin in Hg.
  - intros [-> Hne]. apply iu_get_Some_elem.
    destruct (iu_get k (item_users_of lines)) as [us|]; [|done].
    by destruct Hg as [-> _].
Qed.

(** ** Pass 3a: the increments of an item *)

Lemma sorted_split_lt (users : gset string) l1 a l2 b l3 :
  sorted users = l1 ++ a :: l2 ++ b :: l3 → String.ltb a b = true.
Proof.
  intros Hs. pose proof (sorted_StronglySorted users) as Hss.
  pose proof (sorted_NoDup users) as Hnd. rewrite Hs in Hss, Hnd.
  apply StronglySorted_app_1_r in Hss.
  apply StronglySorted_cons in Hss as [Hall _].
  apply NoDup_app in Hnd as (_ & _ & Hnd).
  apply NoDup_cons in Hnd as [Hna _].
  apply String_le_ne_ltb.
  - rewrite Forall_forall in Hall. apply Hall.
    rewrite elem_of_app, elem_of_cons. auto.
  - intros ->. apply Hna. rewrite elem_of_app, elem_of_cons. auto.
Qed.

Lemma occurrences_NoDup_in `{EqDecision K} (k : K) (l : list K) :
  NoDup l → occurrences k l = if decide (k ∈ l) then 1 else 0.
Proof.
  unfold occurrences. induction 1 as [|x l Hx Hl IH].
  - destruct (decide (k ∈ [])) as [Hin|_]; [|done].
    by apply elem_of_nil in Hin.
  - rewrite filter_cons.
    destruct (decide (x = k)) as [->|Hne]; simpl length.
    + destruct (decide (k ∈ l)) as [?|_]; [done|].
      destruct (decide (k ∈ k :: l)) as [_|Hn]; [lia|].
      destruct Hn. apply list_elem_of_here.
    + rewrite IH. destruct (decide (k ∈ l)) as [Hin|Hin];
        destruct (decide (k ∈ x :: l)) as [Hin'|Hin']; try done.
      * destruct Hin'. by apply list_elem_of_further.
      * apply elem_of_cons in Hin' as [->|?]; done.
Qed.

Lemma occurrences_bind `{EqDecision K} {A} (k : K) (f : A → list K)
    (l : list A) :
  occurrences k (l ≫= f) = sum_Z (λ x, occurrences k (f x)) l.
Proof.
  unfold occurrences. induction l as [|x l IH]; [done|].
  rewrite bind_cons, filter_app, length_app. simpl sum_Z. lia.
Qed.

(** Taking the entry of one key out of a sum over entries with distinct
    keys. *)
Lemma sum_Z_without_key `{EqDecision K} {V} (g : K * V → Z)
    (l : list (K * V)) k v :
  NoDup l.*1 → (k, v) ∈ l →
  sum_Z g l = sum_Z g (filter (λ e, e.1 ≠ k) l) + g (k, v).
Proof.
  induction l as [|[k' v'] l IH]; intros Hnd Hin;
    [by apply elem_of_nil in Hin|].
  rewrite fmap_cons in Hnd. apply NoDup_cons in Hnd as [Hk' Hnd].
  rewrite filter_cons. simpl.
  apply elem_of_cons in Hin as [[= <- <-]|Hin].
  - rewrite decide_False by (intros Hne; by apply Hne).
    assert (Hf : filter (λ e : K * V, e.1 ≠ k) l = l).
    { clear IH Hnd. induction l as [|[k2 v2] l IHl]; [done|].
      rewrite filter_cons. simpl.
      rewrite decide_True.
      - f_equal. apply IHl. intros Hin. apply Hk'. rewrite fmap_cons.
        by apply list_elem_of_further.
      - intros ->. apply Hk'. rewrite fmap_cons. apply list_elem_of_here. }
    rewrite Hf. lia.
  - assert (Hne : k' ≠ k).
    { intros ->. apply Hk'. apply list_elem_of_fmap. by exists (k, v). }
    rewrite decide_True by done. simpl. rewrite (IH Hnd Hin). lia.
Qed.

Section Increments.

Variable cfg : Config.

(** C2: an item of a bucket file whose user set has [k] members, with
    [2 ≤ k ≤ MAX_USERS_PER_ITEM], is an entry of [item_users] and
    increments [k * (k - 1) / 2] keys of [bucket_counts], once each: the
    count of each of these keys in [bucket_counts] is one more than for the
    file without the item, and the count of every other key is the same.
    Every such key [(a, b, s)] has [a < b], both users of the item, and the
    signal kind [s] of the item. *)
Theorem item_pair_increments (lines : list Line) (signal value : string) :
  let users := users_of lines (signal, value) in
  let k := size users in
  (2 ≤ k)%nat → (k ≤ MAX_USERS_PER_ITEM cfg)%nat →
  let incs := item_increments cfg ((signal, value), users) in
  let others :=
    filter (λ e, e.1 ≠ (signal, value)) (item_users_of lines) in
  ((signal, value), users) ∈ item_users_of lines ∧
  length incs = ((k * (k - 1)) `div` 2)%nat ∧
  NoDup incs ∧
  (∀ a b s, (a, b, s) ∈ incs →
            String.ltb a b = true ∧ s = signal ∧ a ∈ users ∧ b ∈ users) ∧
  ∀ key,
    count_of (bucket_counts_of cfg (item_users_of lines)) key =
    count_of (bucket_counts_of cfg others) key +
    (if decide (key ∈ incs) then 1 else 0).
Proof.
  intros users k Hk2 Hkm incs others.
  assert (Hincs : incs = pairs_from (sorted users) signal).
  { unfold incs, item_increments. simpl.
    destruct (Nat.ltb_spec (size users) 2) as [?|_]; [unfold k in Hk2; lia|].
    destruct (Nat.ltb_spec (MAX_USERS_PER_ITEM cfg) (size users)) as [?|_];
      [unfold k in Hkm; lia|].
    apply index_pairs_pairs_from. }
  assert (Hin : ((signal, value), users) ∈ item_users_of lines).
  { apply elem_of_item_users_of. split; [done|].
    intros He. unfold k in Hk2. fold users in He. rewrite He in Hk2.
    rewrite size_empty in Hk2. lia. }
  assert (Hnd : NoDup incs)
    by (rewrite Hincs; apply pairs_from_NoDup, sorted_NoDup).
  split; [done|]. split; [|split; [done|split]].
  - rewrite Hincs. pose proof (pairs_from_length signal (sorted users)) as Hl.
    rewrite sorted_length in Hl. fold k in Hl.
    apply Nat.div_unique_exact; lia.
  - intros a b s. rewrite Hincs.
    intros (-> & l1 & l2 & l3 & Hs)%elem_of_pairs_from.
    split; [by eapply sorted_split_lt|]. split; [done|].
    split; apply elem_of_sorted; rewrite Hs.
    + rewrite elem_of_app, elem_of_cons. auto.
    + rewrite elem_of_app, elem_of_cons, elem_of_app, elem_of_cons. auto.
  - intros key. unfold bucket_counts_of.
    rewrite !count_of_incr_all, !occurrences_bind.
    rewrite (sum_Z_without_key _ (item_users_of lines) (signal, value) users)
      by (done || apply item_users_of_keys_NoDup).
    fold others. fold incs. rewrite (occurrences_NoDup_in key incs Hnd).
    lia.
Qed.

End Increments.

Lemma item_pair_increments_witness :
  let users := users_of one_window ("A_DOM", "example.com") in
  let incs :=
    item_increments default_config (("A_DOM", "example.com"), users) in
  let others :=
    filter (λ e, e.1 ≠ ("A_DOM", "example.com"))
           (item_users_of one_window) in
  (("A_DOM", "example.com"), users) ∈ item_users_of one_window ∧
  length incs = ((3 * (3 - 1)) `div` 2)%nat ∧
  NoDup incs ∧
  (∀ a b s, (a, b, s) ∈ incs →
            String.ltb a b = true ∧ s = "A_DOM" ∧ a ∈ users ∧ b ∈ users) ∧
  ∀ key,
    count_of (bucket_counts_of default_config (item_users_of one_window))
             key =
    count_of (bucket_counts_of default_config others) key +
    (if decide (key ∈ incs) then 1 else 0).
Proof.
  apply (item_pair_increments default_config one_window
           "A_DOM" "example.com"); vm_compute; lia.
Defined.

(** ** Pass 3a: [top_item] and [top_signal] *)

Lemma top_step_eq ti tsig n (e : Item * gset string) :
  top_step (ti, n, tsig, n) e =
  if (n <? size e.2)%nat
  then (Some (item_label e), size e.2, Some e.1.1, size e.2)
  else (ti, n, tsig, n).
Proof. unfold top_step. by destruct (n <? size e.2)%nat. Qed.

Lemma top_fold (iu : list (Item * gset string)) ti tsig n :
  (Forall (λ x, (size x.2 ≤ n)%nat) iu ∧
   foldl top_step (ti, n, tsig, n) iu = (ti, n, tsig, n)) ∨
  (∃ e, first_widest iu e ∧ (n < size e.2)%nat ∧
        foldl top_step (ti, n, tsig, n) iu =
        (Some (item_label e), size e.2, Some e.1.1, size e.2)).
Proof.
  revert ti tsig n. induction iu as [|e0 iu IH]; intros ti tsig n.
  - left. by split.
  - cbn [foldl]. rewrite top_step_eq.
    destruct (Nat.ltb_spec n (size e0.2)) as [Hlt|Hge].
    + right.
      destruct (IH (Some (item_label e0)) (Some e0.1.1)
                  (size e0.2))
        as [[Hall ->]|(e & (pre & post & -> & Hpre & Hpost) & Hn & ->)].
      * exists e0. split; [by exists [], iu|]. done.
      * exists e. split; [|split; [lia|done]].
        exists (e0 :: pre), post. split; [done|]. split; [|done].
        by constructor.
    + destruct (IH ti tsig n)
        as [[Hall ->]|(e & (pre & post & -> & Hpre & Hpost) & Hn & ->)].
      * left. split; [|done]. by constructor.
      * right. exists e. split; [|done].
        exists (e0 :: pre), post. split; [done|]. split; [|done].
        constructor; [lia|done].
Qed.

Lemma item_users_of_size (lines : list Line) e :
  e ∈ item_users_of lines → (1 ≤ size e.2)%nat.
Proof.
  destruct e as [k us]. intros [_ Hne]%elem_of_item_users_of. simpl.
  destruct (decide (size us = 0%nat)) as [Hz|]; [|lia].
  by apply size_empty_inv, leibniz_equiv in Hz.
Qed.

(** The outcome of the first loop of pass 3a on a bucket file. *)
Lemma top_of_item_users (lines : list Line) :
  (item_users_of lines = [] ∧
   top_of (item_users_of lines) = (None, 0%nat, None, 0%nat)) ∨
  (∃ e, first_widest (item_users_of lines) e ∧
        top_of (item_users_of lines) =
        (Some (item_label e), size e.2, Some e.1.1, size e.2)).
Proof.
  unfold top_of.
  destruct (top_fold (item_users_of lines) None None 0)
    as [[Hall Heq]|(e & Hw & _ & Heq)].
  - left. split; [|done].
    destruct (item_users_of lines) as [|e iu] eqn:Hiu; [done|].
    apply Forall_cons in Hall as [He _].
    assert (Hin : e ∈ item_users_of lines)
      by (rewrite Hiu; apply list_elem_of_here).
    apply item_users_of_size in Hin. lia.
  - right. by exists e.
Qed.

Lemma first_widest_unique (iu : list (Item * gset string)) e1 e2 :
  first_widest iu e1 → first_widest iu e2 → (size e1.2 = size e2.2)%nat.
Proof.
  intros (pre1 & post1 & H1 & Hpre1 & Hpost1)
         (pre2 & post2 & H2 & Hpre2 & Hpost2).
  assert (Hin1 : e1 ∈ iu)
    by (rewrite H1, elem_of_app, elem_of_cons; auto).
  assert (Hin2 : e2 ∈ iu)
    by (rewrite H2, elem_of_app, elem_of_cons; auto).
  assert (Hle : ∀ pre e post x, iu = pre ++ e :: post →
            Forall (λ x, (size x.2 < size e.2)%nat) pre →
            Forall (λ x, (size x.2 ≤ size e.2)%nat) post →
            x ∈ iu → (size x.2 ≤ size e.2)%nat).
  { intros pre e post x -> Hp Hq.
    rewrite Forall_forall in Hp, Hq.
    intros [Hx|[->|Hx]%elem_of_cons]%elem_of_app; [|lia|by apply Hq].
    apply Hp in Hx. lia. }
  pose proof (Hle _ _ _ e2 H1 Hpre1 Hpost1 Hin2).
  pose proof (Hle _ _ _ e1 H2 Hpre2 Hpost2 Hin1). lia.
Qed.

Lemma bind_filter_nil {A B} (f : A → list B) (P : A → Prop)
    `{∀ x, Decision (P x)} (l : list A) :
  (∀ x, x ∈ l → ¬ P x → f x = []) → l ≫= f = filter P l ≫= f.
Proof.
  induction l as [|x l IH]; intros Hf; [done|].
  rewrite filter_cons, bind_cons.
  rewrite IH by (intros y Hy; apply Hf; by apply list_elem_of_further).
  destruct (decide (P x)) as [|Hn]; [by rewrite bind_cons|].
  by rewrite (Hf x) by (apply list_elem_of_here || done).
Qed.

Section Top.

Variable cfg : Config.

(** C5, as the code has it: whatever the configuration, [top_signal] is the
    signal kind of the first item of the bucket file, in the order of first
    appearance, that no item exceeds in the number of its own distinct
    users, and [top_item] is that item; both are [""] for a file without
    lines.  The user sets of the items of one kind are not united. *)
Theorem top_signal_of_widest_item (lines : list Line) :
  (item_users_of lines = [] ∧
   top_signal (bucket_stats_of cfg lines) = "" ∧
   top_item (bucket_stats_of cfg lines) = "") ∨
  (∃ e, first_widest (item_users_of lines) e ∧
        top_signal (bucket_stats_of cfg lines) = e.1.1 ∧
        top_item (bucket_stats_of cfg lines) = item_label e).
Proof.
  unfold bucket_stats_of.
  destruct (top_of_item_users lines) as [[Hnil ->]|(e & Hw & ->)].
  - left. by rewrite Hnil.
  - right. by exists e.
Qed.

(** An item with a single user increments no key of [bucket_counts]. *)
Lemma single_user_item_contributes_nothing (e : Item * gset string) :
  (size e.2 < 2)%nat → item_increments cfg e = [].
Proof.
  intros Hs. unfold item_increments.
  by destruct (Nat.ltb_spec (size e.2) 2); [|lia].
Qed.

(** C3: an item of a bucket file with more than [MAX_USERS_PER_ITEM]
    distinct users is an entry of [item_users] that increments no key of
    [bucket_counts], which is the same as for the file without that item;
    when every other item has fewer users, the item is still the
    [top_item] of the bucket and its kind the [top_signal]. *)
Theorem capped_item_contributes_nothing (lines : list Line)
    (signal value : string) :
  let users := users_of lines (signal, value) in
  (MAX_USERS_PER_ITEM cfg < size users)%nat →
  ((signal, value), users) ∈ item_users_of lines ∧
  item_increments cfg ((signal, value), users) = [] ∧
  bucket_counts_of cfg (item_users_of lines) =
    bucket_counts_of cfg
      (filter (λ e, e.1 ≠ (signal, value)) (item_users_of lines)) ∧
  (Forall (λ e, e.1 ≠ (signal, value) → (size e.2 < size users)%nat)
          (item_users_of lines) →
   top_item (bucket_stats_of cfg lines) = signal +:+ ":" +:+ value ∧
   top_signal (bucket_stats_of cfg lines) = signal).
Proof.
  intros users Hcap.
  assert (Hin : ((signal, value), users) ∈ item_users_of lines).
  { apply elem_of_item_users_of. split; [done|]. intros He.
    fold users in He. rewrite He, size_empty in Hcap. lia. }
  assert (Hnil : ∀ us, (signal, value, us) ∈ item_users_of lines →
            item_increments cfg ((signal, value), us) = []).
  { intros us [-> _]%elem_of_item_users_of. unfold item_increments. simpl.
    fold users.
    destruct (Nat.ltb_spec (size users) 2); [done|].
    by destruct (Nat.ltb_spec (MAX_USERS_PER_ITEM cfg) (size users));
      [|lia]. }
  split; [done|]. split; [by apply Hnil|]. split.
  - unfold bucket_counts_of. f_equal. apply bind_filter_nil.
    intros [k us] Hk Heq. simpl in Heq. apply dec_stable in Heq. subst k.
    by apply Hnil.
  - intros Hothers.
    unfold bucket_stats_of.
    destruct (top_of_item_users lines) as [[Hempty _]|(e & Hw & ->)].
    { rewrite Hempty in Hin. by apply elem_of_nil in Hin. }
    cbn [top_item top_signal default].
    assert (He : e = ((signal, value), users)); [|by rewrite He].
    destruct Hw as (pre & post & Hiu & Hpre & Hpost).
    rewrite Forall_forall in Hothers.
    destruct (decide (e.1 = (signal, value))) as [Hk|Hk].
    + assert (Hine : e ∈ item_users_of lines)
        by (rewrite Hiu, elem_of_app, elem_of_cons; auto).
      destruct e as [k us]. simpl in Hk. subst k.
      apply elem_of_item_users_of in Hine as [-> _]. done.
    + assert (Hine : e ∈ item_users_of lines)
        by (rewrite Hiu, elem_of_app, elem_of_cons; auto).
      pose proof (Hothers e Hine Hk) as Hsmall.
      rewrite Hiu in Hin. rewrite Forall_forall in Hpre, Hpost.
      apply elem_of_app in Hin as [Hx|[Hx|Hx]%elem_of_cons].
      * apply Hpre in Hx. simpl in Hx. lia.
      * by rewrite <- Hx in Hk.
      * apply Hpost in Hx. simpl in Hx. lia.
Qed.

End Top.

(** C5, as the spec states it, fails on a bucket file where a hashtag has
    three users and two domains have two users each, four together:
    [top_signal] is the hashtag kind, which has fewer users than the domain
    kind. *)
Lemma split_domains_top_signal :
  ¬ top_signal_is_widest_kind default_config split_domains.
Proof.
  intros H. specialize (H "A_DOM"). vm_compute in H. lia.
Qed.

Lemma capped_item_contributes_nothing_witness :
  (("B_TAG", "viral"), users_of (viral 201) ("B_TAG", "viral"))
    ∈ item_users_of (viral 201) ∧
  size (users_of (viral 201) ("B_TAG", "viral")) = 201%nat ∧
  bucket_counts_of default_config (item_users_of (viral 201)) =
    {[("u", "ui", "A_DOM") := 1]} ∧
  top_item (bucket_stats_of default_config (viral 201)) = "B_TAG:viral" ∧
  top_signal (bucket_stats_of default_config (viral 201)) = "B_TAG".
Proof.
  assert (Hcap : (MAX_USERS_PER_ITEM default_config <
                  size (users_of (viral 201) ("B_TAG", "viral")))%nat)
    by (vm_compute; lia).
  destruct (capped_item_contributes_nothing default_config (viral 201)
              "B_TAG" "viral" Hcap) as (Hin & _ & Hbc & Htop).
  split; [exact Hin|]. split; [vm_compute; reflexivity|].
  split; [rewrite Hbc; vm_compute; reflexivity|].
  apply Htop. apply (bool_decide_unpack _). vm_compute. exact I.
Defined.

(** ** Pass 4: the [sig_counts] dict *)

Lemma dict_get_add k0 n (d : list (string * Z)) k :
  dict_get k (dict_add k0 n d) =
  if decide (k = k0) then Some (default 0 (dict_get k0 d) + n)
  else dict_get k d.
Proof.
  induction d as [|[k' c] d IH]; simpl.
  - destruct (decide (k0 = k)) as [->|?].
    + by rewrite decide_True by done.
    + by rewrite decide_False by done.
  - destruct (decide (k' = k0)) as [->|Hne]; simpl.
    + destruct (decide (k0 = k)) as [->|?].
      * by rewrite decide_True by done.
      * by rewrite decide_False by done.
    + destruct (decide (k' = k)) as [->|?].
      * by rewrite decide_False by done.
      * apply IH.
Qed.

Lemma dict_add_keys k0 n (d : list (string * Z)) :
  (dict_add k0 n d).*1 = if decide (k0 ∈ d.*1) then d.*1 else d.*1 ++ [k0].
Proof.
  induction d as [|[k' c] d IH].
  - destruct (decide (k0 ∈ ([] : list (string * Z)).*1)) as [Hin|_];
      [|done].
    by apply elem_of_nil in Hin.
  - cbn [dict_add]. rewrite fmap_cons.
    destruct (decide (k' = k0)) as [->|Hne].
    + destruct (decide (k0 ∈ (k0, c).1 :: d.*1)) as [_|Hn]; [done|].
      destruct Hn. apply list_elem_of_here.
    + rewrite fmap_cons, IH.
      destruct (decide (k0 ∈ d.*1)) as [Hin|Hin];
        destruct (decide (k0 ∈ (k', c).1 :: d.*1)) as [Hin'|Hin'];
        try done.
      * destruct Hin'. by apply list_elem_of_further.
      * apply elem_of_cons in Hin' as [?|?]; done.
Qed.

Lemma group_dict_snoc (g : list PairRow) (r : PairRow) :
  group_dict (g ++ [r]) = dict_add r.1.2 r.2 (group_dict g).
Proof. unfold group_dict. by rewrite foldl_app. Qed.

Lemma group_dict_keys_NoDup (g : list PairRow) : NoDup (group_dict g).*1.
Proof.
  induction g as [|r g IH] using rev_ind; [constructor|].
  rewrite group_dict_snoc, dict_add_keys.
  destruct (decide _) as [|Hn]; [done|].
  apply NoDup_app. split; [done|]. split; [|apply NoDup_singleton].
  intros k Hk ->%list_elem_of_singleton. done.
Qed.

Lemma dict_get_elem (d : list (string * Z)) k c :
  NoDup d.*1 → (k, c) ∈ d ↔ dict_get k d = Some c.
Proof.
  induction d as [|[k' c'] d IH]; simpl.
  - intros _. split; [by intros ?%elem_of_nil|done].
  - intros [Hk Hnd]%NoDup_cons. rewrite elem_of_cons.
    destruct (decide (k' = k)) as [->|Hne].
    + split; [|intros [= ->]; by left].
      intros [[= ->]|Hin]; [done|].
      destruct Hk. apply list_elem_of_fmap. by exists (k, c).
    + rewrite <- IH by done. split; [|by right].
      intros [[= ? ?]|?]; [by subst|done].
Qed.

Lemma kind_count_snoc (g : list PairRow) (r : PairRow) s :
  kind_count (g ++ [r]) s =
  kind_count g s + (if decide (r.1.2 = s) then r.2 else 0).
Proof.
  unfold kind_count. rewrite filter_app, filter_cons, filter_nil.
  assert (Happ : ∀ l1 l2 : list PairRow,
            sum_Z snd (l1 ++ l2) = sum_Z snd l1 + sum_Z snd l2).
  { induction l1 as [|x l1 IHl]; intros l2; simpl; [done|].
    rewrite IHl. lia. }
  rewrite Happ. destruct (decide _); simpl; lia.
Qed.

Lemma kind_count_unseen (g : list PairRow) s :
  s ∉ kinds_seen g → kind_count g s = 0.
Proof.
  unfold kind_count, kinds_seen. induction g as [|x g IH]; [done|].
  rewrite fmap_cons, not_elem_of_cons. intros [Hx Hn].
  rewrite filter_cons, decide_False by done. by apply IH.
Qed.

Lemma dict_get_group_dict (g : list PairRow) s :
  dict_get s (group_dict g) =
  if decide (s ∈ kinds_seen g) then Some (kind_count g s) else None.
Proof.
  induction g as [|r g IH] using rev_ind.
  - destruct (decide (s ∈ kinds_seen [])) as [Hin|]; [|done].
    by apply elem_of_nil in Hin.
  - rewrite group_dict_snoc, dict_get_add, kind_count_snoc.
    unfold kinds_seen. rewrite fmap_app. simpl.
    destruct (decide (s = r.1.2)) as [->|Hne].
    + rewrite (decide_True (P := r.1.2 = r.1.2)) by done. rewrite IH.
      rewrite (decide_True (P := r.1.2 ∈ _ ++ _))
        by (rewrite elem_of_app, list_elem_of_singleton; auto).
      f_equal. unfold kinds_seen.
      destruct (decide (r.1.2 ∈ _)) as [|Hn]; simpl; [lia|].
      rewrite kind_count_unseen by done. lia.
    + rewrite (decide_False (P := r.1.2 = s)) by done. rewrite IH.
      rewrite Z.add_0_r. unfold kinds_seen.
      destruct (decide (s ∈ _ <$> g)) as [Hin|Hin].
      * by rewrite decide_True by (rewrite elem_of_app; auto).
      * rewrite decide_False; [done|].
        rewrite elem_of_app, list_elem_of_singleton. intros [?|?]; done.
Qed.

Section Met.

Variable cfg : Config.

(** The kinds that pass 4 finds met are the met kinds of the pair, each
    once. *)
Lemma signals_met_of_group (g : list PairRow) :
  NoDup (signals_met_of cfg (group_dict g)) ∧
  ∀ s, s ∈ signals_met_of cfg (group_dict g) ↔
       s ∈ kinds_seen g ∧ MIN_OCC cfg ≤ kind_count g s.
Proof.
  pose proof (group_dict_keys_NoDup g) as Hnd.
  unfold signals_met_of. split.
  - revert Hnd. generalize (group_dict g). intros d.
    induction d as [|[k c] d IH]; [constructor|].
    rewrite fmap_cons. intros [Hk Hnd]%NoDup_cons.
    rewrite filter_cons. destruct (decide _); [|by apply IH].
    rewrite fmap_cons. apply NoDup_cons. split; [|by apply IH].
    intros ([k' c'] & Heq & [_ Hin]%list_elem_of_filter)%list_elem_of_fmap.
    simpl in Heq. subst k'. apply Hk, list_elem_of_fmap. by exists (k, c').
  - intros s. rewrite list_elem_of_fmap. split.
    + intros ([k c] & -> & [Hc Hin]%list_elem_of_filter). simpl in *.
      apply dict_get_elem in Hin; [|done].
      rewrite dict_get_group_dict in Hin.
      destruct (decide (k ∈ kinds_seen g)); [|done].
      by simplify_eq.
    + intros [Hs Hc]. exists (s, kind_count g s). split; [done|].
      apply list_elem_of_filter. split; [done|].
      apply dict_get_elem; [done|].
      by rewrite dict_get_group_dict, decide_True.
Qed.

Lemma signals_met_size (rows : list PairRow) p :
  length (signals_met_of cfg (group_dict (rows_of_pair p rows))) =
  size (met_kinds cfg rows p).
Proof.
  destruct (signals_met_of_group (rows_of_pair p rows)) as [Hnd Hel].
  rewrite <- (size_list_to_set (C := gset string)) by done.
  f_equal. apply set_eq. intros s.
  unfold met_kinds. rewrite !elem_of_list_to_set, Hel, list_elem_of_filter.
  tauto.
Qed.

End Met.

(** ** Pass 4: the streaming loop *)

#[local] Instance pair_le_antisymm : AntiSymm (=) pair_le.
Proof.
  intros [a b] [a' b'] [H1 H2] [H3 H4]. simpl in *.
  assert (a = a') as -> by by apply (anti_symm String.le).
  f_equal. apply (anti_symm String.le); auto.
Qed.

#[local] Instance pair_le_trans : Transitive pair_le.
Proof.
  intros [a b] [a' b'] [a'' b''] [H1 H2] [H3 H4]. simpl in *.
  split; simpl; [by etrans|]. intros ->.
  assert (a' = a'') as -> by by apply (anti_symm String.le).
  etrans; auto.
Qed.

#[local] Instance pair_le_total : Total pair_le.
Proof.
  intros [a b] [a' b']. unfold pair_le. simpl.
  destruct (decide (a = a')) as [->|Hne].
  - destruct (total String.le b b'); [left|right]; by split.
  - destruct (total String.le a a'); [left|right]; by split.
Qed.

#[local] Instance row_le_trans : Transitive row_le.
Proof. intros x y z. unfold row_le. apply pair_le_trans. Qed.

#[local] Instance row_le_total : Total row_le.
Proof. intros x y. unfold row_le. apply pair_le_total. Qed.

(** The scan of the table is in the order of [ORDER BY user_a, user_b]. *)
Lemma select_pair_signal_sorted (db : gmap (string * string * string) Z) :
  StronglySorted row_le (select_pair_signal db).
Proof. apply StronglySorted_merge_sort; apply _. Qed.

Lemma select_pair_signal_rows (db : gmap (string * string * string) Z) r :
  r ∈ select_pair_signal db ↔ db !! r.1 = Some r.2.
Proof.
  unfold select_pair_signal. rewrite merge_sort_Permutation.
  destruct r as [k c]. apply elem_of_map_to_list.
Qed.

(** In a sorted scan, a key that differs from the key of the last row read
    so far has no row yet. *)
Lemma sorted_new_key (rows : list PairRow) (r : PairRow) k :
  StronglySorted row_le (rows ++ [r]) →
  last_key rows = Some k → row_key r ≠ k →
  rows_of_pair (row_key r) rows = [].
Proof.
  intros Hs Hlast Hne.
  apply StronglySorted_app in Hs as (Hle & Hs & _).
  unfold last_key in Hlast.
  destruct (last rows) as [rl|] eqn:Hl; [|done].
  simpl in Hlast. simplify_eq.
  apply last_Some in Hl as [rows' ->].
  apply StronglySorted_app in Hs as (Hle' & _ & _).
  unfold rows_of_pair.
  apply elem_of_nil_inv. intros x [Hkey Hx]%list_elem_of_filter.
  apply Hne. apply (anti_symm pair_le).
  - rewrite <- Hkey.
    apply elem_of_app in Hx as [Hx|Hx%list_elem_of_singleton];
      [|by subst x].
    apply (Hle' x rl); [done|]. apply list_elem_of_here.
  - apply (Hle rl r); [|apply list_elem_of_here].
    rewrite elem_of_app, list_elem_of_singleton. auto.
Qed.

Section Reduction.

Variable cfg : Config.

Lemma pass4_row_eq (st : Pass4State) (r : PairRow) :
  pass4_row cfg st r =
  match current st with
  | Some cur =>
      if decide (row_key r = cur)
      then {| current := Some cur;
              sig_counts := dict_add r.1.2 r.2 (sig_counts st);
              total_occ := total_occ st + r.2; out := out st |}
      else {| current := Some (row_key r);
              sig_counts := dict_add r.1.2 r.2 [];
              total_occ := 0 + r.2;
              out := decide_edge cfg cur (sig_counts st) (total_occ st)
                       (out st) |}
  | None =>
      {| current := Some (row_key r);
         sig_counts := dict_add r.1.2 r.2 (sig_counts st);
         total_occ := total_occ st + r.2; out := out st |}
  end.
Proof.
  destruct r as [[[a b] s] c], st as [[cur|] sc tot o]; simpl.
  - unfold row_key. simpl.
    destruct (decide ((a, b) ≠ cur)) as [Hne|Heq].
    + by rewrite decide_False by done.
    + apply dec_stable in Heq. by rewrite decide_True by done.
  - by rewrite decide_False by (intros H; by apply H).
Qed.

Lemma decide_edge_rows cur sc tot (o : Pass4Out) :
  ((length (signals_met_of cfg sc) < MIN_SIGNAL_KINDS cfg)%nat ∧
   rows_written (decide_edge cfg cur sc tot o) = rows_written o) ∨
  ((MIN_SIGNAL_KINDS cfg ≤ length (signals_met_of cfg sc))%nat ∧
   ∃ e, rows_written (decide_edge cfg cur sc tot o) =
          rows_written o ++ [e] ∧
        edge_key e = cur ∧ total_occurrences e = tot ∧
        num_signals e = length (signals_met_of cfg sc) ∧
        signal_counts e = sc).
Proof.
  unfold decide_edge.
  destruct (Nat.leb_spec (MIN_SIGNAL_KINDS cfg)
              (length (signals_met_of cfg sc))) as [Hle|Hlt].
  - right. split; [done|]. eexists. split; [reflexivity|].
    by destruct cur.
  - by left.
Qed.

Lemma rows_of_pair_snoc p (rows : list PairRow) (r : PairRow) :
  rows_of_pair p (rows ++ [r]) =
  rows_of_pair p rows ++ (if decide (row_key r = p) then [r] else []).
Proof.
  unfold rows_of_pair. by rewrite filter_app.
Qed.

Lemma rows_of_pair_snoc_ne p (rows : list PairRow) (r : PairRow) :
  row_key r ≠ p → rows_of_pair p (rows ++ [r]) = rows_of_pair p rows.
Proof.
  intros Hne. rewrite rows_of_pair_snoc, decide_False by done.
  apply app_nil_r.
Qed.

Lemma last_key_snoc (rows : list PairRow) (r : PairRow) :
  last_key (rows ++ [r]) = Some (row_key r).
Proof. unfold last_key. by rewrite last_snoc. Qed.

Lemma last_key_elem (rows : list PairRow) k :
  last_key rows = Some k → k ∈ row_key <$> rows.
Proof.
  unfold last_key. destruct (last rows) as [r|] eqn:Hl; [|done].
  intros [= <-]. apply last_Some in Hl as [rows' ->].
  apply list_elem_of_fmap. exists r. split; [done|].
  rewrite elem_of_app, list_elem_of_singleton. auto.
Qed.

Lemma pass4_inv_init : pass4_inv cfg [] pass4_init.
Proof.
  unfold pass4_inv. simpl.
  split; [done|]. split; [done|]. split; [done|].
  split; [constructor|]. split.
  - by intros e ?%elem_of_nil.
  - by intros p ?%elem_of_nil.
Qed.

Lemma pair_unchanged p (rows : list PairRow) (r : PairRow) :
  row_key r ≠ p →
  pair_total (rows ++ [r]) p = pair_total rows p ∧
  met_kinds cfg (rows ++ [r]) p = met_kinds cfg rows p.
Proof.
  intros Hne. unfold pair_total, met_kinds.
  by rewrite rows_of_pair_snoc_ne.
Qed.

Lemma rows_of_pair_nil p (rows : list PairRow) :
  rows_of_pair p rows = [] → p ∉ row_key <$> rows.
Proof.
  intros Hnil (x & -> & Hx)%list_elem_of_fmap.
  assert (Hin : x ∈ rows_of_pair (row_key x) rows)
    by by apply list_elem_of_filter.
  rewrite Hnil in Hin. by apply elem_of_nil in Hin.
Qed.

Lemma elem_of_keys_snoc p (rows : list PairRow) (r : PairRow) :
  p ∈ row_key <$> rows ++ [r] → p ≠ row_key r → p ∈ row_key <$> rows.
Proof.
  rewrite fmap_app, elem_of_app. simpl. rewrite list_elem_of_singleton.
  intros [?|?] ?; done.
Qed.

Lemma pass4_inv_step (rows : list PairRow) (r : PairRow) st :
  StronglySorted row_le (rows ++ [r]) →
  pass4_inv cfg rows st →
  pass4_inv cfg (rows ++ [r]) (pass4_row cfg st r).
Proof.
  intros Hs (Hcur & Hlast & Hnone & Hnd & Hall & Hex).
  rewrite pass4_row_eq, Hcur. unfold pass4_inv. rewrite last_key_snoc.
  destruct (last_key rows) as [k|] eqn:Hk.
  - destruct (Hlast k eq_refl) as (Hsc & Htot & Hnk).
    destruct (decide (row_key r = k)) as [Heq|Hne];
      cbn [current sig_counts total_occ out].
    + split; [by rewrite Heq|]. split; [|split; [done|split; [done|split]]].
      * intros k' [= <-].
        rewrite Heq at 1. rewrite rows_of_pair_snoc, decide_True by done.
        rewrite group_dict_snoc, Hsc. split; [done|]. split.
        -- unfold pair_total.
           rewrite rows_of_pair_snoc, decide_True, sum_Z_snoc by done.
           rewrite Htot. unfold pair_total. by rewrite Heq.
        -- intros e He. rewrite Heq. by apply Hnk.
      * intros e He. destruct (Hall e He) as (H1 & H2 & H3 & H4).
        destruct (pair_unchanged (edge_key e) rows r) as [-> ->].
        { rewrite Heq. intros Hc. by apply (Hnk e He). }
        split; [|done]. rewrite fmap_app, elem_of_app. auto.
      * intros p Hp Hpl Hsig.
        assert (Hpr : p ≠ row_key r) by (intros ->; done).
        destruct (pair_unchanged p rows r) as [_ Hm]; [done|].
        rewrite Hm in Hsig. apply Hex; [|by rewrite <- Heq; intros [=]|done].
        by eapply elem_of_keys_snoc.
    + pose proof (sorted_new_key rows r k Hs Hk Hne) as Hnew.
      pose proof (rows_of_pair_nil _ _ Hnew) as Hfresh.
      assert (Hmk : length (signals_met_of cfg (sig_counts st)) =
                    size (met_kinds cfg rows k))
        by (rewrite Hsc; apply signals_met_size).
      split; [done|]. split; [|split; [done|]].
      * intros k' [= <-].
        rewrite rows_of_pair_snoc, Hnew, decide_True by done.
        split; [done|]. split.
        -- unfold pair_total.
           rewrite rows_of_pair_snoc, Hnew, decide_True by done.
           simpl. lia.
        -- intros e He Hc.
           destruct (decide_edge_rows k (sig_counts st) (total_occ st)
                       (out st))
             as [[_ Hw]|(_ & e0 & Hw & Hk0 & _)]; rewrite Hw in He.
           ++ apply Hfresh. rewrite <- Hc. by apply Hall.
           ++ apply elem_of_app in He as [He|He%list_elem_of_singleton].
              ** apply Hfresh. rewrite <- Hc. by apply Hall.
              ** congruence.
      * destruct (decide_edge_rows k (sig_counts st) (total_occ st)
                    (out st))
          as [[Hlt Hw]|(Hmin & e0 & Hw & Hk0 & Ht0 & Hn0 & _)];
          rewrite Hw.
        -- split; [done|]. split.
           ++ intros e He. destruct (Hall e He) as (H1 & H2 & H3 & H4).
              destruct (pair_unchanged (edge_key e) rows r) as [-> ->].
              { intros Hc. apply Hfresh. by rewrite Hc. }
              split; [|done]. rewrite fmap_app, elem_of_app. auto.
           ++ intros p Hp Hpl Hsig.
              assert (Hpr : p ≠ row_key r) by (intros ->; done).
              destruct (pair_unchanged p rows r) as [_ Hm]; [done|].
              rewrite Hm in Hsig.
              apply Hex; [by eapply elem_of_keys_snoc| |done].
              intros [= ->]. lia.
        -- split; [|split].
           ++ rewrite fmap_app. apply NoDup_app. split; [done|].
              split; [|apply NoDup_singleton].
              intros p (e & -> & He)%list_elem_of_fmap
                       Hp%list_elem_of_singleton.
              rewrite Hk0 in Hp. by apply (Hnk e He).
           ++ intros e [He|He%list_elem_of_singleton]%elem_of_app.
              ** destruct (Hall e He) as (H1 & H2 & H3 & H4).
                 destruct (pair_unchanged (edge_key e) rows r) as [-> ->].
                 { intros Hc. apply Hfresh. by rewrite Hc. }
                 split; [|done]. rewrite fmap_app, elem_of_app. auto.
              ** subst e. rewrite Hk0.
                 destruct (pair_unchanged k rows r) as [-> ->]; [done|].
                 split; [|split; [congruence|split; [congruence|lia]]].
                 rewrite fmap_app, elem_of_app. left.
                 by apply last_key_elem.
           ++ intros p Hp Hpl Hsig.
              assert (Hpr : p ≠ row_key r) by (intros ->; done).
              destruct (decide (p = k)) as [->|Hpk].
              ** exists e0. split; [|done].
                 rewrite elem_of_app, list_elem_of_singleton. auto.
              ** destruct (pair_unchanged p rows r) as [_ Hm]; [done|].
                 rewrite Hm in Hsig.
                 destruct (Hex p) as (e & He & Hke);
                   [by eapply elem_of_keys_snoc|by intros [=]|done|].
                 exists e. split; [|done]. rewrite elem_of_app. auto.
  - destruct (Hnone eq_refl) as (Hsc & Htot & Hw).
    assert (rows = []) as ->.
    { unfold last_key in Hk. destruct rows as [|x rows] using rev_ind;
        [done|]. by rewrite last_snoc in Hk. }
    cbn [current sig_counts total_occ out]. rewrite Hsc, Htot, Hw.
    split; [done|]. split; [|split; [done|split; [constructor|split]]].
    + intros k' [= <-].
      rewrite (rows_of_pair_snoc (row_key r) [] r), decide_True by done.
      split; [done|]. split; [|by intros e ?%elem_of_nil].
      unfold pair_total.
      rewrite (rows_of_pair_snoc (row_key r) [] r), decide_True by done.
      simpl. lia.
    + by intros e ?%elem_of_nil.
    + intros p Hp%list_elem_of_singleton Hpl. by subst p.
Qed.

Lemma pass4_inv_fold (rows : list PairRow) :
  StronglySorted row_le rows →
  pass4_inv cfg rows (foldl (pass4_row cfg) pass4_init rows).
Proof.
  induction rows as [|r rows IH] using rev_ind; intros Hs.
  - apply pass4_inv_init.
  - rewrite foldl_app. simpl. apply pass4_inv_step; [done|].
    apply IH. by apply StronglySorted_app_1_l in Hs.
Qed.

(** The rows of the edge table after a sorted scan: one row at most for a
    pair, each for a pair of the scan with enough met kinds, and a row for
    every such pair. *)
Lemma pass4_rows_written (rows : list PairRow) :
  StronglySorted row_le rows →
  NoDup (edge_key <$> rows_written (pass4 cfg rows)) ∧
  (∀ e, e ∈ rows_written (pass4 cfg rows) →
        edge_key e ∈ row_key <$> rows ∧
        total_occurrences e = pair_total rows (edge_key e) ∧
        num_signals e = size (met_kinds cfg rows (edge_key e)) ∧
        (MIN_SIGNAL_KINDS cfg ≤ num_signals e)%nat) ∧
  (∀ p, p ∈ row_key <$> rows →
        (MIN_SIGNAL_KINDS cfg ≤ size (met_kinds cfg rows p))%nat →
        ∃ e, e ∈ rows_written (pass4 cfg rows) ∧ edge_key e = p).
Proof.
  intros Hs.
  destruct (pass4_inv_fold rows Hs)
    as (Hcur & Hlast & Hnone & Hnd & Hall & Hex).
  unfold pass4. rewrite Hcur.
  destruct (last_key rows) as [k|] eqn:Hk.
  - destruct (Hlast k eq_refl) as (Hsc & Htot & Hnk).
    assert (Hmk : length (signals_met_of cfg
                            (sig_counts (foldl (pass4_row cfg) pass4_init
                                           rows))) =
                  size (met_kinds cfg rows k))
      by (rewrite Hsc; apply signals_met_size).
    destruct (decide_edge_rows k
                (sig_counts (foldl (pass4_row cfg) pass4_init rows))
                (total_occ (foldl (pass4_row cfg) pass4_init rows))
                (out (foldl (pass4_row cfg) pass4_init rows)))
      as [[Hlt Hw]|(Hmin & e0 & Hw & Hk0 & Ht0 & Hn0 & _)]; rewrite Hw.
    + split; [done|]. split; [done|].
      intros p Hp Hsig. apply Hex; [done| |done].
      intros [= ->]. lia.
    + split; [|split].
      * rewrite fmap_app. apply NoDup_app. split; [done|].
        split; [|apply NoDup_singleton].
        intros p (e & -> & He)%list_elem_of_fmap Hp%list_elem_of_singleton.
        rewrite Hk0 in Hp. by apply (Hnk e He).
      * intros e [He|He%list_elem_of_singleton]%elem_of_app;
          [by apply Hall|].
        subst e. rewrite Hk0.
        split; [by apply last_key_elem|].
        split; [congruence|]. split; [congruence|lia].
      * intros p Hp Hsig. destruct (decide (p = k)) as [->|Hpk].
        -- exists e0. split; [|done].
           rewrite elem_of_app, list_elem_of_singleton. auto.
        -- destruct (Hex p) as (e & He & Hke); [done|by intros [=]|done|].
           exists e. split; [|done]. rewrite elem_of_app. auto.
  - destruct (Hnone eq_refl) as (_ & _ & Hw). rewrite Hw.
    split; [constructor|]. split; [by intros e ?%elem_of_nil|].
    intros p Hp Hsig. rewrite <- Hw. apply Hex; [done| |done]. intros [=].
Qed.

(** C1: in the reduction of a scan in the order of
    [ORDER BY user_a, user_b], a pair of the scan has a row in the edge
    table if and only if at least [MIN_SIGNAL_KINDS] distinct signal kinds
    (two) each have an accumulated count of at least [MIN_OCC]; the pair has
    one row at most, its [total_occurrences] is the sum of the counts of all
    the signal kinds of the pair, met or not, and its [num_signals] is the
    number of the met kinds. *)
Theorem reduction_emits_significant_pairs (rows : list PairRow)
    (p : string * string) :
  StronglySorted row_le rows →
  p ∈ row_key <$> rows →
  ((∃ e, e ∈ rows_written (pass4 cfg rows) ∧ edge_key e = p) ↔
   (MIN_SIGNAL_KINDS cfg ≤ size (met_kinds cfg rows p))%nat) ∧
  (∀ e, e ∈ rows_written (pass4 cfg rows) → edge_key e = p →
        total_occurrences e = pair_total rows p ∧
        num_signals e = size (met_kinds cfg rows p)) ∧
  NoDup (edge_key <$> rows_written (pass4 cfg rows)).
Proof.
  intros Hs Hp. destruct (pass4_rows_written rows Hs) as (Hnd & Hall & Hex).
  split; [split|split; [|done]].
  - intros (e & He & <-). destruct (Hall e He) as (_ & _ & <- & ?). done.
  - by apply Hex.
  - intros e He <-. destruct (Hall e He) as (_ & ? & ? & _). done.
Qed.

End Reduction.

Lemma reduction_emits_significant_pairs_witness :
  ((∃ e, e ∈ rows_written (pass4 default_config sample_scan) ∧
         edge_key e = ("A", "B")) ↔
   (MIN_SIGNAL_KINDS default_config ≤
    size (met_kinds default_config sample_scan ("A", "B")))%nat) ∧
  (∀ e, e ∈ rows_written (pass4 default_config sample_scan) →
        edge_key e = ("A", "B") →
        total_occurrences e = pair_total sample_scan ("A", "B") ∧
        num_signals e =
          size (met_kinds default_config sample_scan ("A", "B"))) ∧
  NoDup (edge_key <$> rows_written (pass4 default_config sample_scan)).
Proof.
  apply (reduction_emits_significant_pairs default_config sample_scan
           ("A", "B")).
  - apply (bool_decide_unpack _). vm_compute. exact I.
  - apply (bool_decide_unpack _). vm_compute. exact I.
Defined.

(** ** Pass 4 under two configurations *)

Lemma edges_written_decide_edge cfg cur sc tot (o : Pass4Out) :
  edges_written o = Z.of_nat (length (rows_written o)) →
  edges_written (decide_edge cfg cur sc tot o) =
  Z.of_nat (length (rows_written (decide_edge cfg cur sc tot o))).
Proof.
  intros Ho. unfold decide_edge. destruct (_ <=? _)%nat; [|done].
  simpl. rewrite length_app. simpl. lia.
Qed.

Lemma edges_written_fold cfg (rows : list PairRow) :
  edges_written (out (foldl (pass4_row cfg) pass4_init rows)) =
  Z.of_nat (length (rows_written
                      (out (foldl (pass4_row cfg) pass4_init rows)))).
Proof.
  induction rows as [|r rows IH] using rev_ind; [done|].
  rewrite foldl_app. simpl. rewrite pass4_row_eq.
  destruct (current _); [destruct (decide _)|]; simpl; try done.
  by apply edges_written_decide_edge.
Qed.

(** [edges_written] counts the rows of the edge table. *)
Lemma edges_written_count cfg (rows : list PairRow) :
  edges_written (pass4 cfg rows) =
  Z.of_nat (length (rows_written (pass4 cfg rows))).
Proof.
  unfold pass4. pose proof (edges_written_fold cfg rows).
  destruct (current _); [|done]. by apply edges_written_decide_edge.
Qed.

Section Thresholds.

Variables cfg cfg' : Config.
Hypothesis Hocc : MIN_OCC cfg ≤ MIN_OCC cfg'.
Hypothesis Hkinds : (MIN_SIGNAL_KINDS cfg ≤ MIN_SIGNAL_KINDS cfg')%nat.

Lemma signals_met_of_antitone (sc : list (string * Z)) :
  (length (signals_met_of cfg' sc) ≤ length (signals_met_of cfg sc))%nat.
Proof.
  unfold signals_met_of. rewrite !length_fmap.
  induction sc as [|[s c] sc IH]; [done|].
  rewrite !filter_cons. simpl.
  destruct (decide (MIN_OCC cfg' ≤ c)); destruct (decide (MIN_OCC cfg ≤ c));
    simpl; lia.
Qed.

Lemma decide_edge_antitone cur sc tot (o o' : Pass4Out) :
  edge_key <$> rows_written o' `sublist_of` edge_key <$> rows_written o →
  edge_key <$> rows_written (decide_edge cfg' cur sc tot o')
    `sublist_of` edge_key <$> rows_written (decide_edge cfg cur sc tot o).
Proof.
  intros Hsub. pose proof (signals_met_of_antitone sc) as Hlen.
  destruct (decide_edge_rows cfg' cur sc tot o')
    as [[Hlt' ->]|(Hmin' & e' & -> & Hk' & _)];
    destruct (decide_edge_rows cfg cur sc tot o)
      as [[Hlt ->]|(Hmin & e & -> & Hk & _)].
  - done.
  - rewrite fmap_app. by apply sublist_inserts_r.
  - lia.
  - rewrite !fmap_app. apply sublist_app; [done|].
    simpl. by rewrite Hk, Hk'.
Qed.

Lemma pass4_fold_antitone (rows : list PairRow) :
  let st := foldl (pass4_row cfg) pass4_init rows in
  let st' := foldl (pass4_row cfg') pass4_init rows in
  current st' = current st ∧ sig_counts st' = sig_counts st ∧
  total_occ st' = total_occ st ∧
  edge_key <$> rows_written (out st')
    `sublist_of` edge_key <$> rows_written (out st).
Proof.
  induction rows as [|r rows IH] using rev_ind; [done|].
  simpl in *. rewrite !foldl_app. simpl.
  destruct IH as (Hc & Hs & Ht & Hsub).
  rewrite !pass4_row_eq, Hc, Hs, Ht.
  destruct (current (foldl (pass4_row cfg) pass4_init rows)) as [cur|];
    [destruct (decide (row_key r = cur))|]; simpl; try done.
  repeat split; try done. by apply decide_edge_antitone.
Qed.

(** C7: on the same scan, a configuration with a greater or equal
    [MIN_OCC] and a greater or equal minimum number of signal kinds writes
    the edges of a subsequence of the pairs, so no more edges. *)
Theorem edges_antitone_in_thresholds (rows : list PairRow) :
  edge_key <$> rows_written (pass4 cfg' rows)
    `sublist_of` edge_key <$> rows_written (pass4 cfg rows) ∧
  (length (rows_written (pass4 cfg' rows)) ≤
   length (rows_written (pass4 cfg rows)))%nat ∧
  edges_written (pass4 cfg' rows) ≤ edges_written (pass4 cfg rows).
Proof.
  assert (Hsub : edge_key <$> rows_written (pass4 cfg' rows)
            `sublist_of` edge_key <$> rows_written (pass4 cfg rows)).
  { unfold pass4.
    destruct (pass4_fold_antitone rows) as (Hc & Hs & Ht & Hsub).
    rewrite Hc, Hs, Ht.
    destruct (current (foldl (pass4_row cfg) pass4_init rows)); [|done].
    by apply decide_edge_antitone. }
  pose proof (sublist_length _ _ Hsub) as Hlen.
  rewrite !length_fmap in Hlen.
  split; [done|]. split; [done|]. rewrite !edges_written_count. lia.
Qed.

End Thresholds.

Lemma edges_antitone_in_thresholds_witness :
  edge_key <$> rows_written (pass4 strict_config sample_scan)
    `sublist_of`
    edge_key <$> rows_written (pass4 default_config sample_scan) ∧
  (length (rows_written (pass4 strict_config sample_scan)) ≤
   length (rows_written (pass4 default_config sample_scan)))%nat ∧
  edges_written (pass4 strict_config sample_scan) ≤
  edges_written (pass4 default_config sample_scan).
Proof.
  apply (edges_antitone_in_thresholds default_config strict_config);
    vm_compute; [discriminate|lia].
Defined.


(** * Further properties *)

(** ** [extract_items] *)

Lemma add_items_eq (items : list Item) signal (values : list string) :
  add_items items signal values =
  items ++ (pair signal <$> filter (λ v, v ≠ "") values).
Proof.
  unfold add_items. revert items.
  induction values as [|v values IH]; intros items; simpl.
  - by rewrite app_nil_r.
  - rewrite IH, filter_cons.
    destruct (String.eqb_spec v "") as [->|Hv].
    + by rewrite decide_False by (intros H; by apply H).
    + rewrite decide_True by done. by rewrite <- app_assoc.
Qed.

Lemma add_opt_eq (items : list Item) signal (o : option string) :
  add_opt items signal o =
  items ++ match o with
           | Some v => if decide (v = "") then [] else [(signal, v)]
           | None => []
           end.
Proof.
  unfold add_opt, truthy. destruct o as [v|]; [|by rewrite app_nil_r].
  destruct (String.eqb_spec v "") as [->|Hv];
    destruct (decide (_ = "")) as [?|?]; try done.
  simpl. by rewrite app_nil_r.
Qed.

Lemma elem_of_add_opt signal (o : option string) (key : Item) :
  key ∈ match o with
        | Some v => if decide (v = "") then [] else [(signal, v)]
        | None => []
        end ↔
  key.1 = signal ∧ truthy_value o key.2.
Proof.
  unfold truthy_value. destruct key as [s v]. simpl.
  destruct o as [w|]; [destruct (decide (w = "")) as [->|Hw]|].
  - rewrite elem_of_nil. split; [done|]. intros (_ & [= ->] & ?). done.
  - rewrite list_elem_of_singleton. split.
    + by intros [= -> ->].
    + by intros (-> & [= ->] & _).
  - rewrite elem_of_nil. split; [done|]. by intros (_ & ? & _).
Qed.

Lemma elem_of_kind_values signal (values : list string) (key : Item) :
  key ∈ pair signal <$> filter (λ v, v ≠ "") values ↔
  key.1 = signal ∧ key.2 ∈ values ∧ key.2 ≠ "".
Proof.
  destruct key as [s v]. simpl. rewrite list_elem_of_fmap. split.
  - intros (w & [= -> ->] & [Hw Hin]%list_elem_of_filter). done.
  - intros (-> & Hin & Hv). exists v. split; [done|].
    by apply list_elem_of_filter.
Qed.

Lemma py_or_truthy (x y : option string) v :
  truthy_value (py_or x y) v ↔
  truthy_value x v ∨ (truthy x = false ∧ truthy_value y v).
Proof.
  unfold py_or, truthy_value. destruct (truthy x) eqn:Hx.
  - split; [auto|]. intros [?|[? _]]; done.
  - split; [auto|]. intros [[-> Hv]|[_ ?]]; [|done].
    simpl in Hx. by destruct (String.eqb_spec v "").
Qed.

Lemma extract_items_spec (r : Record_) (key : Item) :
  key ∈ extract_items r ↔
  (key.1 = "A_URL" ∧ key.2 ∈ urls r ∧ key.2 ≠ "") ∨
  (key.1 = "A_DOM" ∧ key.2 ∈ domains r ∧ key.2 ≠ "") ∨
  (key.1 = "B_TAG" ∧ key.2 ∈ hashtags r ∧ key.2 ≠ "") ∨
  (key.1 = "C_MENT" ∧ key.2 ∈ mentions r ∧ key.2 ≠ "") ∨
  (key.1 = "D_RETWEET" ∧ truthy_value (retweeted_tweet_id r) key.2) ∨
  (key.1 = "D_QUOTE" ∧ truthy_value (quoted_tweet_id r) key.2) ∨
  (key.1 = "E_CONV" ∧
   (truthy_value (conversation_id r) key.2 ∨
    (truthy (conversation_id r) = false ∧
     truthy_value (video_id r) key.2))) ∨
  (key.1 = "E_REPLY" ∧ truthy_value (in_reply_to_status_id_str r) key.2).
Proof.
  unfold extract_items. rewrite !add_opt_eq, !add_items_eq.
  rewrite !elem_of_app, !elem_of_add_opt, !elem_of_kind_values.
  rewrite py_or_truthy, elem_of_nil. tauto.
Qed.

(** X1: the items of a record are its non-empty URLs, domains, hashtags and
    mentions and its non-empty retweet, quote, conversation and reply ids,
    each under its own signal kind; the conversation item holds the
    conversation id, or the video id when the conversation id is missing or
    empty. *)
Theorem elem_of_extract_items (r : Record_) (key : Item) :
  key ∈ extract_items r ↔
  (key.1 = "A_URL" ∧ key.2 ∈ urls r ∧ key.2 ≠ "") ∨
  (key.1 = "A_DOM" ∧ key.2 ∈ domains r ∧ key.2 ≠ "") ∨
  (key.1 = "B_TAG" ∧ key.2 ∈ hashtags r ∧ key.2 ≠ "") ∨
  (key.1 = "C_MENT" ∧ key.2 ∈ mentions r ∧ key.2 ≠ "") ∨
  (key.1 = "D_RETWEET" ∧ truthy_value (retweeted_tweet_id r) key.2) ∨
  (key.1 = "D_QUOTE" ∧ truthy_value (quoted_tweet_id r) key.2) ∨
  (key.1 = "E_CONV" ∧
   (truthy_value (conversation_id r) key.2 ∨
    (truthy (conversation_id r) = false ∧
     truthy_value (video_id r) key.2))) ∨
  (key.1 = "E_REPLY" ∧ truthy_value (in_reply_to_status_id_str r) key.2).
Proof. apply extract_items_spec. Qed.

(** Every item has a non-empty value and one of the eight kinds. *)
Lemma extract_items_kinds (r : Record_) (key : Item) :
  key ∈ extract_items r → key.1 ∈ signal_kinds ∧ key.2 ≠ "".
Proof.
  unfold signal_kinds. rewrite extract_items_spec.
  unfold truthy_value. intros H.
  repeat (destruct H as [H|H]); destruct H as (-> & H);
    (split;
     [repeat first [apply list_elem_of_here|apply list_elem_of_further]
     |tauto]).
Qed.

(** ** [to_bip_item] *)

Lemma startswith_app (p s : string) : startswith p (p +:+ s) = true.
Proof.
  induction p as [|a p IH]; simpl; [done|].
  by rewrite Ascii.eqb_refl, IH.
Qed.

(** X2: an item id made by [to_bip_item] starts with one of the five
    prefixes that the top-clusters report filters the neighbours by. *)
Theorem to_bip_item_is_bip_item (signal value item_id : string) :
  to_bip_item signal value = Some item_id → is_bip_item item_id = true.
Proof.
  unfold to_bip_item, is_bip_item.
  destruct (String.eqb value ""); [done|].
  repeat (match goal with
          | |- context [String.eqb signal ?s] => destruct (String.eqb signal s)
          end;
          [intros [= <-]; rewrite startswith_app;
           by rewrite ?orb_true_r, ?orb_true_l|]).
  done.
Qed.

(** X3: [to_bip_item] maps different items to different item ids. *)
Theorem to_bip_item_inj (s1 v1 s2 v2 item_id : string) :
  to_bip_item s1 v1 = Some item_id →
  to_bip_item s2 v2 = Some item_id →
  s1 = s2 ∧ v1 = v2.
Proof.
  unfold to_bip_item.
  destruct (String.eqb v1 ""); [done|].
  destruct (String.eqb v2 ""); [done|].
  repeat (match goal with
          | |- context [String.eqb s1 ?s] =>
              destruct (String.eqb_spec s1 s) as [->|?]
          end; [intros [= <-]|]); try done;
  repeat (match goal with
          | |- context [String.eqb s2 ?s] =>
              destruct (String.eqb_spec s2 s) as [->|?]
          end; [intros [= ?]; by simplify_eq|]); done.
Qed.

Lemma to_bip_item_is_bip_item_witness :
  is_bip_item "MENT:@bob" = true.
Proof.
  apply (to_bip_item_is_bip_item "C_MENT" "bob"). reflexivity.
Defined.

Lemma to_bip_item_inj_witness : "B_TAG" = "B_TAG" ∧ "x" = "x".
Proof.
  apply (to_bip_item_inj "B_TAG" "x" "B_TAG" "x" "TAG:#x"); reflexivity.
Defined.

(** ** [parse_ts] *)

Lemma replace_Z_app (s1 s2 : string) :
  replace_Z (s1 +:+ s2) = replace_Z s1 +:+ replace_Z s2.
Proof.
  induction s1 as [|c s1 IH]; simpl; [done|].
  rewrite IH. by destruct (Ascii.eqb c "Z").
Qed.

Lemma app_not_empty (s1 s2 : string) : s2 ≠ "" → s1 +:+ s2 ≠ "".
Proof. destruct s1; simpl; [done|]. intros _ [=]. Qed.

Section ParseTs.

Variable fromisoformat_utc : string → option Z.

(** X4: a timestamp that ends in [Z] is read as the same timestamp ending
    in [+00:00]. *)
Theorem parse_ts_Z_suffix (s : string) :
  parse_ts fromisoformat_utc (Some (s +:+ "Z")) =
  parse_ts fromisoformat_utc (Some (s +:+ "+00:00")).
Proof.
  unfold parse_ts.
  destruct (String.eqb_spec (s +:+ "Z") "") as [He|_];
    [by apply app_not_empty in He|].
  destruct (String.eqb_spec (s +:+ "+00:00") "") as [He|_];
    [by apply app_not_empty in He|].
  by rewrite !replace_Z_app.
Qed.

End ParseTs.

(** ** The keep-set *)

Lemma counter_add_positive `{Countable K} (m : gmap K Z) (k : K) n :
  0 < n → map_Forall (λ _ c, 0 < c) m →
  map_Forall (λ _ c, 0 < c) (counter_add k n m).
Proof.
  intros Hn Hm. unfold counter_add. apply map_Forall_insert_2; [|done].
  destruct (m !! k) as [c|] eqn:Hk; simpl; [|lia].
  pose proof (Hm k c Hk). simpl in *. lia.
Qed.

Section KeepSet.

Variable fromisoformat_utc : string → option Z.
Variable cfg : Config.

Lemma pass1_positive_from (records : list Record_) (m : gmap Item Z) :
  map_Forall (λ _ c, 0 < c) m →
  map_Forall (λ _ c, 0 < c)
    (foldl (pass1_record fromisoformat_utc) m records).
Proof.
  revert m. induction records as [|r records IH]; intros m Hm; [done|].
  simpl. apply IH. unfold pass1_record.
  destruct (parse_ts _ _); [|done].
  revert m Hm. induction (extract_items r) as [|key items IHi];
    intros m Hm; [done|].
  simpl. apply IHi. by apply counter_add_positive.
Qed.

(** Every count of the [Counter] of pass 1 is positive. *)
Lemma pass1_positive (records : list Record_) :
  map_Forall (λ _ c, 0 < c) (pass1 fromisoformat_utc records).
Proof. apply pass1_positive_from, map_Forall_empty. Qed.

Lemma elem_of_kept_items_of (m : gmap Item Z) key :
  key ∈ kept_items_of cfg m ↔
  ∃ c, m !! key = Some c ∧ MIN_ITEM_FREQ cfg ≤ c.
Proof.
  unfold kept_items_of. rewrite elem_of_dom. split.
  - intros [c [Hc ?]%map_lookup_filter_Some]. by exists c.
  - intros (c & Hc & ?). exists c. by apply map_lookup_filter_Some.
Qed.

Lemma kept_items_weight (records : list Record_) key :
  key ∈ kept_items_of cfg (pass1 fromisoformat_utc records) ↔
  0 < sum_Z (pass1_weight fromisoformat_utc key) records ∧
  MIN_ITEM_FREQ cfg ≤ sum_Z (pass1_weight fromisoformat_utc key) records.
Proof.
  rewrite elem_of_kept_items_of, <- pass1_count. unfold count_of. split.
  - intros (c & Hc & Hmin). rewrite Hc. simpl. split; [|done].
    by apply (pass1_positive records key c).
  - intros [Hpos Hmin].
    destruct (pass1 fromisoformat_utc records !! key) as [c|];
      simpl in *; [by exists c|lia].
Qed.

(** X5: an item is in the keep-set if and only if it occurs in a record
    with a parseable timestamp and the number of its occurrences in such
    records is at least [MIN_ITEM_FREQ]. *)
Theorem kept_items_spec (records : list Record_) key :
  key ∈ kept_items_of cfg (pass1 fromisoformat_utc records) ↔
  0 < sum_Z (pass1_weight fromisoformat_utc key) records ∧
  MIN_ITEM_FREQ cfg ≤ sum_Z (pass1_weight fromisoformat_utc key) records.
Proof. apply kept_items_weight. Qed.

Lemma sum_Z_app {A} (f : A → Z) (l1 l2 : list A) :
  sum_Z f (l1 ++ l2) = sum_Z f l1 + sum_Z f l2.
Proof. induction l1 as [|x l1 IH]; simpl; [done|]. rewrite IH. lia. Qed.

Lemma pass1_weight_nonneg key (records : list Record_) :
  0 ≤ sum_Z (pass1_weight fromisoformat_utc key) records.
Proof.
  induction records as [|r records IH]; simpl; [done|].
  unfold pass1_weight at 1, occurrences. destruct (parse_ts _ _); lia.
Qed.

(** X6: records added to the input never take an item out of the
    keep-set. *)
Theorem kept_items_grow (records more : list Record_) :
  kept_items_of cfg (pass1 fromisoformat_utc records) ⊆
  kept_items_of cfg (pass1 fromisoformat_utc (records ++ more)).
Proof.
  intros key. rewrite !kept_items_weight, sum_Z_app.
  pose proof (pass1_weight_nonneg key more). lia.
Qed.

End KeepSet.

(** ** Pass 2 *)

Section Pass2.

Variable fromisoformat_utc : string → option Z.
Variable cfg : Config.
Variable kept_items : gset Item.

Lemma elem_of_pass2_record (files : gmap Z (list Line)) r b line :
  line ∈ default [] (pass2_record fromisoformat_utc cfg kept_items files r
                       !! b) ↔
  line ∈ default [] (files !! b) ∨
  writes_line fromisoformat_utc cfg kept_items r b line.
Proof.
  unfold pass2_record, writes_line.
  destruct (parse_ts _ _) as [ts|];
    [|split; [auto|]; by intros [?|(? & ? & _)]].
  destruct (author_id r) as [user|];
    [|split; [auto|]; by intros [?|(? & _ & _ & ? & _)]].
  unfold truthy. destruct (String.eqb_spec user "") as [->|Hu]; simpl.
  { split; [auto|]. intros [?|(? & _ & _ & [= <-] & ? & _)]; done. }
  destruct (extract_items r) as [|i items] eqn:Hi.
  { split; [auto|]. intros [?|(? & _ & _ & _ & _ & Hin & _)]; [done|].
    by apply elem_of_nil in Hin. }
  rewrite <- Hi. clear Hi.
  destruct (decide (ts `div` WINDOW_SECS cfg = b)) as [<-|Hb].
  - rewrite lookup_insert_eq. simpl. rewrite elem_of_app.
    rewrite list_elem_of_fmap. split.
    + intros [?|([s v] & -> & [Hk Hin]%list_elem_of_filter)]; [auto|].
      right. exists ts. simpl. done.
    + intros [?|(ts' & [= <-] & _ & [= Hu'] & _ & Hin & Hk)]; [auto|].
      right. exists (line.1.1, line.1.2). rewrite Hu'. split.
      * by destruct line as [[??]?].
      * by apply list_elem_of_filter.
  - rewrite lookup_insert_ne by done. split; [auto|].
    intros [?|(ts' & [= <-] & ? & _)]; done.
Qed.

Lemma elem_of_pass2_from (records : list Record_)
    (files : gmap Z (list Line)) b line :
  line ∈ default [] (foldl (pass2_record fromisoformat_utc cfg kept_items)
                       files records !! b) ↔
  line ∈ default [] (files !! b) ∨
  ∃ r, r ∈ records ∧
       writes_line fromisoformat_utc cfg kept_items r b line.
Proof.
  revert files. induction records as [|r records IH]; intros files; simpl.
  - split; [auto|]. intros [?|(r & Hr & _)]; [done|].
    by apply elem_of_nil in Hr.
  - rewrite IH, elem_of_pass2_record. split.
    + intros [[?|?]|(r' & ? & ?)]; [auto| |].
      * right. exists r. split; [apply list_elem_of_here|done].
      * right. exists r'. split; [by apply list_elem_of_further|done].
    + intros [?|(r' & [->|?]%elem_of_cons & ?)]; [auto|auto|].
      right. by exists r'.
Qed.

(** X7: a line [(signal, value, user)] is in the bucket file [b] if and
    only if some record has a parseable timestamp of that bucket, the
    non-empty user, and the item [(signal, value)], which is in the
    keep-set. *)
Theorem elem_of_pass2 (records : list Record_) b line :
  line ∈ default [] (pass2 fromisoformat_utc cfg kept_items records !! b) ↔
  ∃ r, r ∈ records ∧
       writes_line fromisoformat_utc cfg kept_items r b line.
Proof.
  unfold pass2. rewrite elem_of_pass2_from, lookup_empty. simpl.
  rewrite elem_of_nil. tauto.
Qed.

(** X8: with a positive window, the timestamp of the event behind a line of
    the bucket file [b] lies in [[b * WINDOW_SECS, (b + 1) * WINDOW_SECS)). *)
Theorem bucket_window (records : list Record_) b line :
  0 < WINDOW_SECS cfg →
  line ∈ default [] (pass2 fromisoformat_utc cfg kept_items records !! b) →
  ∃ r ts, r ∈ records ∧
          parse_ts fromisoformat_utc (published_at r) = Some ts ∧
          author_id r = Some line.2 ∧
          b * WINDOW_SECS cfg ≤ ts < (b + 1) * WINDOW_SECS cfg.
Proof.
  intros Hw Hin. apply elem_of_pass2_from in Hin as [Hin|Hin].
  { rewrite lookup_empty in Hin. by apply elem_of_nil in Hin. }
  destruct Hin as (r & Hr & ts & Hts & <- & Hu & _).
  exists r, ts. repeat split; try done.
  - rewrite Z.mul_comm. by apply Z.mul_div_le.
  - pose proof (Z.mul_succ_div_gt ts (WINDOW_SECS cfg) Hw). lia.
Qed.

End Pass2.

Lemma bucket_window_witness :
  ∃ r ts, r ∈ four_posts ∧
          parse_ts sample_fromisoformat (published_at r) = Some ts ∧
          author_id r = Some "u1" ∧
          0 * WINDOW_SECS default_config ≤ ts
            < (0 + 1) * WINDOW_SECS default_config.
Proof.
  apply (bucket_window sample_fromisoformat default_config
           {[("B_TAG", "x")]} four_posts 0 ("B_TAG", "x", "u1")).
  - reflexivity.
  - vm_compute. apply list_elem_of_here.
Defined.

(** ** Pass 3a: the per-bucket counts *)

Lemma String_ltb_le_ne (a b : string) :
  String.ltb a b = true → String.le a b ∧ a ≠ b.
Proof.
  unfold String.le, String.leb, String.ltb.
  destruct (String.compare a b) eqn:Hc; try done. intros _.
  split; [done|]. intros ->.
  pose proof (String.compare_antisym b b) as Ha.
  rewrite Hc in Ha. done.
Qed.

Lemma pairs_from_split signal (l1 l2 l3 : list string) a b :
  (a, b, signal) ∈ pairs_from (l1 ++ a :: l2 ++ b :: l3) signal.
Proof.
  induction l1 as [|x l1 IH]; simpl.
  - apply elem_of_app. left. apply list_elem_of_fmap. exists b.
    split; [done|]. rewrite elem_of_app, elem_of_cons. auto.
  - apply elem_of_app. by right.
Qed.

Lemma sorted_pair (users : gset string) signal a b :
  a ∈ users → b ∈ users → String.ltb a b = true →
  (a, b, signal) ∈ pairs_from (sorted users) signal.
Proof.
  intros Ha Hb Hlt. apply String_ltb_le_ne in Hlt as [Hle Hne].
  apply elem_of_sorted, list_elem_of_split in Ha as (l1 & r & Hs).
  assert (Hb' : b ∈ sorted users) by by apply elem_of_sorted.
  rewrite Hs in Hb'.
  apply elem_of_app in Hb' as [Hb'|[Hb'|Hb']%elem_of_cons];
    [|by subst b|].
  - apply list_elem_of_split in Hb' as (l0 & l2 & ->).
    rewrite <- app_assoc in Hs. simpl in Hs.
    apply sorted_split_lt, String_ltb_le_ne in Hs as [Hle' _].
    destruct Hne. by apply (anti_symm String.le).
  - apply list_elem_of_split in Hb' as (l2 & l3 & ->).
    rewrite Hs. apply pairs_from_split.
Qed.

Lemma size_two (users : gset string) a b :
  a ∈ users → b ∈ users → a ≠ b → (2 ≤ size users)%nat.
Proof.
  intros Ha Hb Hne.
  assert (Hsub : ({[a]} ∪ {[b]} : gset string) ⊆ users).
  { intros x [Hx%elem_of_singleton|Hx%elem_of_singleton]%elem_of_union;
      by subst x. }
  apply subseteq_size in Hsub. rewrite size_union in Hsub.
  - by rewrite !size_singleton in Hsub.
  - intros x Hx%elem_of_singleton ?%elem_of_singleton. by subst x.
Qed.

Section BucketCounts.

Variable cfg : Config.

Lemma item_increments_NoDup (e : Item * gset string) :
  NoDup (item_increments cfg e).
Proof.
  unfold item_increments.
  destruct (_ <? _)%nat; [constructor|].
  destruct (_ <? _)%nat; [constructor|].
  rewrite index_pairs_pairs_from. apply pairs_from_NoDup, sorted_NoDup.
Qed.

Lemma elem_of_item_increments (e : Item * gset string) a b s :
  (a, b, s) ∈ item_increments cfg e ↔
  String.ltb a b = true ∧ e.1.1 = s ∧ a ∈ e.2 ∧ b ∈ e.2 ∧
  (size e.2 ≤ MAX_USERS_PER_ITEM cfg)%nat.
Proof.
  unfold item_increments.
  destruct (Nat.ltb_spec (size e.2) 2) as [Hlt|Hge].
  { rewrite elem_of_nil. split; [done|].
    intros (Hab%String_ltb_le_ne & _ & Ha & Hb & _).
    pose proof (size_two e.2 a b Ha Hb (proj2 Hab)). lia. }
  destruct (Nat.ltb_spec (MAX_USERS_PER_ITEM cfg) (size e.2)) as [Hcap|Hcap].
  { rewrite elem_of_nil. split; [done|]. intros (_ & _ & _ & _ & ?). lia. }
  rewrite index_pairs_pairs_from. split.
  - intros (-> & l1 & l2 & l3 & Hs)%elem_of_pairs_from.
    split; [by eapply sorted_split_lt|]. split; [done|].
    split; [|split; [|done]]; apply elem_of_sorted; rewrite Hs.
    + rewrite elem_of_app, elem_of_cons. auto.
    + rewrite elem_of_app, elem_of_cons, elem_of_app, elem_of_cons. auto.
  - intros (Hlt & <- & Ha & Hb & _). by apply sorted_pair.
Qed.

Lemma bucket_count_shared (iu : list (Item * gset string)) a b s :
  count_of (bucket_counts_of cfg iu) (a, b, s) =
  if String.ltb a b then Z.of_nat (length (shared_items cfg iu a b s))
  else 0.
Proof.
  unfold bucket_counts_of. rewrite count_of_incr_all.
  unfold count_of at 1. rewrite lookup_empty. simpl.
  rewrite occurrences_bind, Z.add_0_l. unfold shared_items.
  induction iu as [|e iu IH]; simpl sum_Z.
  - by destruct (String.ltb a b).
  - rewrite IH, filter_cons.
    rewrite occurrences_NoDup_in by apply item_increments_NoDup.
    destruct (decide ((a, b, s) ∈ item_increments cfg e)) as [Hin|Hin];
      rewrite elem_of_item_increments in Hin.
    + destruct Hin as (-> & Hin). rewrite decide_True by done.
      simpl length. lia.
    + destruct (String.ltb a b) eqn:Hlt; [|done].
      rewrite decide_False by tauto. lia.
Qed.

(** X9: the count of the key [(a, b, s)] in [bucket_counts] is the number
    of items of kind [s] in the bucket file that both [a] and [b] posted
    and that are within the cap, when [a < b]; no key with [a >= b] is
    counted. *)
Theorem bucket_counts_shared_items (lines : list Line) a b s :
  count_of (bucket_counts_of cfg (item_users_of lines)) (a, b, s) =
  if String.ltb a b
  then Z.of_nat (length (shared_items cfg (item_users_of lines) a b s))
  else 0.
Proof. apply bucket_count_shared. Qed.

End BucketCounts.

(** ** Pass 3a: the [pair_signal] table *)

Lemma filter_key_NoDup `{EqDecision K} {V} (l : list (K * V)) k :
  NoDup l.*1 →
  filter (λ r, r.1 = k) l =
  match list_find (λ r, r.1 = k) l with
  | Some (_, r) => [r]
  | None => []
  end.
Proof.
  induction l as [|[k' v] l IH]; intros Hnd; [done|].
  rewrite fmap_cons in Hnd. apply NoDup_cons in Hnd as [Hk Hnd].
  rewrite filter_cons. simpl.
  destruct (decide (k' = k)) as [->|Hne]; simpl.
  - f_equal. apply elem_of_nil_inv.
    intros [k2 v2] [Hk2 Hin]%list_elem_of_filter.
    simpl in Hk2. subst k2. apply Hk, list_elem_of_fmap. by exists (k, v2).
  - rewrite IH by done. by destruct (list_find _ l) as [[??]|].
Qed.

Lemma sum_map_to_list_key `{Countable K} (m : gmap K Z) k :
  sum_Z snd (filter (λ r, r.1 = k) (map_to_list m)) = count_of m k.
Proof.
  unfold count_of.
  destruct (m !! k) as [c|] eqn:Hk.
  - assert (Hf : filter (λ r : K * Z, r.1 = k) (map_to_list m) = [(k, c)]).
    { rewrite filter_key_NoDup by apply NoDup_fst_map_to_list.
      destruct (list_find _ _) as [[i [k' c']]|] eqn:Hf.
      - apply list_find_Some in Hf as (Hi%list_elem_of_lookup_2 & Hk' & _).
        simpl in Hk'. subst k'. apply elem_of_map_to_list in Hi.
        by simplify_eq.
      - apply list_find_None in Hf. rewrite Forall_forall in Hf.
        destruct (Hf (k, c)); [|done]. by apply elem_of_map_to_list. }
    rewrite Hf. simpl. lia.
  - assert (Hf : filter (λ r : K * Z, r.1 = k) (map_to_list m) = []).
    { apply elem_of_nil_inv. intros [k' c] [Hk' Hin]%list_elem_of_filter.
      simpl in Hk'. subst k'. apply elem_of_map_to_list in Hin. congruence. }
    by rewrite Hf.
Qed.

Section Store.

Variable cfg : Config.

Lemma pass3a_fold_count (l : list (Z * list Line)) st k :
  count_of (foldl (pass3a_bucket cfg) st l).1 k =
  count_of st.1 k +
  sum_Z (λ f, count_of (bucket_counts_of cfg (item_users_of f.2)) k) l.
Proof.
  revert st. induction l as [|f l IH]; intros st; [simpl; lia|].
  cbn [foldl]. rewrite IH. unfold pass3a_bucket. cbn [fst snd].
  rewrite count_of_upsert_all, sum_map_to_list_key. simpl sum_Z. lia.
Qed.

(** X10: the count of a key in [pair_signal] is the sum of its counts in
    the buckets: the upsert adds what each bucket file contributes. *)
Theorem pair_signal_sums_buckets (files : gmap Z (list Line)) k :
  count_of (pass3a cfg files).1 k =
  sum_Z (λ f, count_of (bucket_counts_of cfg (item_users_of f.2)) k)
        (map_to_list files).
Proof.
  unfold pass3a. rewrite pass3a_fold_count. unfold count_of at 1.
  simpl. rewrite lookup_empty. simpl. lia.
Qed.

Lemma bucket_counts_canonical (iu : list (Item * gset string)) :
  map_Forall (λ (k : string * string * string) c,
                String.ltb k.1.1 k.1.2 = true ∧ 0 < c)
             (bucket_counts_of cfg iu).
Proof.
  unfold bucket_counts_of.
  assert (Hkeys : Forall (λ k : string * string * string,
                            String.ltb k.1.1 k.1.2 = true)
                         (iu ≫= item_increments cfg)).
  { apply Forall_forall. intros [[a b] s] (e & Hin & _)%list_elem_of_bind.
    by apply elem_of_item_increments in Hin as [? _]. }
  revert Hkeys. generalize (iu ≫= item_increments cfg).
  intros l Hl.
  assert (Hgen : ∀ m : gmap (string * string * string) Z,
            map_Forall (λ k c, String.ltb k.1.1 k.1.2 = true ∧ 0 < c) m →
            map_Forall (λ k c, String.ltb k.1.1 k.1.2 = true ∧ 0 < c)
              (foldl (λ bc k, counter_add k 1 bc) m l)).
  { induction Hl as [|k l Hk Hl IH]; intros m Hm; [done|].
    simpl. apply IH. unfold counter_add.
    apply map_Forall_insert_2; [|done]. split; [done|].
    destruct (m !! k) as [c|] eqn:Hc; simpl; [|lia].
    destruct (Hm k c Hc). lia. }
  apply Hgen, map_Forall_empty.
Qed.

Lemma upsert_all_canonical (rows : list (string * string * string * Z))
    (db : gmap (string * string * string) Z) :
  Forall (λ r, String.ltb r.1.1.1 r.1.1.2 = true ∧ 0 < r.2) rows →
  map_Forall (λ k c, String.ltb k.1.1 k.1.2 = true ∧ 0 < c) db →
  map_Forall (λ k c, String.ltb k.1.1 k.1.2 = true ∧ 0 < c)
             (upsert_all db rows).
Proof.
  unfold upsert_all. intros Hrows. revert db.
  induction Hrows as [|[k c] rows [Hk Hc] Hrows IH]; intros db Hdb; [done|].
  simpl. apply IH. unfold counter_add.
  apply map_Forall_insert_2; [|done]. split; [done|]. simpl in *.
  destruct (db !! k) as [c0|] eqn:Hc0; simpl; [|lia].
  destruct (Hdb k c0 Hc0). lia.
Qed.

(** X11: every row of [pair_signal] has [user_a < user_b] and a positive
    count. *)
Theorem pair_signal_canonical (files : gmap Z (list Line)) a b s c :
  (pass3a cfg files).1 !! (a, b, s) = Some c →
  String.ltb a b = true ∧ 0 < c.
Proof.
  unfold pass3a.
  assert (Hgen : ∀ l st,
            map_Forall (λ (k : string * string * string) c,
                          String.ltb k.1.1 k.1.2 = true ∧ 0 < c) st.1 →
            map_Forall (λ (k : string * string * string) c,
                          String.ltb k.1.1 k.1.2 = true ∧ 0 < c)
                       (foldl (pass3a_bucket cfg) st l).1).
  { induction l as [|f l IH]; intros st Hst; [done|].
    simpl. apply IH. unfold pass3a_bucket. simpl.
    apply upsert_all_canonical; [|done].
    apply Forall_forall. intros [k c'] Hin%elem_of_map_to_list.
    by apply (bucket_counts_canonical (item_users_of f.2) k c'). }
  intros Hl.
  apply (Hgen (map_to_list files) (∅, ∅) (map_Forall_empty _)
           (a, b, s) c Hl).
Qed.

(** ** Pass 3a: the bucket statistics *)

Lemma item_increments_length (e : Item * gset string) :
  length (item_increments cfg e) =
  if (2 <=? size e.2)%nat && (size e.2 <=? MAX_USERS_PER_ITEM cfg)%nat
  then ((size e.2 * (size e.2 - 1)) `div` 2)%nat else 0%nat.
Proof.
  unfold item_increments.
  destruct (Nat.ltb_spec (size e.2) 2) as [Hlt|Hge];
    destruct (Nat.leb_spec 2 (size e.2)) as [?|?]; try lia; [done|].
  destruct (Nat.ltb_spec (MAX_USERS_PER_ITEM cfg) (size e.2));
    destruct (Nat.leb_spec (size e.2) (MAX_USERS_PER_ITEM cfg));
    try lia; [done|].
  cbn [andb]. rewrite index_pairs_pairs_from.
  pose proof (pairs_from_length e.1.1 (sorted e.2)) as Hl.
  rewrite sorted_length in Hl. apply Nat.div_unique_exact; lia.
Qed.

Lemma num_edges_created_of_length (iu : list (Item * gset string)) :
  num_edges_created_of cfg iu = length (iu ≫= item_increments cfg).
Proof.
  unfold num_edges_created_of.
  assert (Hgen : ∀ acc,
            foldl (λ acc (e : Item * gset string),
                     let n := size e.2 in
                     if (2 <=? n)%nat && (n <=? MAX_USERS_PER_ITEM cfg)%nat
                     then (acc + (n * (n - 1)) `div` 2)%nat else acc)
                  acc iu =
            (acc + length (iu ≫= item_increments cfg))%nat).
  { induction iu as [|e iu IH]; intros acc; [simpl; lia|].
    cbn [foldl]. rewrite IH, bind_cons, length_app, item_increments_length.
    cbn zeta. destruct (_ && _); lia. }
  apply Hgen.
Qed.

(** X12: [num_coord_edges_created] of a bucket is the number of increments
    that the bucket makes to [bucket_counts]. *)
Theorem edges_created_counts_increments (lines : list Line) :
  num_coord_edges_created (bucket_stats_of cfg lines) =
  length (item_users_of lines ≫= item_increments cfg).
Proof.
  unfold bucket_stats_of. destruct (top_of _) as [[[? ?] ?] ?]. simpl.
  apply num_edges_created_of_length.
Qed.

End Store.

Lemma pair_signal_canonical_witness :
  String.ltb "A" "B" = true ∧ 0 < 1.
Proof.
  apply (pair_signal_canonical default_config {[0 := one_window]}
           "A" "B" "A_DOM" 1).
  vm_compute. reflexivity.
Defined.

(** ** Pass 3b: the counts of [user_item] *)

Lemma to_bip_item_not_empty signal value item_id :
  to_bip_item signal value = Some item_id → item_id ≠ "".
Proof.
  unfold to_bip_item. destruct (String.eqb value ""); [done|].
  repeat (match goal with
          | |- context [String.eqb signal ?s] =>
              destruct (String.eqb signal s)
          end; [by intros [= <-]|]).
  done.
Qed.

Section UserItem.

Variable fromisoformat_utc : string → option Z.
Variable kept_items : gset Item.

Lemma item_entries_count (u user item_id : string) (items : list Item) :
  sum_Z snd
    (filter (λ e : string * string * Z, e.1 = (user, item_id))
       (items ≫= λ key,
          if decide (key ∈ kept_items) then
            match to_bip_item key.1 key.2 with
            | Some i => if String.eqb i "" then [] else [(u, i, 1)]
            | None => []
            end
          else [])) =
  if decide (u = user)
  then Z.of_nat (length (filter
                           (λ key : Item,
                              key ∈ kept_items ∧
                              to_bip_item key.1 key.2 = Some item_id)
                           items))
  else 0.
Proof.
  induction items as [|key items IH].
  - by destruct (decide (u = user)).
  - rewrite bind_cons, filter_app, sum_Z_app, IH, (filter_cons _ key).
    clear IH. destruct (decide (key ∈ kept_items)) as [Hk|Hk].
    + destruct (to_bip_item key.1 key.2) as [i|] eqn:Hb.
      * pose proof (to_bip_item_not_empty _ _ _ Hb) as Hi.
        destruct (String.eqb_spec i "") as [?|_]; [done|].
        rewrite filter_cons, filter_nil. simpl.
        destruct (decide (u = user)) as [->|Hu].
        -- destruct (decide (i = item_id)) as [->|Hne].
           ++ rewrite (decide_True (P := (_, _) = _)) by done.
              rewrite (decide_True (P := _ ∧ _)) by done.
              simpl. lia.
           ++ rewrite (decide_False (P := (_, _) = _))
                by (intros ?; by simplify_eq).
              rewrite (decide_False (P := _ ∧ _))
                by (intros [_ ?]; by simplify_eq).
              simpl. lia.
        -- rewrite (decide_False (P := (_, _) = _))
             by (intros ?; by simplify_eq).
           simpl. lia.
      * rewrite filter_nil.
        rewrite (decide_False (P := _ ∧ _)) by (intros [_ ?]; done).
        destruct (decide (u = user)); simpl; lia.
    + rewrite filter_nil.
      rewrite (decide_False (P := _ ∧ _)) by (intros [? _]; done).
      destruct (decide (u = user)); simpl; lia.
Qed.

Lemma pass3b_entries_count (user item_id : string) (r : Record_) :
  sum_Z snd (filter (λ e : string * string * Z, e.1 = (user, item_id))
               (pass3b_entries fromisoformat_utc kept_items r)) =
  bip_occurrences fromisoformat_utc kept_items user item_id r.
Proof.
  unfold pass3b_entries, bip_occurrences, is_event.
  destruct (parse_ts _ _) as [ts|].
  2:{ rewrite bool_decide_eq_false_2 by (intros [? ?]; done). done. }
  rewrite bool_decide_eq_true_2 by by eexists.
  destruct (author_id r) as [u|]; [|done].
  destruct (truthy (Some u)) eqn:Hu; simpl; [|done].
  rewrite item_entries_count.
  destruct (decide (u = user)) as [->|Hne].
  - by rewrite bool_decide_eq_true_2.
  - by rewrite bool_decide_eq_false_2 by (intros [= ?]; done).
Qed.

Lemma sum_filter_bind {A} (P : string * string * Z → Prop)
    `{!∀ e, Decision (P e)} (f : A → list (string * string * Z))
    (l : list A) :
  sum_Z snd (filter P (l ≫= f)) = sum_Z (λ x, sum_Z snd (filter P (f x))) l.
Proof.
  induction l as [|x l IH]; [done|].
  rewrite bind_cons, filter_app, sum_Z_app, IH. done.
Qed.

Section Batches.

Variables cfg cfg' : Config.

(** X13: the [user_item] table does not depend on [batch_size]: the
    flushes of the batch only group the upserts. *)
Theorem user_item_any_batch_size (records : list Record_) :
  pass3b fromisoformat_utc cfg kept_items records =
  pass3b fromisoformat_utc cfg' kept_items records.
Proof. by rewrite !pass3b_unbatched. Qed.

(** X14: the count of [(user, item_id)] in [user_item] is the number of
    kept items of the events of [user] that [to_bip_item] maps to
    [item_id], an item counting once for each time an event lists it. *)
Theorem user_item_count (records : list Record_) (user item_id : string) :
  count_of (pass3b fromisoformat_utc cfg kept_items records)
           (user, item_id) =
  sum_Z (bip_occurrences fromisoformat_utc kept_items user item_id) records.
Proof.
  rewrite pass3b_unbatched, count_of_upsert_all. unfold count_of at 1.
  rewrite lookup_empty. simpl. rewrite sum_filter_bind, Z.add_0_l.
  induction records as [|r records IH]; [done|].
  simpl. by rewrite IH, pass3b_entries_count.
Qed.

End Batches.

End UserItem.

(** ** [sorted(..., reverse=True)] and the order of the reports *)

Section SortedDesc.

Context {A : Type} (key : A → Z).

Lemma insert_desc_Permutation (x : A) (l : list A) :
  insert_desc key x l ≡ₚ x :: l.
Proof.
  induction l as [|y l IH]; simpl; [done|].
  destruct (key y <? key x); [done|].
  by rewrite IH, Permutation_swap.
Qed.

Lemma sorted_desc_fold_Permutation (l acc : list A) :
  foldl (λ acc x, insert_desc key x acc) acc l ≡ₚ acc ++ l.
Proof.
  revert acc. induction l as [|x l IH]; intros acc; simpl.
  - by rewrite app_nil_r.
  - rewrite IH, insert_desc_Permutation. simpl. apply Permutation_middle.
Qed.

Lemma sorted_desc_Permutation (l : list A) : sorted_desc key l ≡ₚ l.
Proof. unfold sorted_desc. by rewrite sorted_desc_fold_Permutation. Qed.

Lemma insert_desc_sorted (x : A) (l : list A) :
  StronglySorted (λ a b, key b ≤ key a) l →
  StronglySorted (λ a b, key b ≤ key a) (insert_desc key x l).
Proof.
  induction 1 as [|y l Hl IH Hy]; simpl; [repeat constructor|].
  destruct (Z.ltb_spec (key y) (key x)) as [Hlt|Hge].
  - constructor; [by constructor|].
    constructor; [lia|]. eapply Forall_impl; [exact Hy|].
    simpl. intros. lia.
  - constructor; [done|].
    rewrite insert_desc_Permutation. by constructor.
Qed.

Lemma sorted_desc_fold_sorted (l acc : list A) :
  StronglySorted (λ a b, key b ≤ key a) acc →
  StronglySorted (λ a b, key b ≤ key a)
    (foldl (λ acc x, insert_desc key x acc) acc l).
Proof.
  revert acc. induction l as [|x l IH]; intros acc Hacc; [done|].
  simpl. by apply IH, insert_desc_sorted.
Qed.

Lemma sorted_desc_sorted (l : list A) :
  StronglySorted (λ a b, key b ≤ key a) (sorted_desc key l).
Proof. apply sorted_desc_fold_sorted. constructor. Qed.

Lemma insert_desc_filter (k : Z) (x : A) (l : list A) :
  StronglySorted (λ a b, key b ≤ key a) l →
  filter (λ a, key a = k) (insert_desc key x l) =
  filter (λ a, key a = k) l ++ filter (λ a, key a = k) [x].
Proof.
  induction 1 as [|y l Hl IH Hy]; simpl; [done|].
  destruct (Z.ltb_spec (key y) (key x)) as [Hlt|Hge].
  - rewrite (filter_cons _ x), (filter_cons _ x []), filter_nil.
    destruct (decide (key x = k)) as [Hk|Hk]; [|by rewrite app_nil_r].
    assert (Hnone : filter (λ a, key a = k) (y :: l) = []).
    { apply elem_of_nil_inv. intros z [Hz Hin]%list_elem_of_filter.
      apply elem_of_cons in Hin as [->|Hin]; [lia|].
      rewrite Forall_forall in Hy. specialize (Hy z Hin). simpl in Hy.
      lia. }
    by rewrite Hnone.
  - rewrite !(filter_cons _ y), IH.
    by destruct (decide (key y = k)).
Qed.

Lemma sorted_desc_fold_filter (k : Z) (l acc : list A) :
  StronglySorted (λ a b, key b ≤ key a) acc →
  filter (λ a, key a = k) (foldl (λ acc x, insert_desc key x acc) acc l) =
  filter (λ a, key a = k) (acc ++ l).
Proof.
  revert acc. induction l as [|x l IH]; intros acc Hacc; simpl.
  - by rewrite app_nil_r.
  - rewrite IH by by apply insert_desc_sorted.
    rewrite !filter_app, insert_desc_filter by done.
    by rewrite <- app_assoc, <- filter_app.
Qed.

(** The elements of equal key keep their order. *)
Lemma sorted_desc_stable (k : Z) (l : list A) :
  filter (λ a, key a = k) (sorted_desc key l) = filter (λ a, key a = k) l.
Proof. apply (sorted_desc_fold_filter k l []). constructor. Qed.

End SortedDesc.

Lemma StronglySorted_weaken {A} (R1 R2 : relation A) (l : list A) :
  (∀ x y, R1 x y → R2 x y) → StronglySorted R1 l → StronglySorted R2 l.
Proof.
  intros HR. induction 1 as [|x l Hl IH Hx]; constructor; [done|].
  eapply Forall_impl; [exact Hx|]. apply HR.
Qed.

Section ReportOrder.

Variable connected_components : list GEdge → list (list string).
Variable cfg : Config.

(** X15: the cluster table lists the clusters of the components by
    descending size, clusters of equal size in the order of the
    components; it is empty when the graph has no node or more than
    [MAX_EDGES_FOR_GRAPH] edges were written. *)
Theorem cluster_table_order (o : Pass4Out) :
  let all := cluster_of (G o) <$> enumerate (connected_components (G o)) in
  let rows := clusters_of connected_components cfg o in
  (number_of_nodes (G o) = 0%nat ∨
   MAX_EDGES_FOR_GRAPH cfg < edges_written o → rows = []) ∧
  ((0 < number_of_nodes (G o))%nat →
   edges_written o ≤ MAX_EDGES_FOR_GRAPH cfg →
   rows ≡ₚ all ∧
   StronglySorted (λ r1 r2, (cluster_size r2 ≤ cluster_size r1)%nat) rows ∧
   ∀ n, filter (λ r, cluster_size r = n) rows =
        filter (λ r, cluster_size r = n) all).
Proof.
  intros all rows. unfold rows, clusters_of. split.
  - intros [Hn|He].
    + rewrite Hn. done.
    + destruct (Z.leb_spec (edges_written o) (MAX_EDGES_FOR_GRAPH cfg));
        [lia|]. by rewrite andb_false_r.
  - intros Hn He.
    destruct (Nat.ltb_spec 0 (number_of_nodes (G o))); [|lia].
    destruct (Z.leb_spec (edges_written o) (MAX_EDGES_FOR_GRAPH cfg));
      [|lia].
    simpl. split; [apply sorted_desc_Permutation|]. split.
    + eapply StronglySorted_weaken;
        [|apply (sorted_desc_sorted (λ c, Z.of_nat (cluster_size c)))].
      simpl. intros. lia.
    + intros n.
      pose proof (sorted_desc_stable (λ c, Z.of_nat (cluster_size c))
                    (Z.of_nat n) all) as Hst.
      rewrite !(list_filter_iff (λ r, cluster_size r = n)
                  (λ c, Z.of_nat (cluster_size c) = Z.of_nat n))
        by (intros; lia).
      exact Hst.
Qed.

End ReportOrder.

(** ** [",".join] and [split(",")] *)

Lemma string_app_nil_r (s : string) : s +:+ "" = s.
Proof.
  induction s as [|c s IH]; [done|].
  change (String c (s +:+ "") = String c s). by rewrite IH.
Qed.

Lemma rev_app_app (t1 t2 u : string) :
  String.rev_app t1 t2 +:+ u = String.rev_app t1 (t2 +:+ u).
Proof.
  revert t2. induction t1 as [|a t1 IH]; intros t2; [done|].
  change (String.rev_app t1 (String a t2) +:+ u =
          String.rev_app t1 (String a (t2 +:+ u))).
  by rewrite IH.
Qed.

Lemma split_go_comma_free (s cur : string) :
  comma_free s → split_go cur s = [String.rev cur +:+ s].
Proof.
  revert cur. induction s as [|c s IH]; intros cur; cbn.
  - intros _. by rewrite string_app_nil_r.
  - intros [Hc Hs]. destruct (Ascii.eqb_spec c ",") as [?|_]; [done|].
    rewrite IH by done. f_equal. unfold String.rev. cbn.
    by rewrite !rev_app_app.
Qed.

Lemma split_go_app (s t cur : string) :
  comma_free s →
  split_go cur (s +:+ "," +:+ t) = (String.rev cur +:+ s) :: split_go "" t.
Proof.
  revert cur. induction s as [|c s IH]; intros cur.
  - intros _. change ("" +:+ "," +:+ t) with (String "," t).
    cbn [split_go]. rewrite Ascii.eqb_refl. by rewrite string_app_nil_r.
  - intros [Hc Hs].
    change (String c s +:+ "," +:+ t) with (String c (s +:+ "," +:+ t)).
    cbn [split_go]. destruct (Ascii.eqb_spec c ",") as [?|_]; [done|].
    rewrite IH by done. f_equal. unfold String.rev. cbn.
    by rewrite !rev_app_app.
Qed.

Lemma split_comma_join (x : string) (l : list string) :
  Forall comma_free (x :: l) →
  split_comma (join "," (x :: l)) = x :: l.
Proof.
  unfold split_comma. revert x. induction l as [|y l IH]; intros x Hl.
  - apply Forall_cons in Hl as [Hx _]. cbn.
    by rewrite split_go_comma_free.
  - apply Forall_cons in Hl as [Hx Hl].
    change (join "," (x :: y :: l)) with (x +:+ "," +:+ join "," (y :: l)).
    rewrite split_go_app by done. cbn. f_equal.
    by apply IH.
Qed.

(** X16: splitting at the commas the comma-joined string of a list of
    non-empty strings without commas, and dropping the empty pieces as the
    cluster loop does, gives the list back. *)
Theorem split_join_round_trip (l : list string) :
  Forall (λ s, comma_free s ∧ s ≠ "") l →
  filter (λ s, s ≠ "") (split_comma (join "," l)) = l.
Proof.
  intros Hl. destruct l as [|x l]; [done|].
  rewrite split_comma_join.
  - induction Hl as [|y k [_ Hy] Hk IH]; [done|].
    by rewrite filter_cons, decide_True, IH.
  - eapply Forall_impl; [exact Hl|]. by intros s [? _].
Qed.

Lemma split_join_round_trip_witness :
  filter (λ s, s ≠ "") (split_comma (join "," ["A_DOM"; "B_TAG"])) =
  ["A_DOM"; "B_TAG"].
Proof.
  apply (split_join_round_trip ["A_DOM"; "B_TAG"]).
  repeat constructor; done.
Defined.

(** ** The time-window report *)

Section TimeWindows.

Variable connected_components : list GEdge → list (list string).
Variable cfg : Config.

Lemma sorted_keys_strict (m : gmap Z BucketStats) :
  StronglySorted Z.lt (merge_sort Z.le (map_to_list m).*1).
Proof.
  assert (Hs : StronglySorted Z.le (merge_sort Z.le (map_to_list m).*1)).
  { apply StronglySorted_merge_sort; [apply _|].
    intros x y. destruct (Z.le_ge_cases x y); auto. }
  assert (Hnd : NoDup (merge_sort Z.le (map_to_list m).*1)).
  { rewrite merge_sort_Permutation. apply NoDup_fst_map_to_list. }
  revert Hs Hnd. generalize (merge_sort Z.le (map_to_list m).*1).
  intros l. induction 1 as [|x l Hl IH Hx]; intros Hnd; [constructor|].
  apply NoDup_cons in Hnd as [Hx' Hnd]. constructor; [by apply IH|].
  apply Forall_forall. intros y Hy. rewrite Forall_forall in Hx.
  specialize (Hx y Hy). assert (x ≠ y) by (intros ->; done). lia.
Qed.

Lemma time_window_of_in_range (b : Z) (st : BucketStats) :
  window_in_range cfg b →
  time_window_of cfg (b, st) = Some (window_row cfg (b, st)).
Proof.
  intros [[H1 H2] [H3 H4]]. unfold time_window_of, fromtimestamp_utc.
  cbn [fst snd].
  destruct (Z.leb_spec MIN_TIMESTAMP (b * WINDOW_SECS cfg)); [|lia].
  destruct (Z.leb_spec (b * WINDOW_SECS cfg) MAX_TIMESTAMP); [|lia].
  destruct (Z.leb_spec MIN_TIMESTAMP
              (b * WINDOW_SECS cfg + WINDOW_SECS cfg)); [|lia].
  destruct (Z.leb_spec (b * WINDOW_SECS cfg + WINDOW_SECS cfg)
              MAX_TIMESTAMP); [|lia].
  reflexivity.
Qed.

Lemma time_window_of_out_of_range (b : Z) (st : BucketStats) :
  ¬ window_in_range cfg b → time_window_of cfg (b, st) = None.
Proof.
  intros Hn. unfold time_window_of, fromtimestamp_utc. cbn [fst snd].
  destruct (Z.leb_spec MIN_TIMESTAMP (b * WINDOW_SECS cfg)); [|done].
  destruct (Z.leb_spec (b * WINDOW_SECS cfg) MAX_TIMESTAMP); [|done].
  destruct (Z.leb_spec MIN_TIMESTAMP
              (b * WINDOW_SECS cfg + WINDOW_SECS cfg)); [|done].
  destruct (Z.leb_spec (b * WINDOW_SECS cfg + WINDOW_SECS cfg)
              MAX_TIMESTAMP); [|done].
  destruct Hn. unfold window_in_range. lia.
Qed.

Lemma write_rows_all {A B} (f : A → option B) (g : A → B) (l : list A) :
  (∀ x, x ∈ l → f x = Some (g x)) → write_rows f l = (g <$> l, true).
Proof.
  induction l as [|x l IH]; intros Hf; [done|].
  simpl. rewrite (Hf x) by apply list_elem_of_here.
  rewrite IH by (intros y Hy; apply Hf; by apply list_elem_of_further).
  done.
Qed.

Lemma write_rows_stops {A B} (f : A → option B) (l : list A) x :
  x ∈ l → f x = None →
  (write_rows f l).2 = false ∧
  (length (write_rows f l).1 < length l)%nat.
Proof.
  induction l as [|y l IH]; intros Hx Hf; [by apply elem_of_nil in Hx|].
  simpl. destruct (f y) as [row|] eqn:Hy; [|simpl; split; [done|lia]].
  apply elem_of_cons in Hx as [->|Hx]; [congruence|].
  destruct (IH Hx Hf) as [H2 Hlen]. simpl. split; [done|lia].
Qed.

(** The loop of the time-window report when every window is in range. *)
Lemma time_windows_written (bucket_stats : gmap Z BucketStats) :
  (∀ b, b ∈ dom bucket_stats → window_in_range cfg b) →
  write_rows
    (λ k, time_window_of cfg
            (k, default {| active_users := 0; num_coord_edges_created := 0;
                           top_signal := ""; top_item := "" |}
                  (bucket_stats !! k)))
    (merge_sort Z.le (map_to_list bucket_stats).*1) =
  ((λ k, window_row cfg
           (k, default {| active_users := 0; num_coord_edges_created := 0;
                          top_signal := ""; top_item := "" |}
                 (bucket_stats !! k))) <$>
     merge_sort Z.le (map_to_list bucket_stats).*1, true).
Proof.
  intros Hr. apply write_rows_all. intros b Hb.
  apply time_window_of_in_range, Hr.
  rewrite merge_sort_Permutation in Hb.
  apply list_elem_of_fmap in Hb as ([b' st] & -> & Hin).
  apply elem_of_map_to_list in Hin. apply elem_of_dom. by eexists.
Qed.

(** X17: with a positive window and every window within the years that
    [datetime] has, the report step returns and the time-window report has
    one row for each bucket of [bucket_stats], holding the statistics of
    the bucket, in strictly ascending order of [bucket_start], and every
    row ends [WINDOW_SECS] after its start. *)
Theorem time_window_report (o : Pass4Out)
    (user_item : gmap (string * string) Z)
    (bucket_stats : gmap Z BucketStats) :
  0 < WINDOW_SECS cfg →
  (∀ b, b ∈ dom bucket_stats → window_in_range cfg b) →
  ∃ res tw,
    reports connected_components cfg o user_item bucket_stats =
      Returned res ∧
    OUT_TIME_WINDOWS res = Some tw ∧
    length tw = size bucket_stats ∧
    StronglySorted (λ r1 r2, bucket_start r1 < bucket_start r2) tw ∧
    Forall (λ r, bucket_end r = bucket_start r + WINDOW_SECS cfg) tw ∧
    ∀ b bs, bucket_stats !! b = Some bs → window_row cfg (b, bs) ∈ tw.
Proof.
  intros Hw Hr. unfold reports.
  rewrite (time_windows_written bucket_stats Hr). cbn [fst snd].
  eexists _, _. split; [reflexivity|]. split; [reflexivity|].
  split; [|split; [|split]].
  - by rewrite length_fmap, merge_sort_Permutation, length_fmap,
      length_map_to_list.
  - eapply (StronglySorted_fmap _ Z.lt); [|apply sorted_keys_strict].
    intros x y Hxy. simpl. nia.
  - apply Forall_fmap, Forall_forall. by intros b _.
  - intros b bs Hb. apply list_elem_of_fmap. exists b.
    rewrite Hb. split; [done|].
    rewrite merge_sort_Permutation. apply list_elem_of_fmap.
    exists (b, bs). split; [done|]. by apply elem_of_map_to_list.
Qed.

(** X20: when the window of some bucket is not within the years that
    [datetime] has, the report step is ended by the exception of
    [fromtimestamp]: the reports before the time-window report are
    written, and the time-window report holds fewer rows than there are
    buckets. *)
Theorem time_window_report_raises (o : Pass4Out)
    (user_item : gmap (string * string) Z)
    (bucket_stats : gmap Z BucketStats) (b : Z) :
  b ∈ dom bucket_stats → ¬ window_in_range cfg b →
  ∃ res tw,
    reports connected_components cfg o user_item bucket_stats =
      Raised res ∧
    OUT_EDGES res = Some (rows_written o) ∧
    is_Some (OUT_CLUSTERS res) ∧ is_Some (OUT_TOP_EDGES res) ∧
    OUT_TIME_WINDOWS res = Some tw ∧
    (length tw < size bucket_stats)%nat.
Proof.
  intros Hb Hn. unfold reports.
  destruct (write_rows_stops
              (λ k, time_window_of cfg
                 (k, default {| active_users := 0;
                                num_coord_edges_created := 0;
                                top_signal := ""; top_item := "" |}
                       (bucket_stats !! k)))
              (merge_sort Z.le (map_to_list bucket_stats).*1) b)
    as [H2 Hlen].
  - rewrite merge_sort_Permutation. apply elem_of_dom in Hb as [st Hst].
    apply list_elem_of_fmap. exists (b, st). split; [done|].
    by apply elem_of_map_to_list.
  - by apply time_window_of_out_of_range.
  - rewrite H2. eexists _, _. split; [reflexivity|]. cbn.
    split; [done|]. split; [by eexists|]. split; [by eexists|].
    split; [reflexivity|].
    assert (Hs : length (merge_sort Z.le (map_to_list bucket_stats).*1) =
                 size bucket_stats)
      by (by rewrite merge_sort_Permutation, length_fmap,
            length_map_to_list).
    by rewrite Hs in Hlen.
Qed.

End TimeWindows.

Lemma time_window_report_witness :
  ∃ res tw,
    reports sample_components default_config (out pass4_init) ∅
      {[0 := bucket_stats_of default_config one_window]} = Returned res ∧
    OUT_TIME_WINDOWS res = Some tw ∧
    length tw = size ({[0 := bucket_stats_of default_config one_window]}
                        : gmap Z BucketStats) ∧
    StronglySorted (λ r1 r2, bucket_start r1 < bucket_start r2) tw ∧
    Forall (λ r, bucket_end r =
                 bucket_start r + WINDOW_SECS default_config) tw ∧
    ∀ b bs,
      ({[0 := bucket_stats_of default_config one_window]}
         : gmap Z BucketStats) !! b = Some bs →
      window_row default_config (b, bs) ∈ tw.
Proof.
  apply (time_window_report sample_components default_config);
    [reflexivity|].
  intros b Hb. rewrite dom_singleton_L in Hb.
  apply elem_of_singleton in Hb as ->. vm_compute.
  repeat split; discriminate.
Defined.

Lemma time_window_report_raises_witness :
  ∃ res tw,
    reports sample_components default_config (out pass4_init) ∅
      {[last_bucket := bucket_stats_of default_config one_window]} =
      Raised res ∧
    OUT_EDGES res = Some (rows_written (out pass4_init)) ∧
    is_Some (OUT_CLUSTERS res) ∧ is_Some (OUT_TOP_EDGES res) ∧
    OUT_TIME_WINDOWS res = Some tw ∧
    (length tw <
     size ({[last_bucket := bucket_stats_of default_config one_window]}
             : gmap Z BucketStats))%nat.
Proof.
  apply (time_window_report_raises sample_components default_config
           _ _ _ last_bucket).
  - rewrite dom_singleton_L. by apply elem_of_singleton.
  - intros [_ [_ H]]. vm_compute in H. by apply H.
Defined.

(** ** The coordination graph *)

Lemma add_edge_fresh (g : list GEdge) u v w s :
  Forall (λ e, same_edge u v e = false) g →
  add_edge g u v w s = g ++ [(u, v, w, s)].
Proof.
  induction 1 as [|e g He Hg IH]; simpl; [done|].
  by rewrite He, IH.
Qed.

Lemma String_ltb_asym (a b : string) :
  String.ltb a b = true → String.ltb b a = true → False.
Proof.
  intros [H1 Hne]%String_ltb_le_ne [H2 _]%String_ltb_le_ne.
  apply Hne. by apply (anti_symm String.le).
Qed.

Section Graph.

Variable cfg : Config.

Lemma decide_edge_eq cur sc tot (o : Pass4Out) :
  (length (signals_met_of cfg sc) < MIN_SIGNAL_KINDS cfg)%nat ∧
  decide_edge cfg cur sc tot o = o ∨
  (MIN_SIGNAL_KINDS cfg ≤ length (signals_met_of cfg sc))%nat ∧
  rows_written (decide_edge cfg cur sc tot o) =
    rows_written o ++ [edge_row cfg cur sc tot] ∧
  edges_written (decide_edge cfg cur sc tot o) = edges_written o + 1 ∧
  G (decide_edge cfg cur sc tot o) =
    if edges_written o + 1 <=? MAX_EDGES_FOR_GRAPH cfg
    then add_edge (G o) cur.1 cur.2 tot
           (join "," (merge_sort String.le (signals_met_of cfg sc)))
    else G o.
Proof.
  unfold decide_edge.
  destruct (Nat.leb_spec (MIN_SIGNAL_KINDS cfg)
              (length (signals_met_of cfg sc))) as [Hle|Hlt].
  - right. by split.
  - by left.
Qed.

Lemma graph_inv_decide_edge cur sc tot (o : Pass4Out) :
  String.ltb cur.1 cur.2 = true →
  (∀ e, e ∈ rows_written o →
        edge_key e ≠ cur ∧ String.ltb (user_a e) (user_b e) = true) →
  graph_inv cfg o →
  graph_inv cfg (decide_edge cfg cur sc tot o).
Proof.
  intros Hcur Hrows [Hn Hg].
  destruct (decide_edge_eq cur sc tot o)
    as [[_ ->]|(_ & Hw & He & HG)]; [done|].
  unfold graph_inv. rewrite Hw, He, HG, length_app. simpl.
  split; [lia|].
  destruct (Z.leb_spec (edges_written o + 1) (MAX_EDGES_FOR_GRAPH cfg))
    as [Hle|Hgt].
  - rewrite take_ge by (rewrite length_app; simpl; lia).
    rewrite take_ge in Hg by lia.
    rewrite fmap_app, <- Hg. apply add_edge_fresh.
    rewrite Hg. apply Forall_fmap, Forall_forall. intros e He'.
    destruct (Hrows e He') as [Hk Hlt]. unfold same_edge. simpl.
    apply bool_decide_eq_false_2. intros [[Ha Hb]|[Ha Hb]].
    + apply Hk. unfold edge_key. destruct cur. simpl in *. by subst.
    + rewrite Ha, Hb in Hlt. by eapply String_ltb_asym.
  - rewrite take_app_le by lia. done.
Qed.

Lemma graph_inv_fold (rows : list PairRow) :
  StronglySorted row_le rows → canonical_rows rows →
  graph_inv cfg (out (foldl (pass4_row cfg) pass4_init rows)).
Proof.
  induction rows as [|r rows IH] using rev_ind; intros Hs Hc.
  - split; [done|]. simpl. by rewrite take_nil.
  - assert (Hs' : StronglySorted row_le rows)
      by by apply StronglySorted_app_1_l in Hs.
    assert (Hc' : canonical_rows rows)
      by by apply Forall_app in Hc as [? _].
    specialize (IH Hs' Hc').
    destruct (pass4_inv_fold cfg rows Hs')
      as (Hcur & Hlast & _ & _ & Hall & _).
    rewrite foldl_app. simpl. rewrite pass4_row_eq, Hcur.
    destruct (last_key rows) as [k|] eqn:Hk; [|done].
    destruct (decide (row_key r = k)); [done|]. simpl.
    destruct (Hlast k eq_refl) as (_ & _ & Hnk).
    assert (Hkeys : ∀ p, p ∈ row_key <$> rows →
              String.ltb p.1 p.2 = true).
    { intros p (x & -> & Hx)%list_elem_of_fmap.
      unfold canonical_rows in Hc'. rewrite Forall_forall in Hc'.
      by apply Hc'. }
    apply graph_inv_decide_edge; [|
      |done].
    + apply Hkeys. by apply last_key_elem.
    + intros e He. split; [by apply Hnk|].
      destruct (Hall e He) as (Hin & _). by apply (Hkeys _ Hin).
Qed.

(** X18: for a sorted scan whose rows have [user_a < user_b], the
    coordination graph has one edge for each of the first
    [MAX_EDGES_FOR_GRAPH] rows of the edge table, in their order, with the
    [total_occurrences] of the row as weight and its joined signal kinds as
    label. *)
Theorem coordination_graph_edges (rows : list PairRow) :
  StronglySorted row_le rows → canonical_rows rows →
  G (pass4 cfg rows) =
  graph_edge_of <$>
    take (Z.to_nat (MAX_EDGES_FOR_GRAPH cfg))
         (rows_written (pass4 cfg rows)).
Proof.
  intros Hs Hc.
  pose proof (graph_inv_fold rows Hs Hc) as Hinv.
  destruct (pass4_inv_fold cfg rows Hs)
    as (Hcur & Hlast & _ & _ & Hall & _).
  unfold pass4. rewrite Hcur.
  destruct (last_key rows) as [k|] eqn:Hk; [|by destruct Hinv].
  destruct (Hlast k eq_refl) as (_ & _ & Hnk).
  assert (Hkeys : ∀ p, p ∈ row_key <$> rows → String.ltb p.1 p.2 = true).
  { intros p (x & -> & Hx)%list_elem_of_fmap.
    unfold canonical_rows in Hc. rewrite Forall_forall in Hc.
    by apply Hc. }
  apply graph_inv_decide_edge; [| |done].
  - apply Hkeys. by apply last_key_elem.
  - intros e He. split; [by apply Hnk|].
    destruct (Hall e He) as (Hin & _). by apply (Hkeys _ Hin).
Qed.

End Graph.

Lemma coordination_graph_edges_witness :
  G (pass4 default_config sample_scan) =
  graph_edge_of <$>
    take (Z.to_nat (MAX_EDGES_FOR_GRAPH default_config))
         (rows_written (pass4 default_config sample_scan)).
Proof.
  apply (coordination_graph_edges default_config sample_scan).
  - apply (bool_decide_unpack _). vm_compute. exact I.
  - apply (bool_decide_unpack _). vm_compute. exact I.
Defined.

(** ** [heapq] *)

Lemma entry_lt_spec (x y : HeapEntry) :
  entry_lt x y = true ↔
  x.1.1 < y.1.1 ∨ (x.1.1 = y.1.1 ∧ x.1.2 < y.1.2).
Proof.
  unfold entry_lt.
  rewrite orb_true_iff, andb_true_iff, !Z.ltb_lt, Z.eqb_eq. tauto.
Qed.

Lemma entry_le_spec (x y : HeapEntry) :
  entry_le x y ↔ x.1.1 < y.1.1 ∨ (x.1.1 = y.1.1 ∧ x.1.2 ≤ y.1.2).
Proof.
  unfold entry_le. rewrite <- not_true_iff_false, entry_lt_spec. lia.
Qed.

Lemma entry_le_refl (x : HeapEntry) : entry_le x x.
Proof. apply entry_le_spec. lia. Qed.

Lemma entry_le_trans (x y z : HeapEntry) :
  entry_le x y → entry_le y z → entry_le x z.
Proof. rewrite !entry_le_spec. lia. Qed.

Lemma entry_lt_le (x y : HeapEntry) : entry_lt x y = true → entry_le x y.
Proof. rewrite entry_lt_spec, entry_le_spec. lia. Qed.

Lemma entry_not_lt_le (x y : HeapEntry) :
  entry_lt x y = false → entry_le y x.
Proof. done. Qed.

Lemma parent_bounds (j : nat) :
  (0 < j)%nat → (2 * parent j + 1 ≤ j ≤ 2 * parent j + 2)%nat.
Proof.
  intros Hj. unfold parent.
  pose proof (Nat.div_mod_eq (j - 1) 2) as Hd.
  pose proof (Nat.mod_upper_bound (j - 1) 2). lia.
Qed.

Lemma parent_lt (j : nat) : (0 < j)%nat → (parent j < j)%nat.
Proof. intros Hj. pose proof (parent_bounds j Hj). lia. Qed.

Lemma parent_child (j p : nat) :
  (0 < j)%nat → parent j = p ↔ j = (2 * p + 1)%nat ∨ j = (2 * p + 2)%nat.
Proof.
  intros Hj. pose proof (parent_bounds j Hj). split; [lia|].
  intros [->| ->].
  - pose proof (parent_bounds (2 * p + 1)). lia.
  - pose proof (parent_bounds (2 * p + 2)). lia.
Qed.

Lemma hole_swap (h : list HeapEntry) (i j : nat) (x : HeapEntry) :
  (i < length h)%nat → (j < length h)%nat → i ≠ j →
  <[j := x]> (<[i := h !!! j]> h) ≡ₚ <[i := x]> h.
Proof.
  intros Hi Hj Hij.
  rewrite <- (list_insert_insert_eq h i (h !!! j) x).
  apply Permutation_insert_swap.
  - by apply list_lookup_insert_eq.
  - rewrite list_lookup_insert_ne by done.
    by apply list_lookup_lookup_total_lt.
Qed.

Lemma siftdown_loop_S (fuel : nat) (h : list HeapEntry) x (s pos : nat) :
  siftdown_loop (S fuel) h x s pos =
  if (s <? pos)%nat then
    if entry_lt x (h !!! parent pos)
    then siftdown_loop fuel (<[pos := h !!! parent pos]> h) x s (parent pos)
    else (h, pos)
  else (h, pos).
Proof. reflexivity. Qed.

Lemma siftdown_loop_spec (fuel : nat) (h : list HeapEntry) x (pos : nat) :
  (pos < fuel)%nat → siftdown_inv h pos x →
  heap_ok (<[(siftdown_loop fuel h x 0 pos).2 := x]>
             (siftdown_loop fuel h x 0 pos).1) ∧
  <[(siftdown_loop fuel h x 0 pos).2 := x]>
    (siftdown_loop fuel h x 0 pos).1 ≡ₚ <[pos := x]> h.
Proof.
  revert h pos. induction fuel as [|fuel IH]; intros h pos Hf Hinv; [lia|].
  destruct Hinv as (Hpos & H1 & H2 & H3).
  assert (Hfinal : entry_le (h !!! parent pos) x ∨ pos = 0%nat →
            heap_ok (<[pos := x]> h)).
  { intros Hstop j Hj. rewrite length_insert in Hj.
    destruct (decide (j = pos)) as [->|Hjp].
    - rewrite list_lookup_total_insert_eq by done.
      rewrite list_lookup_total_insert_ne
        by (pose proof (parent_lt pos); lia).
      destruct Hstop as [?|?]; [done|lia].
    - rewrite (list_lookup_total_insert_ne _ pos j) by done.
      destruct (decide (parent j = pos)) as [Hp|Hp].
      + rewrite Hp, list_lookup_total_insert_eq by done. by apply H2.
      + rewrite list_lookup_total_insert_ne by done. by apply H1. }
  rewrite siftdown_loop_S. destruct (Nat.ltb_spec 0 pos) as [Hgt|Hz].
  2:{ cbn [fst snd]. split; [|done]. apply Hfinal. right. lia. }
  destruct (entry_lt x (h !!! parent pos)) eqn:Hlt.
  2:{ cbn [fst snd]. split; [|done]. apply Hfinal. left. exact Hlt. }
  pose proof (parent_lt pos Hgt) as Hpar.
  destruct (IH (<[pos := h !!! parent pos]> h) (parent pos)) as [Hok Hperm].
  { lia. }
  { unfold siftdown_inv. rewrite length_insert.
    split; [lia|]. split; [|split].
    - intros j Hj Hjp. destruct (decide (j = pos)) as [->|Hne].
      + rewrite list_lookup_total_insert_eq by done.
        rewrite list_lookup_total_insert_ne by lia. apply entry_le_refl.
      + rewrite (list_lookup_total_insert_ne _ pos j) by done.
        destruct (decide (parent j = pos)) as [Hp|Hp].
        * rewrite Hp, list_lookup_total_insert_eq by done. by apply H3.
        * rewrite list_lookup_total_insert_ne by done. by apply H1.
    - intros j Hj Hp. destruct (decide (j = pos)) as [->|Hne].
      + rewrite list_lookup_total_insert_eq by done. by apply entry_lt_le.
      + rewrite list_lookup_total_insert_ne by done.
        eapply entry_le_trans; [by apply entry_lt_le|].
        rewrite <- Hp. by apply H1.
    - intros j Hj Hp Hpp.
      rewrite (list_lookup_total_insert_ne _ pos (parent (parent pos)))
        by (pose proof (parent_lt (parent pos)); lia).
      assert (Hpp' : entry_le (h !!! parent (parent pos))
                              (h !!! parent pos)) by (apply H1; lia).
      destruct (decide (j = pos)) as [->|Hne].
      + by rewrite list_lookup_total_insert_eq.
      + rewrite list_lookup_total_insert_ne by done.
        eapply entry_le_trans; [exact Hpp'|].
        rewrite <- Hp. by apply H1. }
  split; [done|]. rewrite Hperm. apply hole_swap; lia.
Qed.

Lemma siftdown_spec (h : list HeapEntry) (pos : nat) :
  siftdown_inv h pos (h !!! pos) →
  heap_ok (siftdown h 0 pos) ∧ siftdown h 0 pos ≡ₚ h.
Proof.
  intros Hinv. unfold siftdown.
  destruct (siftdown_loop_spec (S pos) h (h !!! pos) pos) as [Hok Hperm];
    [lia|done|].
  destruct (siftdown_loop (S pos) h (h !!! pos) 0 pos) as [h' pos'].
  split; [done|]. rewrite Hperm.
  rewrite list_insert_id; [done|].
  apply list_lookup_lookup_total_lt. by destruct Hinv.
Qed.

(** [heappush] keeps the heap order and adds the entry. *)
Lemma heappush_spec (h : list HeapEntry) (x : HeapEntry) :
  heap_ok h → heap_ok (heappush h x) ∧ heappush h x ≡ₚ h ++ [x].
Proof.
  intros Hok. unfold heappush. apply siftdown_spec.
  rewrite length_app. simpl.
  replace (length h + 1 - 1)%nat with (length h) by lia.
  unfold siftdown_inv. rewrite length_app. simpl.
  split; [lia|]. split; [|split].
  - intros j Hj Hne. pose proof (parent_lt j).
    rewrite !lookup_total_app_l by lia. apply Hok. lia.
  - intros j Hj Hp. pose proof (parent_bounds j). lia.
  - intros j Hj Hp. pose proof (parent_bounds j). lia.
Qed.

Lemma siftup_loop_S (fuel : nat) (h : list HeapEntry) (endpos pos : nat) :
  siftup_loop (S fuel) h endpos pos =
  if (2 * pos + 1 <? endpos)%nat then
    let childpos :=
      if (2 * pos + 1 + 1 <? endpos)%nat &&
         negb (entry_lt (h !!! (2 * pos + 1)%nat)
                        (h !!! (2 * pos + 1 + 1)%nat))
      then (2 * pos + 1 + 1)%nat else (2 * pos + 1)%nat in
    siftup_loop fuel (<[pos := h !!! childpos]> h) endpos childpos
  else (h, pos).
Proof. reflexivity. Qed.

Lemma siftup_loop_spec (fuel : nat) (h : list HeapEntry) (pos : nat) x :
  (length h - pos ≤ fuel)%nat → siftup_inv h pos →
  siftdown_inv (<[(siftup_loop fuel h (length h) pos).2 := x]>
                  (siftup_loop fuel h (length h) pos).1)
               (siftup_loop fuel h (length h) pos).2 x ∧
  <[(siftup_loop fuel h (length h) pos).2 := x]>
    (siftup_loop fuel h (length h) pos).1 ≡ₚ <[pos := x]> h.
Proof.
  revert h pos. induction fuel as [|fuel IH]; intros h pos Hf Hinv.
  { destruct Hinv as (Hpos & _). lia. }
  destruct Hinv as (Hpos & HE & HG).
  rewrite siftup_loop_S.
  destruct (Nat.ltb_spec (2 * pos + 1) (length h)) as [Hchild|Hleaf].
  2:{ cbn [fst snd]. split; [|done].
      unfold siftdown_inv. rewrite length_insert.
      split; [done|]. split; [|split].
      - intros j Hj Hne. pose proof (parent_bounds j).
        rewrite !list_lookup_total_insert_ne by lia. apply HE; lia.
      - intros j Hj Hp. pose proof (parent_bounds j). lia.
      - intros j Hj Hp. pose proof (parent_bounds j). lia. }
  cbn zeta.
  set (c := if (2 * pos + 1 + 1 <? length h)%nat &&
               negb (entry_lt (h !!! (2 * pos + 1)%nat)
                              (h !!! (2 * pos + 1 + 1)%nat))
            then (2 * pos + 1 + 1)%nat else (2 * pos + 1)%nat).
  assert (Hc : (pos < c < length h)%nat ∧ parent c = pos ∧
               ∀ j, (0 < j < length h)%nat → parent j = pos →
                    entry_le (h !!! c) (h !!! j)).
  { unfold c. destruct (Nat.ltb_spec (2 * pos + 1 + 1) (length h))
      as [Hr|Hr]; cbn [andb].
    - destruct (entry_lt (h !!! (2 * pos + 1)%nat)
                         (h !!! (2 * pos + 1 + 1)%nat)) eqn:Hlt;
        cbn [negb].
      + split; [lia|]. split; [apply parent_child; lia|].
        intros j Hj Hp. apply parent_child in Hp; [|lia].
        destruct Hp as [->| ->].
        * apply entry_le_refl.
        * replace (2 * pos + 2)%nat with (2 * pos + 1 + 1)%nat by lia.
          by apply entry_lt_le.
      + split; [lia|]. split; [apply parent_child; lia|].
        intros j Hj Hp. apply parent_child in Hp; [|lia].
        destruct Hp as [->| ->].
        * exact Hlt.
        * replace (2 * pos + 2)%nat with (2 * pos + 1 + 1)%nat by lia.
          apply entry_le_refl.
    - split; [lia|]. split; [apply parent_child; lia|].
      intros j Hj Hp. apply parent_child in Hp; [|lia].
      destruct Hp as [->| ->]; [|lia]. apply entry_le_refl. }
  destruct Hc as ([Hcpos Hclt] & Hcp & Hcmin).
  pose proof (IH (<[pos := h !!! c]> h) c) as IHc.
  rewrite length_insert in IHc.
  destruct IHc as [Hsd Hperm]; [lia| |].
  { unfold siftup_inv. rewrite length_insert. split; [done|]. split.
    - intros j Hj Hpj Hjc.
      destruct (decide (j = pos)) as [->|Hne].
      + rewrite list_lookup_total_insert_eq by done.
        rewrite list_lookup_total_insert_ne
          by (pose proof (parent_lt pos); lia).
        apply HG; [lia|done|lia].
      + rewrite (list_lookup_total_insert_ne _ pos j) by done.
        destruct (decide (parent j = pos)) as [Hp|Hp].
        * rewrite Hp, list_lookup_total_insert_eq by done.
          by apply Hcmin.
        * rewrite list_lookup_total_insert_ne by done. by apply HE.
    - intros j Hj Hpj _. rewrite Hcp.
      rewrite list_lookup_total_insert_eq by done.
      assert (j ≠ pos) by (pose proof (parent_lt j); lia).
      rewrite list_lookup_total_insert_ne by done.
      rewrite <- Hpj. apply HE; [done|lia|done]. }
  split; [done|]. rewrite Hperm. apply hole_swap; lia.
Qed.

Lemma siftup_spec (h : list HeapEntry) :
  h ≠ [] →
  (∀ j, (0 < j < length h)%nat → parent j ≠ 0%nat →
        entry_le (h !!! parent j) (h !!! j)) →
  heap_ok (siftup h 0) ∧ siftup h 0 ≡ₚ h.
Proof.
  intros Hne Hok. unfold siftup.
  assert (Hlen : (0 < length h)%nat) by (destruct h; [done|simpl; lia]).
  destruct (siftup_loop_spec (length h) h 0 (h !!! 0%nat))
    as [Hsd Hperm]; [lia| |].
  { split; [done|]. split; [|lia]. intros j Hj Hp _. by apply Hok. }
  destruct (siftup_loop (length h) h (length h) 0) as [h' pos'].
  cbn [fst snd] in *.
  assert (Hx : (<[pos' := h !!! 0%nat]> h') !!! pos' = h !!! 0%nat).
  { apply list_lookup_total_insert_eq.
    destruct Hsd as [Hp _]. by rewrite length_insert in Hp. }
  rewrite <- Hx in Hsd at 2.
  destruct (siftdown_spec _ _ Hsd) as [Hok' Hperm'].
  split; [done|]. rewrite Hperm', Hperm.
  rewrite list_insert_id; [done|]. by apply list_lookup_lookup_total_lt.
Qed.

(** [heappushpop] on a full heap keeps the heap order; it replaces the
    least entry by the new one when that is greater, and leaves the heap as
    it is otherwise. *)
Lemma heappushpop_spec (h : list HeapEntry) (top x : HeapEntry) :
  heap_ok (top :: h) →
  if entry_lt top x
  then heap_ok (heappushpop (top :: h) x) ∧
       heappushpop (top :: h) x ≡ₚ x :: h
  else heappushpop (top :: h) x = top :: h.
Proof.
  intros Hok. unfold heappushpop.
  destruct (entry_lt top x); [|done].
  apply siftup_spec; [done|]. simpl.
  intros j Hj Hp. destruct j as [|j]; [lia|].
  pose proof (Hok (S j)) as Hj'. simpl in Hj'.
  destruct (parent (S j)) as [|p] eqn:Hpj; [done|]. simpl.
  apply Hj'. lia.
Qed.

(** ** The top-edges report *)

Lemma entry_lt_trans (x y z : HeapEntry) :
  entry_lt x y = true → entry_lt y z = true → entry_lt x z = true.
Proof. rewrite !entry_lt_spec. lia. Qed.

Lemma entry_lt_le_trans (x y z : HeapEntry) :
  entry_lt x y = true → entry_le y z → entry_lt x z = true.
Proof. rewrite !entry_lt_spec, entry_le_spec. lia. Qed.

Lemma entry_le_ne_lt (x y : HeapEntry) :
  entry_le x y → x.1.2 ≠ y.1.2 → entry_lt x y = true.
Proof. rewrite entry_lt_spec, entry_le_spec. lia. Qed.

(** The first entry of a heap is the least. *)
Lemma heap_ok_min (t : HeapEntry) (h : list HeapEntry) (k : HeapEntry) :
  heap_ok (t :: h) → k ∈ t :: h → entry_le t k.
Proof.
  intros Hok Hk.
  assert (Hall : ∀ j, (j < length (t :: h))%nat →
            entry_le t ((t :: h) !!! j)).
  { induction j as [j IH] using lt_wf_ind. intros Hj.
    destruct (decide (j = 0%nat)) as [->|Hne]; [apply entry_le_refl|].
    pose proof (parent_lt j).
    eapply entry_le_trans; [apply (IH (parent j)); lia|].
    apply Hok. lia. }
  apply list_elem_of_lookup in Hk as [j Hj].
  pose proof (lookup_lt_Some _ _ _ Hj) as Hlt.
  rewrite <- (list_lookup_total_correct _ _ _ Hj). by apply Hall.
Qed.

Lemma entries_of_snoc (rows : list EdgeRow) (r : EdgeRow) :
  entries_of (rows ++ [r]) =
  entries_of rows ++
    [(total_occurrences r, Z.of_nat (length rows) + 1, r)].
Proof.
  unfold entries_of. rewrite imap_app. simpl. do 4 f_equal. lia.
Qed.

Lemma length_entries_of (rows : list EdgeRow) :
  length (entries_of rows) = length rows.
Proof. unfold entries_of. apply length_imap. Qed.

Lemma elem_of_entries_of (rows : list EdgeRow) (x : HeapEntry) :
  x ∈ entries_of rows →
  1 ≤ x.1.2 ≤ Z.of_nat (length rows) ∧ x.2 ∈ rows ∧
  x.1.1 = total_occurrences x.2.
Proof.
  induction rows as [|r rows IH] using rev_ind; [by intros ?%elem_of_nil|].
  rewrite entries_of_snoc, length_app, elem_of_app. simpl.
  intros [Hx|Hx].
  - destruct (IH Hx) as (? & ? & ?). split; [lia|].
    split; [|done]. apply elem_of_app. by left.
  - apply list_elem_of_singleton in Hx as ->. simpl. split; [lia|].
    split; [|done]. apply elem_of_app. right. by apply list_elem_of_here.
Qed.

Lemma entries_of_NoDup (rows : list EdgeRow) :
  NoDup ((entries_of rows).*1.*2).
Proof.
  induction rows as [|r rows IH] using rev_ind; [constructor|].
  rewrite entries_of_snoc, !fmap_app. simpl.
  apply NoDup_app. split; [done|]. split; [|apply NoDup_singleton].
  intros s Hs Hs'. apply list_elem_of_singleton in Hs' as ->.
  apply list_elem_of_fmap in Hs as (p & Hp & Hin).
  apply list_elem_of_fmap in Hin as (x & -> & Hin).
  apply elem_of_entries_of in Hin as (? & _). lia.
Qed.

Section TopEdges.

Variable cfg : Config.

Lemma top_inv_decide_edge cur sc tot (o : Pass4Out) :
  top_inv cfg o → top_inv cfg (decide_edge cfg cur sc tot o).
Proof.
  intros (Hseq & Hok & Hlen & dropped & Hperm & Hlt).
  unfold decide_edge.
  destruct (MIN_SIGNAL_KINDS cfg <=? length (signals_met_of cfg sc))%nat;
    [|by split; [|split; [|split; [|exists dropped]]]].
  unfold write_edge, top_inv.
  cbn [rows_written edge_seq top_edges].
  set (row := {| user_a := cur.1; user_b := cur.2;
                 num_signals := length (signals_met_of cfg sc);
                 total_occurrences := tot;
                 signals := join ","
                   (merge_sort String.le (signals_met_of cfg sc));
                 signal_counts := sc |}).
  set (n := (tot, edge_seq o + 1, row) : HeapEntry).
  assert (Hent : entries_of (rows_written o ++ [row]) =
                 entries_of (rows_written o) ++ [n]).
  { rewrite entries_of_snoc. unfold n. by rewrite Hseq. }
  assert (Hnew : ∀ x, x ∈ top_edges o ++ dropped → x.1.2 ≠ n.1.2).
  { intros x Hx. rewrite Hperm in Hx.
    apply elem_of_entries_of in Hx as (? & _). unfold n. simpl. lia. }
  assert (Hnd : NoDup ((top_edges o ++ dropped).*1.*2)).
  { rewrite Hperm. apply entries_of_NoDup. }
  pose proof (Permutation_length Hperm) as Hl.
  rewrite length_app, length_entries_of in Hl.
  rewrite Hent, length_app. simpl.
  split; [lia|].
  destruct (Nat.ltb_spec (length (top_edges o)) (TOP_EDGES_K cfg))
    as [Hroom|Hfull].
  - destruct (heappush_spec (top_edges o) n Hok) as [Hok' Hperm'].
    split; [done|]. split.
    { rewrite Hperm', length_app. simpl. lia. }
    assert (dropped = []) as -> by (apply length_zero_iff_nil; lia).
    exists []. split; [|by intros d k ?%elem_of_nil].
    rewrite Hperm', <- Hperm. by rewrite !app_nil_r.
  - destruct (top_edges o) as [|t h] eqn:Htop.
    + simpl in *. split; [done|]. split; [lia|].
      exists (dropped ++ [n]). split; [by rewrite Hperm|].
      by intros d k _ ?%elem_of_nil.
    + pose proof (heappushpop_spec h t n Hok) as Hpp.
      destruct (entry_lt t n) eqn:Htn.
      * destruct Hpp as [Hok' Hperm']. split; [done|]. split.
        { rewrite Hperm'. simpl in *. lia. }
        exists (t :: dropped). split.
        { rewrite Hperm', <- Hperm. simpl.
          rewrite <- Permutation_middle.
          by rewrite (Permutation_app_comm (t :: h ++ dropped) [n]). }
        intros d k Hd Hk. rewrite Hperm' in Hk.
        assert (Htk : ∀ k', k' ∈ h → entry_lt t k' = true).
        { intros k' Hk'. apply entry_le_ne_lt.
          - apply (heap_ok_min t h); [done|]. by apply elem_of_cons; right.
          - simpl in Hnd. apply NoDup_cons in Hnd as [Hnot _].
            intros Heq. apply Hnot. rewrite Heq.
            apply list_elem_of_fmap. exists k'.1. split; [done|].
            apply list_elem_of_fmap. exists k'. split; [done|].
            apply elem_of_app. by left. }
        apply elem_of_cons in Hd as [->|Hd];
          apply elem_of_cons in Hk as [->|Hk].
        -- done.
        -- by apply Htk.
        -- eapply entry_lt_trans; [|exact Htn].
           apply Hlt; [done|]. apply list_elem_of_here.
        -- apply Hlt; [done|]. by apply list_elem_of_further.
      * rewrite Hpp. split; [done|]. split; [simpl in *; lia|].
        exists (n :: dropped). split.
        { rewrite <- Hperm. rewrite <- Permutation_middle.
          by rewrite (Permutation_app_comm ((t :: h) ++ dropped) [n]). }
        intros d k Hd Hk.
        apply elem_of_cons in Hd as [->|Hd]; [|by apply Hlt].
        eapply entry_lt_le_trans; [|by apply (heap_ok_min t h)].
        apply entry_le_ne_lt; [exact Htn|].
        intros Heq. apply (Hnew t); [|done].
        apply elem_of_app. left. apply list_elem_of_here.
Qed.

Lemma top_inv_fold (rows : list PairRow) :
  top_inv cfg (out (foldl (pass4_row cfg) pass4_init rows)).
Proof.
  induction rows as [|r rows IH] using rev_ind.
  - split; [done|]. split; [by intros j [? ?]; simpl in *; lia|].
    split; [simpl; lia|]. exists []. split; [done|].
    by intros d k ?%elem_of_nil.
  - rewrite foldl_app. simpl. rewrite pass4_row_eq.
    destruct (current _) as [cur|]; [|done].
    destruct (decide (row_key r = cur)); [done|]. simpl.
    by apply top_inv_decide_edge.
Qed.

Lemma top_inv_pass4 (rows : list PairRow) : top_inv cfg (pass4 cfg rows).
Proof.
  unfold pass4. pose proof (top_inv_fold rows) as Hinv.
  destruct (current _) as [cur|]; [|done].
  by apply top_inv_decide_edge.
Qed.

Variable connected_components : list GEdge → list (list string).

(** X19: the top-edges report lists [TOP_EDGES_K] rows of the edge table,
    or all of them when there are fewer, by descending
    [total_occurrences]; every row it leaves out has fewer occurrences than
    every row it lists, or as many and was written earlier. *)
Theorem top_edges_report (rows : list PairRow)
    (user_item : gmap (string * string) Z)
    (bucket_stats : gmap Z BucketStats) :
  let o := pass4 cfg rows in
  ∃ kept dropped,
    OUT_TOP_EDGES (written (reports connected_components cfg o user_item
                              bucket_stats)) =
      Some (top_edge_of <$> kept) ∧
    length kept = (TOP_EDGES_K cfg `min` length (rows_written o))%nat ∧
    kept ++ dropped ≡ₚ entries_of (rows_written o) ∧
    (∀ d k, d ∈ dropped → k ∈ kept → entry_lt d k = true) ∧
    StronglySorted (λ x y : HeapEntry, y.1.1 ≤ x.1.1) kept.
Proof.
  intros o.
  destruct (top_inv_pass4 rows) as (_ & _ & Hlen & dropped & Hperm & Hlt).
  fold o in Hlen, Hperm, Hlt.
  pose proof (sorted_desc_Permutation (λ e : HeapEntry, e.1.1)
                (top_edges o)) as Hs.
  exists (sorted_desc (λ e : HeapEntry, e.1.1) (top_edges o)), dropped.
  split; [unfold reports; by destruct (write_rows _ _).2|].
  split; [by rewrite Hs|]. split; [by rewrite Hs|].
  split; [intros d k Hd Hk; rewrite Hs in Hk; by apply Hlt|].
  apply (sorted_desc_sorted (λ e : HeapEntry, e.1.1)).
Qed.

End TopEdges.

(** ** The bucket files read back *)

Lemma free_of_cons (c a : ascii) (s : string) :
  free_of c (String a s) = true ↔ a ≠ c ∧ free_of c s = true.
Proof.
  simpl. rewrite andb_true_iff, negb_true_iff.
  by destruct (Ascii.eqb_spec a c); split; intros [? ?].
Qed.

Lemma string_app_cons (a : ascii) (s t : string) :
  String a s +:+ t = String a (s +:+ t).
Proof. reflexivity. Qed.

Lemma string_app_nil (t : string) : "" +:+ t = t.
Proof. reflexivity. Qed.

Lemma string_app_assoc (s t u : string) :
  (s +:+ t) +:+ u = s +:+ (t +:+ u).
Proof.
  induction s as [|a s IH]; [done|]. by rewrite !string_app_cons, IH.
Qed.

(** [split] of a field that is free of the separator. *)
Lemma split_at_last (sep : ascii) (s : string) :
  free_of sep s = true → split_at sep s = [s].
Proof.
  induction s as [|a s IH]; [done|].
  intros [Ha Hs]%free_of_cons. simpl.
  destruct (Ascii.eqb_spec a sep); [done|]. by rewrite IH.
Qed.

Lemma split_at_field (sep : ascii) (s t : string) :
  free_of sep s = true →
  split_at sep (s +:+ String sep t) = s :: split_at sep t.
Proof.
  induction s as [|a s IH].
  - intros _. rewrite string_app_nil. simpl. by rewrite Ascii.eqb_refl.
  - intros [Ha Hs]%free_of_cons. rewrite string_app_cons. simpl.
    destruct (Ascii.eqb_spec a sep); [done|]. by rewrite IH.
Qed.

(** The first line of a text is what comes before its first line feed,
    when that holds no line break. *)
Lemma readlines_line (s t : string) :
  free_of LF s = true → free_of CR s = true →
  readlines (s +:+ String LF t) = s :: readlines t.
Proof.
  induction s as [|a s IH].
  - intros _ _. rewrite string_app_nil. reflexivity.
  - intros [Ha Hs]%free_of_cons [Ha' Hs']%free_of_cons.
    rewrite string_app_cons. simpl.
    destruct (Ascii.eqb_spec a LF); [done|].
    destruct (Ascii.eqb_spec a CR); [done|]. by rewrite IH.
Qed.

Lemma free_of_app (c : ascii) (s t : string) :
  free_of c (s +:+ t) = free_of c s && free_of c t.
Proof.
  induction s as [|a s IH]; [done|].
  rewrite string_app_cons. simpl. rewrite IH. by rewrite andb_assoc.
Qed.

(** No white space of two or three bytes holds a tab. *)
Lemma space2_tab (a : ascii) : space2 a TAB = false.
Proof. unfold space2. simpl. by rewrite andb_false_r. Qed.

Lemma space3_tab_2 (a c : ascii) : space3 a TAB c = false.
Proof.
  unfold space3. simpl.
  by rewrite !andb_false_r, !andb_false_l.
Qed.

Lemma space3_tab_3 (a b : ascii) : space3 a b TAB = false.
Proof.
  unfold space3. simpl.
  by rewrite !andb_false_r.
Qed.

(** White space up to a tab ends at the tab. *)
Lemma all_space_tab (y u : string) :
  all_space (y +:+ String TAB u) = true → all_space u = true.
Proof.
  induction y as [y IH] using (induction_ltof1 _ String.length).
  unfold ltof in IH.
  destruct y as [|a [|b [|c y]]].
  - rewrite string_app_nil. by simpl.
  - rewrite string_app_cons, string_app_nil.
    cbn [all_space]. destruct (space1 a).
    + apply (IH ""). simpl. lia.
    + rewrite space2_tab. destruct u as [|c u]; [done|].
      by rewrite space3_tab_2.
  - rewrite !string_app_cons, string_app_nil. cbn [all_space].
    destruct (space1 a).
    + apply (IH (String b "")). simpl. lia.
    + destruct (space2 a b); [apply (IH ""); simpl; lia|].
      by rewrite space3_tab_3.
  - rewrite !string_app_cons. cbn [all_space].
    destruct (space1 a).
    + apply (IH (String b (String c y))). simpl. lia.
    + destruct (space2 a b); [apply (IH (String c y)); simpl; lia|].
      intros [_ H]%andb_true_iff. revert H. apply IH. simpl. lia.
Qed.

Lemma rstrip_fixed_not_space (u : string) :
  rstrip u = u → u ≠ "" → all_space u = false.
Proof.
  destruct u as [|a u]; [done|]. intros H _. cbn [rstrip] in H.
  by destruct (all_space (String a u)).
Qed.

(** Nothing is stripped before a tab that a user without white space at
    its end follows. *)
Lemma rstrip_before_user (x u : string) :
  rstrip u = u → u ≠ "" →
  rstrip (x +:+ String TAB u) = x +:+ String TAB u.
Proof.
  intros Hu Hne.
  pose proof (rstrip_fixed_not_space u Hu Hne) as Hns.
  assert (Hall : ∀ y, all_space (y +:+ String TAB u) = false).
  { intros y. destruct (all_space (y +:+ String TAB u)) eqn:H; [|done].
    apply all_space_tab in H. congruence. }
  induction x as [|a x IH].
  - rewrite string_app_nil. cbn [rstrip].
    rewrite (Hall "" : all_space (String TAB u) = false). by rewrite Hu.
  - rewrite string_app_cons. cbn [rstrip].
    rewrite (Hall (String a x)
               : all_space (String a (x +:+ String TAB u)) = false).
    by rewrite IH.
Qed.

(** A signal kind does not start with white space. *)
Lemma lstrip_signal (signal rest : string) :
  signal ∈ signal_kinds → lstrip (signal +:+ rest) = signal +:+ rest.
Proof.
  unfold signal_kinds. intros H.
  repeat (apply elem_of_cons in H as [->|H]; [reflexivity|]).
  by apply elem_of_nil in H.
Qed.

(** A line of pass 2 reads back as written when it is clean. *)
Lemma parse_bucket_line (l : Line) :
  l.1.1 ∈ signal_kinds → l.2 ≠ "" → clean_line l →
  parse_line (l.1.1 +:+ String TAB (l.1.2 +:+ String TAB l.2)) = Some l.
Proof.
  destruct l as [[signal value] user]. cbn [fst snd].
  intros Hs Hne ((Hvt & _ & _) & (Hut & _ & _) & Hu).
  unfold parse_line, strip. rewrite lstrip_signal by done.
  assert (Hst : free_of TAB signal = true).
  { unfold signal_kinds in Hs.
    repeat (apply elem_of_cons in Hs as [->|Hs]; [reflexivity|]).
    by apply elem_of_nil in Hs. }
  replace (signal +:+ String TAB (value +:+ String TAB user))
    with ((signal +:+ String TAB value) +:+ String TAB user)
    by (by rewrite string_app_assoc, string_app_cons).
  rewrite rstrip_before_user by done.
  rewrite string_app_assoc, string_app_cons.
  rewrite split_at_field by done. rewrite split_at_field by done.
  by rewrite split_at_last.
Qed.

Lemma bucket_line_eq (l : Line) :
  bucket_line l =
  (l.1.1 +:+ String TAB (l.1.2 +:+ String TAB l.2)) +:+ String LF "".
Proof.
  unfold bucket_line.
  by rewrite string_app_assoc, string_app_cons, string_app_assoc,
    string_app_cons.
Qed.

Lemma read_bucket_text (lines : list Line) :
  Forall (λ l : Line, l.1.1 ∈ signal_kinds ∧ l.2 ≠ "") lines →
  Forall clean_line lines →
  read_bucket (bucket_text lines) = Some lines.
Proof.
  unfold read_bucket.
  induction lines as [|l lines IH]; intros Hw Hc; [done|].
  apply Forall_cons in Hw as [[Hs Hne] Hw].
  apply Forall_cons in Hc as [Hl Hc].
  cbn [bucket_text foldr]. fold (bucket_text lines).
  rewrite bucket_line_eq, string_app_assoc. rewrite string_app_cons.
  rewrite string_app_nil.
  assert (Hk : ∀ c, c = LF ∨ c = CR → free_of c l.1.1 = true).
  { intros c Hcc. unfold signal_kinds in Hs.
    repeat (apply elem_of_cons in Hs as [->|Hs];
            [by destruct Hcc as [-> | ->]|]).
    by apply elem_of_nil in Hs. }
  pose proof Hl as ((_ & Hvl & Hvc) & (_ & Hul & Huc) & _).
  rewrite readlines_line.
  - simpl. rewrite parse_bucket_line by done.
    by rewrite (IH Hw Hc).
  - rewrite free_of_app. simpl. rewrite free_of_app. simpl.
    by rewrite (Hk LF), Hvl, Hul by auto.
  - rewrite free_of_app. simpl. rewrite free_of_app. simpl.
    by rewrite (Hk CR), Hvc, Huc by auto.
Qed.

(** ** The run up to pass 4 *)

Lemma filter_none {A} (P : A → Prop) `{!∀ x, Decision (P x)} (l : list A) :
  (∀ x, ¬ P x) → filter P l = [].
Proof.
  intros Hn. apply elem_of_nil_inv. intros x [Hx _]%list_elem_of_filter.
  by apply (Hn x).
Qed.

Section Run.

Variable fromisoformat_utc : string → option Z.
Variable connected_components : list GEdge → list (list string).
Variable cfg : Config.

(** Pass 2 writes lines of the eight signal kinds with a user. *)
Lemma pass2_lines_written kept_items (records : list Record_) b lines :
  pass2 fromisoformat_utc cfg kept_items records !! b = Some lines →
  Forall (λ l : Line, l.1.1 ∈ signal_kinds ∧ l.2 ≠ "") lines.
Proof.
  intros Hb. apply Forall_forall. intros l Hl.
  assert (Hin : l ∈ default [] (pass2 fromisoformat_utc cfg kept_items
                                  records !! b)) by by rewrite Hb.
  unfold pass2 in Hin. apply elem_of_pass2_from in Hin as [Hin|Hin].
  { rewrite lookup_empty in Hin. by apply elem_of_nil in Hin. }
  destruct Hin as (r & _ & ts & _ & _ & _ & Hne & Hitem & _).
  apply extract_items_kinds in Hitem as [Hk _]. done.
Qed.

Lemma append_buckets_empty (files : gmap Z (list Line)) :
  append_buckets ∅ files = bucket_text <$> files.
Proof. unfold append_buckets. by rewrite (left_id_L ∅ (union_with _)). Qed.

(** Clean bucket files of pass 2 are read back as they were written. *)
Lemma read_buckets_clean kept_items (records : list Record_) :
  clean_files (pass2 fromisoformat_utc cfg kept_items records) →
  read_buckets
    (bucket_text <$> pass2 fromisoformat_utc cfg kept_items records) =
  Some (pass2 fromisoformat_utc cfg kept_items records).
Proof.
  intros Hc. set (files := pass2 _ _ _ _) in *.
  assert (Hread : ∀ b lines, files !! b = Some lines →
            read_bucket (bucket_text lines) = Some lines).
  { intros b lines Hb. apply read_bucket_text.
    - by eapply pass2_lines_written.
    - by apply (Hc b lines). }
  unfold read_buckets. rewrite decide_True.
  - f_equal. apply map_eq. intros b.
    rewrite lookup_omap, lookup_fmap.
    destruct (files !! b) as [lines|] eqn:Hb; [|done].
    simpl. by apply (Hread b).
  - intros b text. rewrite lookup_fmap.
    destruct (files !! b) as [lines|] eqn:Hb; [|done].
    simpl. intros [= <-]. rewrite (Hread b lines Hb). by eexists.
Qed.

(** X21: pass 3a reads from the emptied [TMP_DIR] the lines that pass 2
    wrote, bucket by bucket and in their order, when the values and users
    of the lines hold no tab or line break and no user ends in white
    space. *)
Theorem bucket_files_round_trip kept_items (tmp : TmpDir)
    (records : list Record_) :
  clean_files (pass2 fromisoformat_utc cfg kept_items records) →
  read_buckets
    (append_buckets (tmp_buckets (rmtree_makedirs tmp))
       (pass2 fromisoformat_utc cfg kept_items records)) =
  Some (pass2 fromisoformat_utc cfg kept_items records).
Proof.
  intros Hc. cbn [rmtree_makedirs tmp_buckets].
  rewrite append_buckets_empty. by apply read_buckets_clean.
Qed.

(** With a window that is not zero and clean bucket files, the run comes
    to pass 4 with the lines of pass 2. *)
Lemma main_clean (tmp : TmpDir) (records : list Record_) :
  let kept_items := kept_items_of cfg (pass1 fromisoformat_utc records) in
  let files := pass2 fromisoformat_utc cfg kept_items records in
  WINDOW_SECS cfg ≠ 0 → clean_files files →
  main fromisoformat_utc connected_components cfg tmp records =
  reports connected_components cfg
    (pass4 cfg (select_pair_signal (pass3a cfg files).1))
    (pass3b fromisoformat_utc cfg kept_items records)
    (pass3a cfg files).2.
Proof.
  intros kept_items files Hw Hc. unfold main.
  rewrite bool_decide_eq_false_2 by done. cbn [andb].
  cbn [rmtree_makedirs tmp_buckets]. rewrite append_buckets_empty.
  fold kept_items. fold files. unfold files at 1.
  rewrite read_buckets_clean by done. fold files.
  by destruct (pass3a cfg files).
Qed.

(** With an empty keep-set, every bucket file is empty. *)
Lemma pass2_kept_empty_from (records : list Record_)
    (files : gmap Z (list Line)) :
  map_Forall (λ _ l, l = []) files →
  map_Forall (λ _ l, l = [])
    (foldl (pass2_record fromisoformat_utc cfg ∅) files records).
Proof.
  revert files. induction records as [|r records IH]; intros files Hf;
    [done|].
  simpl. apply IH. unfold pass2_record.
  destruct (parse_ts _ _) as [ts|]; [|done].
  destruct (author_id r) as [user|]; [|done].
  destruct (negb _); [done|].
  destruct (extract_items r) as [|i items] eqn:Hi; [done|].
  apply map_Forall_insert_2; [|done].
  rewrite filter_none by (intros x; apply not_elem_of_empty).
  simpl. rewrite app_nil_r.
  destruct (files !! _) as [l|] eqn:Hl; [|done].
  simpl. by apply (Hf _ _ Hl).
Qed.

Lemma pass2_kept_empty (records : list Record_) :
  map_Forall (λ _ l, l = []) (pass2 fromisoformat_utc cfg ∅ records).
Proof. apply pass2_kept_empty_from, map_Forall_empty. Qed.

Lemma pass3a_fold_empty_files (l : list (Z * list Line)) st :
  Forall (λ f, f.2 = []) l →
  (foldl (pass3a_bucket cfg) st l).1 = st.1.
Proof.
  revert st. induction l as [|[b ls] l IH]; intros st Hl; [done|].
  apply Forall_cons in Hl as [Hb Hl]. simpl in Hb. subst ls.
  simpl. rewrite IH by done. unfold pass3a_bucket. simpl.
  unfold bucket_counts_of. simpl. by rewrite map_to_list_empty.
Qed.

Lemma pass3a_fold_dom (l : list (Z * list Line)) st :
  dom (foldl (pass3a_bucket cfg) st l).2 = dom st.2 ∪ list_to_set l.*1.
Proof.
  revert st. induction l as [|[b ls] l IH]; intros st; simpl.
  - by rewrite (right_id_L ∅ (∪)).
  - rewrite IH. simpl. rewrite dom_insert_L.
    by rewrite (comm_L (∪) {[b]}), (assoc_L (∪)).
Qed.

(** [bucket_stats] has one entry for each bucket file. *)
Lemma pass3a_stats_dom (files : gmap Z (list Line)) :
  dom (pass3a cfg files).2 = dom files.
Proof.
  unfold pass3a. rewrite pass3a_fold_dom. simpl.
  rewrite dom_empty_L, (left_id_L ∅ (∪)).
  apply set_eq. intros b.
  rewrite elem_of_list_to_set, list_elem_of_fmap, elem_of_dom. split.
  - intros ([b' ls] & -> & Hin%elem_of_map_to_list). by eexists.
  - intros [ls Hls]. exists (b, ls). split; [done|].
    by apply elem_of_map_to_list.
Qed.

Lemma pass4_no_rows (rows : list PairRow) :
  rows_written (pass4 cfg rows) = [] → pass4 cfg rows = out pass4_init.
Proof.
  assert (Hde : ∀ cur sc tot o,
            rows_written (decide_edge cfg cur sc tot o) = [] →
            (rows_written o = [] → o = out pass4_init) →
            decide_edge cfg cur sc tot o = out pass4_init).
  { intros cur sc tot o Hw Ho. unfold decide_edge in *.
    destruct (_ <=? _)%nat; [|by apply Ho].
    simpl in Hw. by apply app_nil in Hw as [_ ?]. }
  assert (Hfold : rows_written
                    (out (foldl (pass4_row cfg) pass4_init rows)) = [] →
                  out (foldl (pass4_row cfg) pass4_init rows) =
                  out pass4_init).
  { induction rows as [|r rows IH] using rev_ind; [done|].
    rewrite foldl_app. simpl. rewrite pass4_row_eq.
    destruct (current _); [destruct (decide _)|]; simpl; try done.
    intros Hw. by apply Hde. }
  unfold pass4. destruct (current _); [|done].
  intros Hw. by apply Hde.
Qed.

Lemma pipeline_kept_empty (records : list Record_) :
  select_pair_signal
    (pass3a cfg (pass2 fromisoformat_utc cfg ∅ records)).1 = [].
Proof.
  unfold pass3a. rewrite pass3a_fold_empty_files.
  - unfold select_pair_signal. simpl. by rewrite map_to_list_empty.
  - apply Forall_forall. intros [b ls] Hin%elem_of_map_to_list.
    by apply (pass2_kept_empty records b ls).
Qed.

(** C9, as the code has it: when the keep-set is empty or pass 4 writes no
    edge, and nothing raises on the way (the window is not zero, the lines
    of the bucket files are clean, and the windows of the bucket files lie
    within the years that [datetime] has), the run returns; the edge table,
    the cluster table and the top-edges report are written without data
    rows, the time-window report is written with one row for each bucket
    file, and the top-clusters report and the coordination graph are not
    written. *)
Theorem reports_of_run_without_edges (tmp : TmpDir)
    (records : list Record_) :
  let kept_items := kept_items_of cfg (pass1 fromisoformat_utc records) in
  let files := pass2 fromisoformat_utc cfg kept_items records in
  let o := pass4 cfg (select_pair_signal (pass3a cfg files).1) in
  WINDOW_SECS cfg ≠ 0 →
  clean_files files →
  (∀ b, b ∈ dom files → window_in_range cfg b) →
  kept_items = ∅ ∨ rows_written o = [] →
  ∃ res,
    main fromisoformat_utc connected_components cfg tmp records =
      Returned res ∧
    OUT_EDGES res = Some [] ∧ OUT_CLUSTERS res = Some [] ∧
    OUT_TOP_EDGES res = Some [] ∧ OUT_TOP_CLUSTERS res = None ∧
    OUT_GRAPH res = None ∧
    ∃ tw, OUT_TIME_WINDOWS res = Some tw ∧ length tw = size files.
Proof.
  intros kept_items files o Hw Hc Hr Hempty.
  assert (Ho : o = out pass4_init).
  { apply pass4_no_rows. destruct Hempty as [Hk|Hrows]; [|done].
    unfold o, files. rewrite Hk, pipeline_kept_empty. done. }
  rewrite (main_clean tmp records Hw Hc).
  fold kept_items. fold files. fold o. rewrite Ho.
  pose proof (pass3a_stats_dom files) as Hdom.
  unfold reports. rewrite time_windows_written by (by rewrite Hdom).
  cbn [fst snd]. eexists. split; [reflexivity|].
  unfold clusters_of. simpl.
  repeat (split; [done|]).
  eexists. split; [reflexivity|].
  rewrite length_fmap, merge_sort_Permutation, length_fmap.
  rewrite length_map_to_list, <- !size_dom. by rewrite Hdom.
Qed.

(** A run that comes to pass 4 writes the edge table, the cluster table
    and the top-edges report, and opens the time-window report. *)
Lemma reports_always_written (o : Pass4Out)
    (user_item : gmap (string * string) Z)
    (bucket_stats : gmap Z BucketStats) :
  let res :=
    written (reports connected_components cfg o user_item bucket_stats) in
  is_Some (OUT_EDGES res) ∧ is_Some (OUT_CLUSTERS res) ∧
  is_Some (OUT_TOP_EDGES res) ∧ is_Some (OUT_TIME_WINDOWS res).
Proof.
  unfold reports. destruct (write_rows _ _).2; simpl;
    repeat split; by eexists.
Qed.

End Run.

(** C9, as the spec states it, fails on four posts of a hashtag below the
    minimum frequency: the keep-set is empty and the run returns, but the
    top-clusters report is not written, and the time-window report has a
    row for the bucket. *)
Lemma four_posts_reports :
  ¬ empty_outcome_writes_empty_reports sample_fromisoformat
      sample_components default_config empty_tmp four_posts.
Proof.
  intros H. destruct H as (res & Hres & _ & _ & _ & Htc & _).
  - left. vm_compute. reflexivity.
  - vm_compute in Hres. injection Hres as <-.
    vm_compute in Htc. discriminate.
Qed.

Lemma reports_of_run_without_edges_witness :
  ∃ res,
    main sample_fromisoformat sample_components default_config empty_tmp
      four_posts = Returned res ∧
    OUT_EDGES res = Some [] ∧ OUT_CLUSTERS res = Some [] ∧
    OUT_TOP_EDGES res = Some [] ∧ OUT_TOP_CLUSTERS res = None ∧
    OUT_GRAPH res = None ∧
    ∃ tw, OUT_TIME_WINDOWS res = Some tw ∧ length tw = 1%nat.
Proof.
  apply (reports_of_run_without_edges sample_fromisoformat
           sample_components default_config empty_tmp four_posts).
  - discriminate.
  - apply (bool_decide_unpack _). vm_compute. exact I.
  - intros b Hb. apply (bool_decide_unpack _).
    revert b Hb. apply (bool_decide_unpack _). vm_compute. exact I.
  - left. vm_compute. reflexivity.
Defined.

Lemma bucket_files_round_trip_witness :
  read_buckets
    (append_buckets (tmp_buckets (rmtree_makedirs leftover_tmp))
       (pass2 sample_fromisoformat lenient_config
          (kept_items_of lenient_config
             (pass1 sample_fromisoformat three_users)) three_users)) =
  Some (pass2 sample_fromisoformat lenient_config
          (kept_items_of lenient_config
             (pass1 sample_fromisoformat three_users)) three_users).
Proof.
  apply (bucket_files_round_trip sample_fromisoformat lenient_config).
  apply (bool_decide_unpack _). vm_compute. exact I.
Defined.

(** An event in the last hour of the year 9999 has a window that ends in
    the year 10000: the keep-set is empty, and the run is ended by the
    exception of [fromtimestamp] with the time-window report opened and
    no row in it. *)
Example last_hour_raises :
  kept_items_of default_config (pass1 sample_fromisoformat last_hour) = ∅ ∧
  ∃ res,
    main sample_fromisoformat sample_components default_config empty_tmp
      last_hour = Raised res ∧
    OUT_EDGES res = Some [] ∧ OUT_TIME_WINDOWS res = Some [].
Proof.
  split; [vm_compute; reflexivity|].
  eexists. split; [vm_compute; reflexivity|]. by split.
Qed.

(** A hashtag with a tab gives lines of four fields: the run is ended by
    the exception of the unpacking in pass 3a, before any report is
    written. *)
Example tab_in_tag_raises :
  main sample_fromisoformat sample_components lenient_config empty_tmp
    tab_in_tag = Raised no_outputs.
Proof. vm_compute. reflexivity. Qed.

(** ** The scenarios of the specification *)

(** Three users share a domain and two of them a hashtag, with one
    occurrence per signal as the minimum: the only edge is [(A, B)], with
    both kinds and two occurrences. *)
Example scenario_three_users :
  ∃ res,
    main sample_fromisoformat sample_components lenient_config empty_tmp
      three_users = Returned res ∧
    OUT_EDGES res =
    Some [{| user_a := "A"; user_b := "B"; num_signals := 2;
             total_occurrences := 2; signals := "A_DOM,B_TAG";
             signal_counts := [("A_DOM", 1); ("B_TAG", 1)] |}].
Proof. eexists. split; vm_compute; reflexivity. Qed.

(** Two users co-occur on a domain in one bucket and on a hashtag in the
    next: the store sums both buckets into one edge. *)
Example scenario_two_windows :
  ∃ res,
    main sample_fromisoformat sample_components lenient_config empty_tmp
      two_windows = Returned res ∧
    OUT_EDGES res =
    Some [{| user_a := "A"; user_b := "B"; num_signals := 2;
             total_occurrences := 2; signals := "A_DOM,B_TAG";
             signal_counts := [("A_DOM", 1); ("B_TAG", 1)] |}].
Proof. eexists. split; vm_compute; reflexivity. Qed.

(** ** Two runs on the same input *)

Lemma Forall2_imap {A B C D} (R : A → B → Prop) (Q : C → D → Prop)
    (f : nat → A → C) (g : nat → B → D) (l1 : list A) (l2 : list B) :
  (∀ i x y, R x y → Q (f i x) (g i y)) →
  Forall2 R l1 l2 → Forall2 Q (imap f l1) (imap g l2).
Proof.
  intros Hfg H. revert f g Hfg.
  induction H as [|x y l1 l2 Hxy Hl IH]; intros f g Hfg; [constructor|].
  simpl. constructor; [by apply Hfg|].
  apply IH. intros i x' y' Hx'. by apply Hfg.
Qed.

Lemma Forall2_insert_desc {A} (Q : A → A → Prop) (key : A → Z)
    (x y : A) (l1 l2 : list A) :
  (∀ a b, Q a b → key a = key b) →
  Q x y → Forall2 Q l1 l2 →
  Forall2 Q (insert_desc key x l1) (insert_desc key y l2).
Proof.
  intros Hkey Hxy H. induction H as [|a b l1 l2 Hab Hl IH]; simpl.
  - by repeat constructor.
  - rewrite (Hkey _ _ Hxy), (Hkey _ _ Hab).
    destruct (key b <? key y); by repeat constructor.
Qed.

(** [sorted] with a key puts lists that agree on the key, place by place,
    in the same order. *)
Lemma Forall2_sorted_desc {A} (Q : A → A → Prop) (key : A → Z)
    (l1 l2 : list A) :
  (∀ a b, Q a b → key a = key b) →
  Forall2 Q l1 l2 →
  Forall2 Q (sorted_desc key l1) (sorted_desc key l2).
Proof.
  intros Hkey H. unfold sorted_desc.
  assert (Hgen : ∀ a1 a2, Forall2 Q a1 a2 →
            Forall2 Q (foldl (λ acc x, insert_desc key x acc) a1 l1)
                      (foldl (λ acc x, insert_desc key x acc) a2 l2)).
  { induction H as [|x y l1 l2 Hxy Hl IH]; intros a1 a2 Ha; [done|].
    simpl. apply IH. by apply Forall2_insert_desc. }
  apply Hgen. constructor.
Qed.

Lemma Forall2_shape {A B} (Q : A → A → Prop) (shape : A → B)
    (l1 l2 : list A) :
  (∀ a b, Q a b → shape a = shape b) →
  Forall2 Q l1 l2 → shape <$> l1 = shape <$> l2.
Proof.
  intros Hs H. induction H as [|x y l1 l2 Hxy Hl IH]; [done|].
  rewrite !fmap_cons. by rewrite (Hs _ _ Hxy), IH.
Qed.

Lemma same_components_reverse (cc : list GEdge → list (list string)) :
  same_components cc (λ g, reverse <$> cc g).
Proof.
  intros g. induction (cc g) as [|c l IH]; [constructor|].
  simpl. constructor; [|done]. by rewrite reverse_Permutation.
Qed.

Section Rerun.

Variable fromisoformat_utc : string → option Z.
Variable cfg : Config.
Variables cc1 cc2 : list GEdge → list (list string).
Hypothesis Hcc : same_components cc1 cc2.

Lemma enumerate_same (g : list GEdge) :
  Forall2 (λ x y : nat * list string, x.1 = y.1 ∧ x.2 ≡ₚ y.2)
          (enumerate (cc1 g)) (enumerate (cc2 g)).
Proof.
  unfold enumerate. eapply Forall2_imap; [|apply Hcc].
  intros i x y Hxy. by split.
Qed.

Lemma clusters_same_shape (o : Pass4Out) :
  cluster_shape <$> clusters_of cc1 cfg o =
  cluster_shape <$> clusters_of cc2 cfg o.
Proof.
  unfold clusters_of. destruct (_ && _); [|done].
  apply (Forall2_shape (λ a b, cluster_shape a = cluster_shape b));
    [done|].
  apply Forall2_sorted_desc.
  { intros a b [= _ Hs]. by rewrite Hs. }
  apply Forall2_fmap.
  eapply Forall2_impl; [apply enumerate_same|].
  intros [i c] [j c'] [Hi Hc]. simpl in *. subst j.
  unfold cluster_shape, cluster_of. simpl. by rewrite Hc.
Qed.

Lemma top_clusters_same_shape (g b : list GEdge)
    (cl1 cl2 : list ClusterRow) :
  top_cluster_shape <$>
    sorted_desc (λ r, Z.of_nat (tc_size r))
      (top_cluster_of g b cl1 <$> enumerate (cc1 g)) =
  top_cluster_shape <$>
    sorted_desc (λ r, Z.of_nat (tc_size r))
      (top_cluster_of g b cl2 <$> enumerate (cc2 g)).
Proof.
  apply (Forall2_shape
           (λ a b, top_cluster_shape a = top_cluster_shape b)); [done|].
  apply Forall2_sorted_desc.
  { intros x y [= _ Hs]. by rewrite Hs. }
  apply Forall2_fmap.
  eapply Forall2_impl; [apply enumerate_same|].
  intros [i c] [j c'] [Hi Hc]. simpl in *. subst j.
  unfold top_cluster_shape, top_cluster_of. simpl. by rewrite Hc.
Qed.


End Rerun.



(** ** Which graph files are written *)

Lemma add_edge_not_nil (g : list GEdge) u v w s : add_edge g u v w s ≠ [].
Proof. destruct g as [|e g]; simpl; [done|]. by destruct (same_edge u v e). Qed.

Lemma add_node_not_nil (ns : list string) u : add_node ns u ≠ [].
Proof.
  unfold add_node. destruct (decide (u ∈ ns)) as [Hin|_].
  - intros ->. by apply elem_of_nil in Hin.
  - by destruct ns.
Qed.

(** A graph has a node as soon as it has an edge. *)
Lemma number_of_nodes_zero (g : list GEdge) :
  number_of_nodes g = 0%nat ↔ g = [].
Proof.
  unfold number_of_nodes, nodes_of. split; [|by intros ->].
  destruct g as [|e g]; [done|]. simpl. intros Hl.
  apply length_zero_iff_nil in Hl. exfalso. revert Hl.
  generalize (add_node_not_nil (add_node [] e.1.1.1) e.1.1.2).
  generalize (add_node (add_node [] e.1.1.1) e.1.1.2).
  induction g as [|e' g IH]; intros ns Hns; simpl; [done|].
  apply IH, add_node_not_nil.
Qed.

Section GraphFiles.

Variable connected_components : list GEdge → list (list string).
Variable cfg : Config.

Lemma nodes_inv_decide_edge cur sc tot (o : Pass4Out) :
  nodes_inv cfg o → nodes_inv cfg (decide_edge cfg cur sc tot o).
Proof.
  intros [Hn Hg].
  destruct (decide_edge_eq cfg cur sc tot o)
    as [[_ ->]|(_ & Hw & He & HG)]; [done|].
  unfold nodes_inv. rewrite Hw, He, HG, length_app. simpl.
  split; [lia|].
  destruct (Z.leb_spec (edges_written o + 1) (MAX_EDGES_FOR_GRAPH cfg))
    as [Hle|Hgt].
  - split.
    + intros H. by apply add_edge_not_nil in H.
    + intros [H|H]; [by apply app_nil in H as [_ ?]|lia].
  - split.
    + intros H. right. apply Hg in H as [H|H]; [|done].
      rewrite H in Hn. simpl in Hn. lia.
    + intros [H|H]; [by apply app_nil in H as [_ ?]|].
      apply Hg. by right.
Qed.

Lemma nodes_inv_pass4 (rows : list PairRow) : nodes_inv cfg (pass4 cfg rows).
Proof.
  assert (Hfold : nodes_inv cfg
                    (out (foldl (pass4_row cfg) pass4_init rows))).
  { induction rows as [|r rows IH] using rev_ind.
    - split; [done|]. split; [by left|done].
    - rewrite foldl_app. simpl. rewrite pass4_row_eq.
      destruct (current _) as [cur|]; [|done].
      destruct (decide (row_key r = cur)); [done|]. simpl.
      by apply nodes_inv_decide_edge. }
  unfold pass4. destruct (current _) as [cur|]; [|done].
  by apply nodes_inv_decide_edge.
Qed.

(** X22: the file of the coordination graph is written exactly when at
    least one row and at most [MAX_EDGES_FOR_GRAPH] rows were written to
    the edge table; the top-clusters report is written exactly when at
    least one row was written and the ceiling is at least one, also when
    the ceiling is exceeded and the cluster table is empty. *)
Theorem graph_files_written (rows : list PairRow)
    (user_item : gmap (string * string) Z)
    (bucket_stats : gmap Z BucketStats) :
  let o := pass4 cfg rows in
  let res :=
    written (reports connected_components cfg o user_item bucket_stats) in
  let n := Z.of_nat (length (rows_written o)) in
  (is_Some (OUT_GRAPH res) ↔ 0 < n ≤ MAX_EDGES_FOR_GRAPH cfg) ∧
  (is_Some (OUT_TOP_CLUSTERS res) ↔
   0 < n ∧ 1 ≤ MAX_EDGES_FOR_GRAPH cfg) ∧
  (MAX_EDGES_FOR_GRAPH cfg < n → OUT_CLUSTERS res = Some []).
Proof.
  intros o res n. destruct (nodes_inv_pass4 rows) as [Hn Hg].
  fold o in Hn, Hg.
  assert (Hnodes : (0 <? number_of_nodes (G o))%nat = true ↔
                   0 < n ∧ 1 ≤ MAX_EDGES_FOR_GRAPH cfg).
  { rewrite Nat.ltb_lt. pose proof (number_of_nodes_zero (G o)) as Hz.
    unfold n. split.
    - intros Hpos.
      assert (Hne : G o ≠ []) by (intros H; apply Hz in H; lia).
      split.
      + destruct (rows_written o); [|simpl; lia].
        destruct Hne. apply Hg. by left.
      + destruct (Z.le_gt_cases 1 (MAX_EDGES_FOR_GRAPH cfg)); [done|].
        destruct Hne. apply Hg. by right.
    - intros [Hpos Hmax].
      destruct (decide (number_of_nodes (G o) = 0%nat)) as [Hk|Hk];
        [|lia].
      apply Hz, Hg in Hk as [Hk|Hk]; [|lia].
      rewrite Hk in Hpos. simpl in Hpos. lia. }
  assert (Hres : res =
            written (reports connected_components cfg o user_item
                       bucket_stats)) by done.
  unfold reports in Hres. destruct (write_rows _ _).2;
    cbn [written] in Hres; rewrite Hres; cbn [OUT_GRAPH OUT_TOP_CLUSTERS
                                               OUT_CLUSTERS];
    unfold clusters_of; rewrite Hn; fold n.
  all: destruct (0 <? number_of_nodes (G o))%nat eqn:Hk;
    destruct (Z.leb_spec n (MAX_EDGES_FOR_GRAPH cfg)) as [Hle|Hgt];
    cbn [andb].
  all: repeat split;
    try (intros [? [=]]); try (by eexists); try lia; try done;
    try (intros _; by apply Hnodes);
    try (intros H; apply Hnodes in H; congruence);
    try (intros [? ?]; lia).
Qed.

End GraphFiles.

(** ** Pass 5: the rows of the bipartite graph *)

Section Bipartite.

Variable cfg : Config.

(** X23: with a limit that is not negative, the rows read for the
    bipartite graph are rows of [user_item], [MAX_BIP_EDGES] of them or all
    when there are no more, and no row left out has a greater count than a
    row read. *)
Theorem bipartite_rows_selected (db : gmap (string * string) Z) :
  0 ≤ MAX_BIP_EDGES cfg →
  ∃ rest,
    select_user_item cfg db ++ rest ≡ₚ map_to_list db ∧
    length (select_user_item cfg db) =
      (size db `min` Z.to_nat (MAX_BIP_EDGES cfg))%nat ∧
    ∀ r d, r ∈ select_user_item cfg db → d ∈ rest → d.2 ≤ r.2.
Proof.
  intros Hmax. unfold select_user_item.
  destruct (Z.ltb_spec (MAX_BIP_EDGES cfg) (Z.of_nat (size db)))
    as [Hlt|Hge].
  - destruct (Z.ltb_spec (MAX_BIP_EDGES cfg) 0) as [?|_]; [lia|].
    set (n := Z.to_nat (MAX_BIP_EDGES cfg)).
    set (l := sorted_desc snd (map_to_list db)).
    pose proof (sorted_desc_Permutation snd (map_to_list db)) as Hp.
    pose proof (sorted_desc_sorted snd (map_to_list db)) as Hs.
    fold l in Hp, Hs.
    exists (drop n l). split; [by rewrite take_drop|]. split.
    + rewrite length_take, Hp, length_map_to_list. lia.
    + intros r d Hr Hd. rewrite <- (take_drop n l) in Hs.
      by apply (StronglySorted_app_1_elem_of _ _ _ r d) in Hs.
  - exists []. split; [by rewrite app_nil_r|]. split.
    + rewrite length_map_to_list. lia.
    + by intros r d _ ?%elem_of_nil.
Qed.

End Bipartite.

Lemma bipartite_rows_selected_witness :
  ∃ rest,
    select_user_item default_config sample_user_item ++ rest ≡ₚ
      map_to_list sample_user_item ∧
    length (select_user_item default_config sample_user_item) =
      (size sample_user_item `min`
       Z.to_nat (MAX_BIP_EDGES default_config))%nat ∧
    ∀ r d,
      r ∈ select_user_item default_config sample_user_item →
      d ∈ rest → d.2 ≤ r.2.
Proof.
  apply (bipartite_rows_selected default_config). vm_compute. discriminate.
Defined.

(** ** The signal counter of a cluster *)

Lemma dict_count_fold (l : list string) (d : list (string * Z)) s :
  default 0 (dict_get s (foldl (λ c k, dict_add k 1 c) d l)) =
  default 0 (dict_get s d) + occurrences s l.
Proof.
  revert d. induction l as [|k l IH]; intros d.
  - unfold occurrences. simpl. lia.
  - cbn [foldl]. rewrite IH, dict_get_add. unfold occurrences.
    rewrite filter_cons.
    destruct (decide (s = k)) as [->|Hne].
    + rewrite decide_True by done. simpl. lia.
    + rewrite decide_False by (intros ->; done). lia.
Qed.

Lemma sum_Z_add {A} (p q : A → Z) (l : list A) :
  sum_Z (λ x, p x + q x) l = sum_Z p l + sum_Z q l.
Proof. induction l as [|x l IH]; simpl; [done|]. rewrite IH. lia. Qed.

Lemma sum_Z_ext {A} (p q : A → Z) (l : list A) :
  (∀ x, x ∈ l → p x = q x) → sum_Z p l = sum_Z q l.
Proof.
  induction l as [|x l IH]; intros H; simpl; [done|].
  rewrite (H x) by apply list_elem_of_here.
  rewrite IH; [done|]. intros y Hy. apply H. by apply list_elem_of_further.
Qed.

Lemma sum_Z_swap {A B} (h : A → B → Z) (l1 : list A) (l2 : list B) :
  sum_Z (λ x, sum_Z (h x) l2) l1 = sum_Z (λ y, sum_Z (λ x, h x y) l1) l2.
Proof.
  induction l1 as [|x l1 IH]; simpl.
  - induction l2 as [|y l2 IH2]; simpl; [done|]. by rewrite <- IH2.
  - rewrite IH, <- sum_Z_add. done.
Qed.

Lemma sum_Z_indicator (a : string) (c : Z) (l : list string) :
  NoDup l →
  sum_Z (λ u, if decide (a = u) then c else 0) l =
  if decide (a ∈ l) then c else 0.
Proof.
  induction 1 as [|x l Hx Hl IH].
  - destruct (decide (a ∈ [])) as [Hin|_]; [|done].
    by apply elem_of_nil in Hin.
  - cbn [sum_Z foldr]. fold (sum_Z (λ u, if decide (a = u) then c else 0) l).
    rewrite IH.
    destruct (decide (a = x)) as [->|Hne].
    + destruct (decide (x ∈ l)) as [?|_]; [done|].
      destruct (decide (x ∈ x :: l)) as [_|Hn]; [lia|].
      destruct Hn. apply list_elem_of_here.
    + destruct (decide (a ∈ l)) as [Hin|Hin];
        destruct (decide (a ∈ x :: l)) as [Hin'|Hin']; try lia.
      * destruct Hin'. by apply list_elem_of_further.
      * apply elem_of_cons in Hin' as [?|?]; done.
Qed.

Lemma sum_Z_filter {A} (f : A → Z) (P : A → Prop)
    `{!∀ x, Decision (P x)} (l : list A) :
  sum_Z (λ x, if decide (P x) then f x else 0) l = sum_Z f (filter P l).
Proof.
  induction l as [|x l IH]; simpl; [done|].
  rewrite filter_cons, IH. destruct (decide (P x)); simpl; lia.
Qed.

Lemma sum_Z_cons {A} (f : A → Z) (x : A) (l : list A) :
  sum_Z f (x :: l) = f x + sum_Z f l.
Proof. reflexivity. Qed.

(** What the loops over a cluster add for [s] at the node [u]: the
    occurrences of [s] on the edges at [u]. *)
Lemma neighbors_occurrences (g : list GEdge) (u s : string) :
  occurrences s (n ← neighbors g u; edge_signals n.2) =
  sum_Z (λ e : GEdge,
           if decide (e.1.1.1 = u) then occurrences s (edge_signals e.2)
           else if decide (e.1.1.2 = u)
                then occurrences s (edge_signals e.2) else 0) g.
Proof.
  unfold neighbors. rewrite occurrences_bind.
  induction g as [|e g IH]; [done|].
  rewrite bind_cons, sum_Z_app, IH, sum_Z_cons. f_equal.
  destruct (decide (e.1.1.1 = u)); [rewrite sum_Z_cons; simpl; lia|].
  destruct (decide (e.1.1.2 = u)); [rewrite sum_Z_cons; simpl; lia|done].
Qed.

(** X24: in the signal counter of a cluster, every edge of the cluster
    counts from both of its ends: the count of a signal kind is twice the
    number of its occurrences on the edges of the cluster. *)
Theorem cluster_signals_count_twice (g : list GEdge) (comp : list string)
    (s : string) :
  NoDup comp → closed_in g comp → no_self_loop g →
  default 0 (dict_get s (cluster_sig_counter g comp)) =
  2 * sum_Z (λ e : GEdge, occurrences s (edge_signals e.2))
        (filter (λ e : GEdge, e.1.1.1 ∈ comp) g).
Proof.
  intros Hnd Hclosed Hloop. unfold cluster_sig_counter.
  rewrite dict_count_fold. simpl dict_get. simpl default.
  rewrite Z.add_0_l, occurrences_bind.
  rewrite (sum_Z_ext _ _ _ (λ u _, neighbors_occurrences g u s)).
  rewrite sum_Z_swap, <- sum_Z_filter.
  rewrite <- (Z.mul_1_r 2), <- Z.mul_assoc, Z.mul_1_l.
  assert (Hmul : ∀ (f : GEdge → Z) l, 2 * sum_Z f l =
                   sum_Z (λ e, 2 * f e) l).
  { intros f l. induction l as [|x l IH]; simpl; [done|]. lia. }
  rewrite Hmul. apply sum_Z_ext. intros e He.
  set (c := occurrences s (edge_signals e.2)).
  rewrite (sum_Z_ext _ (λ u, (if decide (e.1.1.1 = u) then c else 0) +
                             (if decide (e.1.1.2 = u) then c else 0))).
  2:{ intros u _. destruct (decide (e.1.1.1 = u)) as [Hu|Hu];
        destruct (decide (e.1.1.2 = u)) as [Hv|Hv]; try lia.
      destruct (Hloop e He). congruence. }
  rewrite sum_Z_add, !sum_Z_indicator by done.
  pose proof (Hclosed e He) as Hc.
  destruct (decide (e.1.1.1 ∈ comp)) as [Hin|Hin];
    destruct (decide (e.1.1.2 ∈ comp)) as [Hin'|Hin']; try lia; tauto.
Qed.

Lemma cluster_signals_count_twice_witness :
  default 0 (dict_get "A_DOM"
               (cluster_sig_counter sample_graph ["A"; "B"; "C"])) =
  2 * sum_Z (λ e : GEdge, occurrences "A_DOM" (edge_signals e.2))
        (filter (λ e : GEdge, e.1.1.1 ∈ ["A"; "B"; "C"]) sample_graph).
Proof.
  apply (cluster_signals_count_twice sample_graph ["A"; "B"; "C"] "A_DOM").
  - apply (bool_decide_unpack _). vm_compute. exact I.
  - intros e He. revert e He. apply Forall_forall.
    apply (bool_decide_unpack _). vm_compute. exact I.
  - intros e He. revert e He. apply Forall_forall.
    apply (bool_decide_unpack _). vm_compute. exact I.
Defined.
